(** * YDS speed-scaling scheduler: a shallow embedding of [yds.py]

    The Python module computes, for a list of tasks (release time, deadline,
    workload), the schedule of the offline YDS algorithm.

    - Numbers are rationals [Q]; Python's [==], [<], [<=] on numbers are
      [Qeq_bool], [Qlt_bool], [Qle_bool].  The program is embedded twice:
      in exact arithmetic ([cut], [calc_scheduling], ...), where [float(x)]
      is the identity, and in floating-point arithmetic ([cut_fl],
      [calc_scheduling_fl], ...), where every arithmetic result is rounded
      by a function [rnd]; [rnd53] rounds to the nearest double.  The exact
      embedding is the float embedding with the identity for [rnd].
    - Exceptions are values of [pyerror], threaded through the [result]
      monad; a division is guarded by the test that makes Python raise
      [ZeroDivisionError].
    - The [while] loop of [calc_scheduling] runs on explicit fuel.
    - A [Task] object is a record carrying its identity [oid].  [cut]
      mutates the object and returns it; the record model returns the
      updated record.  This is the same thing for the result of
      [calc_scheduling]: the caller's list holds distinct objects, and within
      one iteration every read of a task (by [get_intervals], by the [for]
      loop) comes before the cuts of that iteration.
    - The order in which Python iterates over a [set] is a parameter
      [set_iter] of the model. *)

From Stdlib Require Import QArith Lqa Lia List Bool Arith String.
From Stdlib Require Import Permutation Sorted SetoidList.
Import ListNotations.

Open Scope Q_scope.

(** ** Exceptions and the error monad *)

Inductive pyerror : Type :=
| ZeroDivisionError   (* float division by zero *)
| ValueError          (* max() of an empty sequence, list.remove(x) with x absent *)
| UncaughtCut.        (* Exception("uncatched, please file issue") *)

Inductive result (A : Type) : Type :=
| Ok (a : A)
| Raise (e : pyerror).
Arguments Ok {A} a.
Arguments Raise {A} e.

Definition bind {A B : Type} (m : result A) (k : A -> result B) : result B :=
  match m with
  | Ok a => k a
  | Raise e => Raise e
  end.

Notation "'do' x <- m ; k" := (bind m (fun x => k))
  (at level 10, x name, m at level 100, k at level 200).

(** [for x in l: s = body x s], stopping at the first exception. *)
Fixpoint for_each {A S : Type} (l : list A) (body : A -> S -> result S) (s : S)
  : result S :=
  match l with
  | [] => Ok s
  | x :: l' => do s' <- body x s; for_each l' body s'
  end.

(** [[f x for x in l]], stopping at the first exception. *)
Fixpoint map_result {A B : Type} (f : A -> result B) (l : list A)
  : result (list B) :=
  match l with
  | [] => Ok []
  | x :: l' => do y <- f x; do ys <- map_result f l'; Ok (y :: ys)
  end.

(** ** Comparisons on numbers *)

Definition Qlt_bool (x y : Q) : bool := negb (Qle_bool y x).

(** ** Stable sort: [sorted(l, key=...)]

    Python's [sorted] is stable and compares keys with [<] only; the result
    of a stable sort is unique, so insertion sort gives the same list. *)

Fixpoint insert_by {A : Type} (key : A -> Q) (x : A) (l : list A) : list A :=
  match l with
  | [] => [x]
  | y :: l' =>
      if Qlt_bool (key y) (key x) then y :: insert_by key x l'
      else x :: y :: l'
  end.

Definition sorted {A : Type} (key : A -> Q) (l : list A) : list A :=
  fold_right (insert_by key) [] l.

Section Model.

(** Task identifiers are opaque to the algorithm ([nr (any)]). *)
Variable ident : Type.

(** ** class Task

    [oid] is the identity of the Python object: [Task] defines no [__eq__],
    so [list.remove] finds a task by identity. *)
Record Task : Type := mkTask {
  oid : nat;
  nr : ident;
  release : Q;
  dead : Q;
  c : Q;
  offset : Q
}.

Definition Task_init (o : nat) (n : ident) (r d w : Q) : Task :=
  mkTask o n r d w 0.

(** Task.cut: the task after the interval [[start, end_)] was removed from
    the timeline. *)
Definition cut (self : Task) (start end_ : Q) : result Task :=
  let distance := end_ - start in
  (* task after interval *)
  if Qle_bool end_ (release self) then
    Ok (mkTask (oid self) (nr self) (release self - distance)
          (dead self - distance) (c self) (offset self + distance))
  (* task before interval *)
  else if Qle_bool (dead self) start then
    Ok self
  (* interval inside task *)
  else if Qlt_bool (release self) start && Qlt_bool end_ (dead self) then
    Ok (mkTask (oid self) (nr self) (release self)
          (dead self - distance) (c self) (offset self))
  (* task covers beginning of interval *)
  else if Qlt_bool start (dead self) && Qlt_bool (release self) start then
    Ok (mkTask (oid self) (nr self) (release self)
          start (c self) (offset self))
  (* task covers ending of interval *)
  else if Qlt_bool (release self) end_ && Qlt_bool end_ (dead self) then
    Ok (mkTask (oid self) (nr self) start
          (dead self - distance) (c self) (offset self + distance))
  (* should not happen *)
  else Raise UncaughtCut.

(** The membership test of [get_intervals]:
    [task.release >= start and task.dead <= end]. *)
Definition contained (start end_ : Q) (task : Task) : bool :=
  Qle_bool start (release task) && Qle_bool (dead task) end_.


(** ** class Interval *)
Record Interval : Type := mkInterval {
  i_start : Q;
  i_end : Q;
  i_tasks : list Task;
  intensity : Q
}.

Definition Interval_init (start end_ : Q) (tasks : list Task) : result Interval :=
  let tmp := fold_left (fun acc task => acc + c task) tasks 0 in
  if Qeq_bool (end_ - start) 0 then Raise ZeroDivisionError
  else Ok (mkInterval start end_ tasks (tmp / (end_ - start))).

(** ** class Execution *)
Record Execution : Type := mkExecution {
  e_nr : ident;
  e_start : Q;
  e_end : Q;
  frequency : Q
}.

(** ** get_intervals

    [set_iter l] is the sequence in which Python iterates over [set(l)]:
    the distinct values of [l] in an order fixed by the hash table, which
    the program does not control. *)
Variable set_iter : list Q -> list Q.

Definition get_intervals (tasks : list Task) : result (list Interval) :=
  let releases := set_iter (map release tasks) in
  let deads := set_iter (map dead tasks) in
  for_each releases (fun start intervals =>
    for_each deads (fun end_ intervals =>
      if Qlt_bool start end_ then
        do iv <- Interval_init start end_ (filter (contained start end_) tasks);
        Ok (intervals ++ [iv])
      else Ok intervals) intervals) [].

(** ** max_intensity_interval

    [max(intervals, key=...)] keeps the first interval of greatest key and
    raises [ValueError] on an empty list. *)
Definition max_intensity_interval (intervals : list Interval) : result Interval :=
  match intervals with
  | [] => Raise ValueError
  | iv :: rest =>
      Ok (fold_left (fun best x =>
                       if Qlt_bool (intensity best) (intensity x) then x else best)
                    rest iv)
  end.

(** [tasks.remove(task)]: drops the first occurrence of the object. *)
Fixpoint list_remove (task : Task) (tasks : list Task) : result (list Task) :=
  match tasks with
  | [] => Raise ValueError
  | t :: tasks' =>
      if Nat.eqb (oid t) (oid task) then Ok tasks'
      else do r <- list_remove task tasks'; Ok (t :: r)
  end.

(** ** calc_scheduling *)

(** Body of [for task in to_execute]; the state is
    [(offset, scheduling, tasks)]. *)
Definition execute_task (max_int : Interval) (int_length c_sum : Q) (task : Task)
    (st : Q * list Execution * list Task)
  : result (Q * list Execution * list Task) :=
  let '(offset_, scheduling, tasks) := st in
  if Qeq_bool c_sum 0 then Raise ZeroDivisionError
  else
    let task_length := (c task / c_sum) * int_length in
    let scheduling' :=
      scheduling ++ [mkExecution (nr task) (offset_ + offset task)
                       (offset_ + offset task + task_length)
                       (intensity max_int)] in
    let offset' := offset_ + task_length in
    do tasks' <- list_remove task tasks;
    Ok (offset', scheduling', tasks').

(** Body of [while len(tasks) > 0]. *)
Definition loop_body (tasks : list Task) (scheduling : list Execution)
  : result (list Task * list Execution) :=
  do intervals <- get_intervals tasks;
  do max_int <- max_intensity_interval intervals;
  let to_execute := sorted dead (i_tasks max_int) in
  let int_length := i_end max_int - i_start max_int in
  let offset_ := i_start max_int in
  let c_sum := fold_left Qplus (map c to_execute) 0 in
  do st <- for_each to_execute (execute_task max_int int_length c_sum)
             (offset_, scheduling, tasks);
  let '(_, scheduling', tasks') := st in
  do tasks'' <- map_result (fun task => cut task (i_start max_int) (i_end max_int))
                  tasks';
  Ok (tasks'', scheduling').

(** The loop with fuel: [None] when the fuel runs out before the task list
    is empty, [Some (Raise e)] when an iteration raises. *)
Fixpoint while_tasks (fuel : nat) (tasks : list Task) (scheduling : list Execution)
  : option (result (list Execution)) :=
  match tasks with
  | [] => Some (Ok (sorted e_start scheduling))
  | _ :: _ =>
      match fuel with
      | O => None
      | S fuel' =>
          match loop_body tasks scheduling with
          | Raise e => Some (Raise e)
          | Ok (tasks', scheduling') => while_tasks fuel' tasks' scheduling'
          end
      end
  end.

Definition calc_scheduling (fuel : nat) (tasks : list Task)
  : option (result (list Execution)) :=
  while_tasks fuel tasks [].

(** The caller's task list: one fresh [Task] object per description
    [(nr, release, dead, c)], as in [main]; the objects are numbered from
    [next], so they are pairwise distinct. *)
Fixpoint new_tasks (next : nat) (descr : list (ident * Q * Q * Q)) : list Task :=
  match descr with
  | [] => []
  | (n, r, d, w) :: descr' => Task_init next n r d w :: new_tasks (S next) descr'
  end.

(** ** The cutting table of the specification (section 4.4) *)

Inductive cut_case : Type :=
| EntirelyAfter | EntirelyBefore | IntervalInside | OverlapsStart | OverlapsEnd.

(** Follows the specification's words: the "Relation" column. *)
Definition table_relation (k : cut_case) (t : Task) (cstart cend : Q) : Prop :=
  match k with
  | EntirelyAfter => cend <= release t
  | EntirelyBefore => dead t <= cstart
  | IntervalInside => release t < cstart /\ cend < dead t
  | OverlapsStart => (cstart < dead t /\ release t < cstart) /\ dead t <= cend
  | OverlapsEnd => (release t < cend /\ cend < dead t) /\ cstart <= release t
  end.

(** Follows the specification's words: the "Action" column. *)
Definition table_action (k : cut_case) (t : Task) (cstart cend : Q) : Task :=
  let distance := cend - cstart in
  match k with
  | EntirelyAfter =>
      mkTask (oid t) (nr t) (release t - distance) (dead t - distance) (c t)
        (offset t + distance)
  | EntirelyBefore => t
  | IntervalInside =>
      mkTask (oid t) (nr t) (release t) (dead t - distance) (c t) (offset t)
  | OverlapsStart =>
      mkTask (oid t) (nr t) (release t) cstart (c t) (offset t)
  | OverlapsEnd =>
      mkTask (oid t) (nr t) cstart (dead t - distance) (c t)
        (offset t + distance)
  end.

(** "Exactly one of five cases applies", with the action of that case. *)
Definition cut_follows_table (t : Task) (cstart cend : Q) : Prop :=
  exists k : cut_case,
    table_relation k t cstart cend /\
    (forall k', table_relation k' t cstart cend -> k' = k) /\
    cut t cstart cend = Ok (table_action k t cstart cend).

(** A task as the specification's data model admits it at input time. *)
Definition valid_task (t : Task) : Prop := release t < dead t /\ 0 < c t.

End Model.

Arguments mkTask {ident}.
Arguments oid {ident}.
Arguments nr {ident}.
Arguments release {ident}.
Arguments dead {ident}.
Arguments c {ident}.
Arguments offset {ident}.
Arguments Task_init {ident}.
Arguments cut {ident}.
Arguments contained {ident}.
Arguments mkInterval {ident}.
Arguments i_start {ident}.
Arguments i_end {ident}.
Arguments i_tasks {ident}.
Arguments intensity {ident}.
Arguments Interval_init {ident}.
Arguments mkExecution {ident}.
Arguments e_nr {ident}.
Arguments e_start {ident}.
Arguments e_end {ident}.
Arguments frequency {ident}.
Arguments get_intervals {ident}.
Arguments max_intensity_interval {ident}.
Arguments list_remove {ident}.
Arguments execute_task {ident}.
Arguments loop_body {ident}.
Arguments while_tasks {ident}.
Arguments calc_scheduling {ident}.
Arguments new_tasks {ident}.
Arguments table_relation {ident}.
Arguments table_action {ident}.
Arguments cut_follows_table {ident}.
Arguments valid_task {ident}.

(** ** A concrete iteration order for sets

    Distinct values in order of first insertion. *)
Fixpoint set_first (l : list Q) : list Q :=
  match l with
  | [] => []
  | x :: l' => x :: filter (fun y => negb (Qeq_bool x y)) (set_first l')
  end.

(** What every iteration order of [set(l)] satisfies: its elements are
    elements of [l], every value of [l] occurs, and none occurs twice. *)
Definition set_semantics (set_iter : list Q -> list Q) : Prop :=
  forall l : list Q,
    (forall x, In x (set_iter l) -> In x l) /\
    (forall x, In x l -> InA Qeq x (set_iter l)) /\
    NoDupA Qeq (set_iter l).

(** ** Vocabulary of the proofs *)

(** Order of the keys, for the result of [sorted]. *)
Definition key_le {A : Type} (key : A -> Q) (a b : A) : Prop := key a <= key b.

(** What a successful cut keeps and how it moves the window. *)
Record cut_effect {ident : Type} (s e : Q) (t t' : Task ident) : Prop := {
  cut_oid : oid t' = oid t;
  cut_nr : nr t' = nr t;
  cut_c : c t' = c t;
  cut_window : release t' < dead t';
  cut_dead_bound : dead t' + offset t' <= dead t + offset t;
  cut_release_bound : release t + offset t <= release t' + offset t';
  cut_offset :
    (s <= release t /\ offset t' == offset t + (e - s)) \/
    (release t < s /\ offset t' == offset t);
  cut_release :
    (e <= release t /\ release t' == release t - (e - s)) \/
    (s <= release t < e /\ release t' == s) \/
    (release t < s /\ release t' == release t)
}.


(** Total workload of a list of tasks. *)
Definition total {ident : Type} (l : list (Task ident)) : Q :=
  fold_right (fun t acc => c t + acc) 0 l.

(** The interval object that [get_intervals] builds for [start < end_]. *)
Definition mk_interval {ident : Type} (tasks : list (Task ident)) (start end_ : Q)
  : Interval ident :=
  let inside := filter (contained start end_) tasks in
  mkInterval start end_ inside
    (fold_left (fun acc task => acc + c task) inside 0 / (end_ - start)).

(** The candidate intervals, in the order of the two nested loops. *)
Definition all_intervals {ident : Type} (releases deads : list Q)
    (tasks : list (Task ident)) : list (Interval ident) :=
  flat_map (fun start =>
    flat_map (fun end_ =>
      if Qlt_bool start end_ then [mk_interval tasks start end_] else [])
      deads) releases.

(** The executions appended by [for task in to_execute], from position
    [pos] of the running [offset]. *)
Fixpoint emitted {ident : Type} (freq int_length c_sum : Q) (pos : Q)
    (to_execute : list (Task ident)) : list (Execution ident) :=
  match to_execute with
  | [] => []
  | task :: rest =>
      let task_length := (c task / c_sum) * int_length in
      mkExecution (nr task) (pos + offset task)
        (pos + offset task + task_length) freq
      :: emitted freq int_length c_sum (pos + task_length) rest
  end.

(** The tasks left after removing the objects of [gone]. *)
Definition without {ident : Type} (gone tasks : list (Task ident))
  : list (Task ident) :=
  filter (fun t => negb (existsb (fun x => Nat.eqb (oid t) (oid x)) gone)) tasks.

(** [[start, end_)] is a candidate interval of greatest intensity. *)
Definition critical {ident : Type} (tasks : list (Task ident)) (start end_ : Q)
  : Prop :=
  In start (map release tasks) /\ In end_ (map dead tasks) /\ start < end_ /\
  forall start' end', 
    In start' (map release tasks) -> In end' (map dead tasks) -> start' < end' ->
    total (filter (contained start' end') tasks) / (end' - start')
    <= total (filter (contained start end_) tasks) / (end_ - start).

(** The loop invariant on the working list: distinct objects, each with a
    non-empty window and a positive workload. *)
Definition working_set {ident : Type} (tasks : list (Task ident)) : Prop :=
  NoDup (map oid tasks) /\ Forall valid_task tasks.

(** The executions of one round on the critical interval [[start, end_)]. *)
Definition round_executions {ident : Type} (tasks : list (Task ident))
    (start end_ : Q) : list (Execution ident) :=
  let to_execute := sorted dead (filter (contained start end_) tasks) in
  emitted (intensity (mk_interval tasks start end_)) (end_ - start)
    (fold_left Qplus (map c to_execute) 0) start to_execute.

(** The execution [ex] that the [for] loop appends for [t]: [pre] are the
    tasks of [to_execute] served before [t]. *)
Definition served {ident : Type} (pos0 int_length c_sum freq : Q)
    (to_execute : list (Task ident)) (t : Task ident) (ex : Execution ident)
  : Prop :=
  exists pre post,
    to_execute = pre ++ t :: post /\
    e_nr ex = nr t /\ frequency ex = freq /\
    e_start ex == pos0 + total pre / c_sum * int_length + offset t /\
    e_end ex == e_start ex + c t / c_sum * int_length.

(** What a round guarantees about the execution of a task of the critical
    interval starting at [start], in terms of the task's current window. *)
Definition well_served {ident : Type} (start : Q) (t : Task ident)
    (ex : Execution ident) : Prop :=
  e_nr ex = nr t /\
  (e_end ex - e_start ex) * frequency ex == c t /\
  e_start ex < e_end ex /\
  e_end ex <= dead t + offset t /\
  start + offset t <= e_start ex.

(** [t] is what the cuts so far have made of the caller's task [o]. *)
Definition tracks {ident : Type} (o t : Task ident) : Prop :=
  nr t = nr o /\ c t = c o /\
  dead t + offset t <= dead o + offset o /\
  release o + offset o <= release t + offset t.

(** The compressed timeline: no task maps back before time [m], and a task
    released later has had at least as much time removed before it. *)
Definition timeline {ident : Type} (m : Q) (tasks : list (Task ident)) : Prop :=
  Forall (fun t => m <= release t + offset t) tasks /\
  forall u t, In u tasks -> In t tasks ->
    release u < release t -> offset u <= offset t.

(** What the schedule guarantees to the caller's task [o]. *)
Definition scheduled {ident : Type} (m : Q) (o : Task ident)
    (ex : Execution ident) : Prop :=
  e_nr ex = nr o /\
  (e_end ex - e_start ex) * frequency ex == c o /\
  e_start ex < e_end ex /\
  e_end ex <= dead o + offset o /\
  m <= e_start ex.

(** Invariant of the [while] loop: [done] are the caller's tasks already
    scheduled, [waiting] those still in the working list. *)
Definition progress {ident : Type} (m : Q) (tasks0 tasks : list (Task ident))
    (scheduling : list (Execution ident)) : Prop :=
  working_set tasks /\ timeline m tasks /\
  exists done waiting,
    Permutation (done ++ waiting) tasks0 /\
    Forall2 tracks waiting tasks /\
    Forall2 (scheduled m) done scheduling.

(** ** Sample inputs *)

(** The task list of [main]. *)
Definition main_tasks : list (string * Q * Q * Q) :=
  [("t1"%string, 0, 17, 5); ("t2"%string, 1, 11, 3); ("t3"%string, 12, 20, 4);
   ("t4"%string, 7, 11, 2); ("t5"%string, 1, 20, 4); ("t6"%string, 14, 20, 12);
   ("t7"%string, 14, 17, 4); ("t8"%string, 1, 7, 2)].

(** Task B is released inside the window of task A and has the earlier
    deadline. *)
Definition two_tasks : list (string * Q * Q * Q) :=
  [("A"%string, 0, 10, 5); ("B"%string, 5, 8, 1)].

(** One task with a negative workload. *)
Definition negative_task : list (string * Q * Q * Q) :=
  [("A"%string, 0, 10, -5)].

(** A task inside the interval [[0, 10)] and a task overlapping the end of
    the interval [[5, 10)]. *)
Definition inside_task : Task string := Task_init 0 "A"%string 2 3 1.
Definition tail_task : Task string := Task_init 0 "C"%string 7 20 4.

(** A record whose deadline precedes its release, which [Task] accepts
    but the data model excludes. *)
Definition inverted_task : Task string := Task_init 0 "D"%string 10 0 1.

(** The first testable property of the specification, as it is worded:
    every execution lies within the original window of its task. *)
Definition within_original_windows {ident : Type} (set_iter : list Q -> list Q)
    (descr : list (ident * Q * Q * Q)) : Prop :=
  exists schedule done,
    calc_scheduling set_iter (length descr) (new_tasks 0 descr)
    = Some (Ok schedule) /\
    Permutation done (new_tasks 0 descr) /\
    Forall2 (fun task ex =>
               e_nr ex = nr task /\
               release task <= e_start ex /\ e_end ex <= dead task)
      done schedule.

(** A task that the specification's [InvalidTask] rule would reject. *)
Definition invalid_task {ident : Type} (t : Task ident) : Prop :=
  dead t <= release t \/ c t <= 0.

(** [ex] is the execution [(n, s, e, f)], up to equality of rationals. *)
Definition is_execution (ex : Execution string) (n : string) (s e f : Q) : Prop :=
  e_nr ex = n /\ e_start ex == s /\ e_end ex == e /\ frequency ex == f.

(** Two tasks sharing one window. *)
Definition shared_window : list (string * Q * Q * Q) :=
  [("A"%string, 0, 10, 5); ("B"%string, 0, 10, 5)].

(** ** Vocabulary of the further properties *)

(** Where a time [x] of the timeline lands once [[start, end_)] is removed:
    times after the interval move back by its length, times inside it fall
    on its start. *)
Definition compress (start end_ x : Q) : Q :=
  if Qle_bool end_ x then x - (end_ - start)
  else if Qle_bool start x then start
  else x.

(** Total duration of a list of executions. *)
Definition busy_time {ident : Type} (l : list (Execution ident)) : Q :=
  fold_right (fun ex acc => (e_end ex - e_start ex) + acc) 0 l.

(** Records that [Task] accepts although no release precedes a deadline. *)
Definition no_window_tasks : list (Task string) :=
  new_tasks 0 [("D"%string, 10, 0, 1); ("E"%string, 7, 7, 2)].

(** The tasks of [tasks] share the window [[r, d)]. *)
Definition same_window {ident : Type} (r d : Q) (tasks : list (Task ident)) : Prop :=
  Forall (fun t => release t == r /\ dead t == d) tasks.

(** Loop invariant for a property [G] of the pair of a caller's task and
    its execution, carried through the cuts by a relation [R] between the
    caller's task and its current state. *)
Definition paired {ident : Type} (R : Task ident -> Task ident -> Prop)
    (G : Task ident -> Execution ident -> Prop)
    (tasks0 tasks : list (Task ident)) (scheduling : list (Execution ident))
  : Prop :=
  working_set tasks /\
  exists done waiting,
    Permutation (done ++ waiting) tasks0 /\
    Forall2 R waiting tasks /\
    Forall2 G done scheduling.

(** The current window of [t] is no longer than the window of the caller's
    valid task [o]. *)
Definition window_within {ident : Type} (o t : Task ident) : Prop :=
  valid_task o /\ nr t = nr o /\ c t = c o /\
  dead t - release t <= dead o - release o.

(** The execution runs at least at the density of the task, for no longer
    than the length of its window. *)
Definition fast_enough {ident : Type} (o : Task ident) (ex : Execution ident)
  : Prop :=
  e_nr ex = nr o /\
  0 < frequency ex /\
  c o / (dead o - release o) <= frequency ex /\
  e_end ex - e_start ex <= dead o - release o.

(** The executions of [l] run back to back from time [a] to time [b]. *)
Fixpoint tiles {ident : Type} (a b : Q) (l : list (Execution ident)) : Prop :=
  match l with
  | [] => a == b
  | ex :: l' => e_start ex == a /\ tiles (e_end ex) b l'
  end.

(** [t], once cut by [[start, end_)], lies in [[a, b)]. *)
Definition lands_in (start end_ a b : Q) {ident : Type} (t : Task ident) : bool :=
  Qle_bool a (compress start end_ (release t))
  && Qle_bool (compress start end_ (dead t)) b.

(** [g] bounds the intensity of every candidate interval of [tasks]. *)
Definition intensity_bound {ident : Type} (g : Q) (tasks : list (Task ident))
  : Prop :=
  forall a b,
    In a (map release tasks) -> In b (map dead tasks) -> a < b ->
    total (filter (contained a b) tasks) / (b - a) <= g.

(** The task [tail_task] after the interval [[5, 10)] was cut out. *)
Definition tail_task_cut : Task string := mkTask 0 "C"%string 5 15 4 5.

(** The tasks outside [[start, end_)] that satisfy [p]. *)
Definition moved_tasks {ident : Type} (start end_ : Q) (p : Task ident -> bool)
    (tasks : list (Task ident)) : list (Task ident) :=
  filter (fun t => negb (contained start end_ t) && p t) tasks.

(** * The program on floating-point numbers

    When release, deadline and workload are Python floats, every [+], [-],
    [*] and [/] returns the real result rounded to the nearest double (ties
    to the even significand), and [float(x)] of a float is [x].  [rnd] is
    that rounding; the functions below are the functions above with [rnd]
    around every arithmetic result.  Comparisons, sorting, [max] and
    [list.remove] do no arithmetic and are shared with the exact model.

    When release and deadline are Python integers, [Task.cut] subtracts and
    compares them as integers, without rounding: on such inputs the windows
    evolve as in the exact model above. *)

(** [a / b] rounded to the nearest integer, ties to even, for [0 < b]. *)
Definition round_half_even (a b : Z) : Z :=
  let q := (a / b)%Z in
  match (2 * (a mod b) ?= b)%Z with
  | Lt => q
  | Gt => (q + 1)%Z
  | Eq => if Z.even q then q else (q + 1)%Z
  end.

(** The exponent [e] with [2 ^ e <= n / d < 2 ^ (e + 1)]. *)
Definition binade (n d : positive) : Z :=
  let e0 := (Z.log2 (Zpos n) - Z.log2 (Zpos d))%Z in
  let below :=
    if (0 <=? e0)%Z then (2 ^ e0 * Zpos d <=? Zpos n)%Z
    else (Zpos d <=? Zpos n * 2 ^ (- e0))%Z in
  if below then e0 else (e0 - 1)%Z.

(** [n / d] rounded to 53 significant bits. *)
Definition round53 (n d : positive) : Q :=
  let k := (binade n d - 52)%Z in
  if (0 <=? k)%Z then
    inject_Z (round_half_even (Zpos n) (Zpos d * 2 ^ k) * 2 ^ k)
  else
    Qred (round_half_even (Zpos n * 2 ^ (- k)) (Zpos d) # Z.to_pos (2 ^ (- k))).

(** Rounding to the nearest double, in the range of normal doubles (no
    overflow, no subnormal numbers). *)
Definition rnd53 (x : Q) : Q :=
  match Qnum x with
  | Z0 => 0
  | Zpos n => round53 n (Qden x)
  | Zneg n => - round53 n (Qden x)
  end.

Section Floats.

Variable ident : Type.
Variable rnd : Q -> Q.
Variable set_iter : list Q -> list Q.

Definition fl_add (x y : Q) : Q := rnd (x + y).
Definition fl_sub (x y : Q) : Q := rnd (x - y).
Definition fl_mul (x y : Q) : Q := rnd (x * y).
Definition fl_div (x y : Q) : Q := rnd (x / y).

(** Task.cut on floats. *)
Definition cut_fl (self : Task ident) (start end_ : Q) : result (Task ident) :=
  let distance := fl_sub end_ start in
  (* task after interval *)
  if Qle_bool end_ (release self) then
    Ok (mkTask (oid self) (nr self) (fl_sub (release self) distance)
          (fl_sub (dead self) distance) (c self) (fl_add (offset self) distance))
  (* task before interval *)
  else if Qle_bool (dead self) start then
    Ok self
  (* interval inside task *)
  else if Qlt_bool (release self) start && Qlt_bool end_ (dead self) then
    Ok (mkTask (oid self) (nr self) (release self)
          (fl_sub (dead self) distance) (c self) (offset self))
  (* task covers beginning of interval *)
  else if Qlt_bool start (dead self) && Qlt_bool (release self) start then
    Ok (mkTask (oid self) (nr self) (release self)
          start (c self) (offset self))
  (* task covers ending of interval *)
  else if Qlt_bool (release self) end_ && Qlt_bool end_ (dead self) then
    Ok (mkTask (oid self) (nr self) start
          (fl_sub (dead self) distance) (c self) (fl_add (offset self) distance))
  (* should not happen *)
  else Raise UncaughtCut.

(** Interval.__init__ on floats. *)
Definition Interval_init_fl (start end_ : Q) (tasks : list (Task ident))
  : result (Interval ident) :=
  let tmp := fold_left (fun acc task => fl_add acc (c task)) tasks 0 in
  if Qeq_bool (fl_sub end_ start) 0 then Raise ZeroDivisionError
  else Ok (mkInterval start end_ tasks (fl_div tmp (fl_sub end_ start))).

(** get_intervals on floats. *)
Definition get_intervals_fl (tasks : list (Task ident))
  : result (list (Interval ident)) :=
  let releases := set_iter (map release tasks) in
  let deads := set_iter (map dead tasks) in
  for_each releases (fun start intervals =>
    for_each deads (fun end_ intervals =>
      if Qlt_bool start end_ then
        do iv <- Interval_init_fl start end_ (filter (contained start end_) tasks);
        Ok (intervals ++ [iv])
      else Ok intervals) intervals) [].

(** Body of [for task in to_execute] on floats. *)
Definition execute_task_fl (max_int : Interval ident) (int_length c_sum : Q)
    (task : Task ident) (st : Q * list (Execution ident) * list (Task ident))
  : result (Q * list (Execution ident) * list (Task ident)) :=
  let '(offset_, scheduling, tasks) := st in
  if Qeq_bool c_sum 0 then Raise ZeroDivisionError
  else
    let task_length := fl_mul (fl_div (c task) c_sum) int_length in
    let scheduling' :=
      scheduling ++ [mkExecution (nr task) (fl_add offset_ (offset task))
                       (fl_add (fl_add offset_ (offset task)) task_length)
                       (intensity max_int)] in
    let offset' := fl_add offset_ task_length in
    do tasks' <- list_remove task tasks;
    Ok (offset', scheduling', tasks').

(** Body of [while len(tasks) > 0] on floats. *)
Definition loop_body_fl (tasks : list (Task ident))
    (scheduling : list (Execution ident))
  : result (list (Task ident) * list (Execution ident)) :=
  do intervals <- get_intervals_fl tasks;
  do max_int <- max_intensity_interval intervals;
  let to_execute := sorted dead (i_tasks max_int) in
  let int_length := fl_sub (i_end max_int) (i_start max_int) in
  let offset_ := i_start max_int in
  let c_sum := fold_left fl_add (map c to_execute) 0 in
  do st <- for_each to_execute (execute_task_fl max_int int_length c_sum)
             (offset_, scheduling, tasks);
  let '(_, scheduling', tasks') := st in
  do tasks'' <- map_result (fun task => cut_fl task (i_start max_int) (i_end max_int))
                  tasks';
  Ok (tasks'', scheduling').

Fixpoint while_tasks_fl (fuel : nat) (tasks : list (Task ident))
    (scheduling : list (Execution ident))
  : option (result (list (Execution ident))) :=
  match tasks with
  | [] => Some (Ok (sorted e_start scheduling))
  | _ :: _ =>
      match fuel with
      | O => None
      | S fuel' =>
          match loop_body_fl tasks scheduling with
          | Raise e => Some (Raise e)
          | Ok (tasks', scheduling') => while_tasks_fl fuel' tasks' scheduling'
          end
      end
  end.

(** calc_scheduling on floats. *)
Definition calc_scheduling_fl (fuel : nat) (tasks : list (Task ident))
  : option (result (list (Execution ident))) :=
  while_tasks_fl fuel tasks [].

End Floats.

Arguments cut_fl {ident}.
Arguments Interval_init_fl {ident}.
Arguments get_intervals_fl {ident}.
Arguments execute_task_fl {ident}.
Arguments loop_body_fl {ident}.
Arguments while_tasks_fl {ident}.
Arguments calc_scheduling_fl {ident}.

(** ** Vocabulary of the float model *)

(** The smallest positive normal double, [2 ^ -1022]: from there on no
    result underflows. *)
Definition min_normal : Q := 1 # (2 ^ 1022).

(** What the proofs use of rounding to the nearest double: a whole number
    below [2 ^ 53] in magnitude is a double and rounds to itself, and a
    number from [min_normal] on keeps at least half of its value (it keeps
    all but a fraction [2 ^ -53] of it). *)
Definition rounds_like_double (rnd : Q -> Q) : Prop :=
  (forall (x : Q) (z : Z),
      x == inject_Z z -> (Z.abs z < 2 ^ 53)%Z -> rnd x == x) /\
  (forall x : Q, min_normal <= x -> x <= 2 * rnd x).

(** A whole number below [2 ^ 52] in magnitude. *)
Definition small_integer (q : Q) : Prop :=
  exists z : Z, q == inject_Z z /\ (Z.abs z < 2 ^ 52)%Z.

(** Release and deadline are whole numbers below [2 ^ 52] in magnitude.
    Differences of such numbers are whole numbers below [2 ^ 53]: Python
    computes them without rounding, whether they are given as integers or
    as floats. *)
Definition exact_window {ident : Type} (t : Task ident) : Prop :=
  small_integer (release t) /\ small_integer (dead t).

(** The workload lies between [2 ^ -500] and [2 ^ 500]: no sum of
    workloads overflows and no intensity underflows. *)
Definition workload_floor : Q := 1 # (2 ^ 500).
Definition workload_ceiling : Q := inject_Z (2 ^ 500).
Definition moderate_workload {ident : Type} (t : Task ident) : Prop :=
  workload_floor <= c t /\ c t <= workload_ceiling.

(** A task on which double arithmetic decides as exact arithmetic does:
    no window is rounded and no quantity leaves the range of doubles. *)
Definition plain_task {ident : Type} (t : Task ident) : Prop :=
  exact_window t /\ moderate_workload t.

(** The interval object that [get_intervals_fl] builds. *)
Definition mk_interval_fl {ident : Type} (rnd : Q -> Q)
    (tasks : list (Task ident)) (start end_ : Q) : Interval ident :=
  let inside := filter (contained start end_) tasks in
  mkInterval start end_ inside
    (fl_div rnd (fold_left (fun acc task => fl_add rnd acc (c task)) inside 0)
       (fl_sub rnd end_ start)).

(** The candidate intervals of [get_intervals_fl], in the order of the two
    nested loops. *)
Definition all_intervals_fl {ident : Type} (rnd : Q -> Q)
    (releases deads : list Q) (tasks : list (Task ident))
  : list (Interval ident) :=
  flat_map (fun start =>
    flat_map (fun end_ =>
      if Qlt_bool start end_ then [mk_interval_fl rnd tasks start end_] else [])
      deads) releases.

(** No candidate interval has a length that rounds to zero. *)
Definition lengths_nonzero (rnd : Q -> Q) (releases deads : list Q) : bool :=
  forallb (fun start =>
    forallb (fun end_ =>
      negb (Qlt_bool start end_) || negb (Qeq_bool (fl_sub rnd end_ start) 0))
      deads) releases.

(** The loop invariant of the float run on plain tasks. *)
Definition exact_working_set {ident : Type} (tasks : list (Task ident)) : Prop :=
  working_set tasks /\ Forall plain_task tasks.

(** ** Sample float inputs *)

(** The float task [(B, 1e16, 1e16 + 2, 1.0)]: at this magnitude
    neighbouring doubles are 2 apart. *)
Definition wide_task : Task string :=
  Task_init 0 "B"%string 10000000000000000 10000000000000002 1.

(** [[B(1e16, 1e16 + 2, 1.0); A(0.0, 1.0, 7.0)]]. *)
Definition wide_tasks : list (string * Q * Q * Q) :=
  [("B"%string, 10000000000000000, 10000000000000002, 1); ("A"%string, 0, 1, 7)].
(** * Proofs *)

(** ** Comparisons *)

Lemma Qlt_bool_iff x y : Qlt_bool x y = true <-> x < y.
Proof.
  unfold Qlt_bool. rewrite negb_true_iff.
  split; intro H.
  - apply Qnot_le_lt. intro Hle. apply Qle_bool_iff in Hle. congruence.
  - destruct (Qle_bool y x) eqn:E; [|reflexivity].
    apply Qle_bool_iff in E. lra.
Qed.

Lemma Qlt_bool_false x y : Qlt_bool x y = false <-> y <= x.
Proof.
  unfold Qlt_bool. rewrite negb_false_iff. apply Qle_bool_iff.
Qed.

Lemma Qle_bool_false x y : Qle_bool x y = false <-> y < x.
Proof.
  rewrite <- Qlt_bool_iff. unfold Qlt_bool.
  destruct (Qle_bool x y); simpl; intuition congruence.
Qed.

Lemma Qeq_bool_false x y : Qeq_bool x y = false <-> ~ x == y.
Proof.
  split; [apply Qeq_bool_neq|].
  intro H. destruct (Qeq_bool x y) eqn:E; [|reflexivity].
  apply Qeq_bool_iff in E. contradiction.
Qed.

(** Turn the boolean tests of the program into order facts on [Q]. *)
Ltac qbool :=
  repeat match goal with
  | H : Qle_bool _ _ = true |- _ => apply Qle_bool_iff in H
  | H : Qle_bool _ _ = false |- _ => apply Qle_bool_false in H
  | H : Qlt_bool _ _ = true |- _ => apply Qlt_bool_iff in H
  | H : Qlt_bool _ _ = false |- _ => apply Qlt_bool_false in H
  | H : Qeq_bool _ _ = true |- _ => apply Qeq_bool_iff in H
  | H : Qeq_bool _ _ = false |- _ => apply Qeq_bool_false in H
  | H : andb _ _ = true |- _ => apply andb_true_iff in H; destruct H
  | H : andb _ _ = false |- _ => apply andb_false_iff in H; destruct H
  | H : negb _ = true |- _ => apply negb_true_iff in H
  | H : negb _ = false |- _ => apply negb_false_iff in H
  end.

Lemma Qle_bool_proper x x' y y' :
  x == x' -> y == y' -> Qle_bool x y = Qle_bool x' y'.
Proof. intros Hx Hy. now rewrite Hx, Hy. Qed.

(** ** The error monad *)

Lemma map_result_Forall2 {A B : Type} (f : A -> result B) (l : list A) :
  Forall (fun x => exists y, f x = Ok y) l ->
  exists l', map_result f l = Ok l' /\ Forall2 (fun x y => f x = Ok y) l l'.
Proof.
  induction 1 as [|x l [y Hy] _ [l' [Hl' HF]]]; simpl.
  - exists []. split; [reflexivity | constructor].
  - exists (y :: l'). rewrite Hy, Hl'. simpl. split; [reflexivity|].
    constructor; assumption.
Qed.

(** ** Stable sort *)

Section Sorting.
Context {A : Type} (key : A -> Q).

Lemma insert_by_perm (x : A) (l : list A) :
  Permutation (insert_by key x l) (x :: l).
Proof.
  induction l as [|y l IH]; simpl; [reflexivity|].
  destruct (Qlt_bool (key y) (key x)); [|reflexivity].
  rewrite IH. apply perm_swap.
Qed.

Lemma sorted_perm (l : list A) : Permutation (sorted key l) l.
Proof.
  induction l as [|x l IH]; simpl; [reflexivity|].
  rewrite insert_by_perm. now constructor.
Qed.

Lemma insert_by_sorted (x : A) (l : list A) :
  StronglySorted (key_le key) l -> StronglySorted (key_le key) (insert_by key x l).
Proof.
  induction 1 as [|y l Hs IH Hy]; simpl.
  - repeat constructor.
  - destruct (Qlt_bool (key y) (key x)) eqn:E; qbool.
    + constructor; [exact IH|].
      rewrite Forall_forall in *. intros z Hz.
      apply (Permutation_in _ (insert_by_perm x l)) in Hz.
      destruct Hz as [<-|Hz]; [unfold key_le; lra | now apply Hy].
    + constructor; [now constructor|].
      constructor; [exact E|].
      rewrite Forall_forall in *. intros z Hz.
      specialize (Hy z Hz). unfold key_le in *. lra.
Qed.

Lemma sorted_StronglySorted (l : list A) : StronglySorted (key_le key) (sorted key l).
Proof.
  induction l as [|x l IH]; simpl; [constructor | now apply insert_by_sorted].
Qed.

Lemma sorted_nil_inv (l : list A) : sorted key l = [] -> l = [].
Proof.
  intro H. pose proof (sorted_perm l) as P. rewrite H in P.
  now apply Permutation_nil in P.
Qed.

End Sorting.

(** ** Task.cut *)

Section CutFacts.
Context {ident : Type}.
Implicit Types (t self : Task ident) (s e : Q).

Ltac cut_cases :=
  unfold cut;
  repeat match goal with
  | |- context [if ?b then _ else _] => destruct b eqn:?
  | H : context [if ?b then _ else _] |- _ => destruct b eqn:?
  end; qbool.

Lemma cut_Ok_effect t s e t' :
  s < e -> release t < dead t -> cut t s e = Ok t' -> cut_effect s e t t'.
Proof.
  intros Hse Hrd Hcut. revert Hcut.
  cut_cases; intro Hcut; inversion Hcut; subst; clear Hcut;
    (split; simpl; try reflexivity; try lra;
     try (intuition lra)).
Qed.

Lemma cut_Raise_inv t s e err :
  cut t s e = Raise err ->
  err = UncaughtCut /\ s <= release t < e /\ s < dead t <= e.
Proof.
  cut_cases; intro Hcut; try discriminate;
    inversion Hcut; subst; intuition lra.
Qed.

Lemma cut_total t s e :
  contained s e t = false -> release t <= dead t -> exists t', cut t s e = Ok t'.
Proof.
  intros Hc Hrd. destruct (cut t s e) as [t'|err] eqn:E; [eauto|].
  apply cut_Raise_inv in E. unfold contained in Hc. qbool; lra.
Qed.

Lemma cut_follows_table_outside t s e :
  s < e -> release t <= dead t -> contained s e t = false ->
  cut_follows_table t s e.
Proof.
  intros Hse Hrd Hc.
  assert (Hout : release t < s \/ e < dead t) by (unfold contained in Hc; qbool; auto).
  clear Hc. unfold cut_follows_table.
  destruct (Qlt_le_dec (release t) e) as [H1|H1].
  2:{ exists EntirelyAfter. split; [exact H1|]. split.
      - intros [] Hk; simpl in Hk; try reflexivity; exfalso; lra.
      - cut_cases; try reflexivity; exfalso; lra. }
  destruct (Qlt_le_dec s (dead t)) as [H2|H2].
  2:{ exists EntirelyBefore. split; [exact H2|]. split.
      - intros [] Hk; simpl in Hk; try reflexivity; exfalso; lra.
      - cut_cases; try reflexivity; exfalso; lra. }
  destruct (Qlt_le_dec (release t) s) as [H3|H3];
    destruct (Qlt_le_dec e (dead t)) as [H4|H4].
  - exists IntervalInside. split; [simpl; lra|]. split.
    + intros [] Hk; simpl in Hk; try reflexivity; exfalso; lra.
    + cut_cases; try reflexivity; exfalso; intuition lra.
  - exists OverlapsStart. split; [simpl; lra|]. split.
    + intros [] Hk; simpl in Hk; try reflexivity; exfalso; lra.
    + cut_cases; try reflexivity; exfalso; intuition lra.
  - exists OverlapsEnd. split; [simpl; lra|]. split.
    + intros [] Hk; simpl in Hk; try reflexivity; exfalso; lra.
    + cut_cases; try reflexivity; exfalso; intuition lra.
  - exfalso. lra.
Qed.

End CutFacts.

(** ** Workloads *)

Section Workload.
Context {ident : Type}.
Implicit Types (l : list (Task ident)).

Lemma total_app l l' : total (l ++ l') == total l + total l'.
Proof.
  induction l as [|t l IH]; simpl; [lra|]. rewrite IH. lra.
Qed.

Lemma total_perm l l' : Permutation l l' -> total l == total l'.
Proof.
  induction 1; simpl; lra.
Qed.

Lemma tmp_total l a : fold_left (fun acc task => acc + c task) l a == a + total l.
Proof.
  revert a. induction l as [|t l IH]; intro a; simpl; [lra|].
  rewrite IH. lra.
Qed.

Lemma sum_total l a : fold_left Qplus (map c l) a == a + total l.
Proof.
  revert a. induction l as [|t l IH]; intro a; simpl; [lra|].
  rewrite IH. lra.
Qed.

Lemma total_nonneg l : Forall (fun t => 0 < c t) l -> 0 <= total l.
Proof.
  induction 1; simpl; lra.
Qed.

Lemma total_pos l : Forall (fun t => 0 < c t) l -> l <> [] -> 0 < total l.
Proof.
  intros H Hne. destruct H as [|t l Ht Hl]; [congruence|].
  simpl. apply total_nonneg in Hl. lra.
Qed.

End Workload.

(** ** Lists *)

Lemma filter_filter {A : Type} (p q : A -> bool) (l : list A) :
  filter p (filter q l) = filter (fun x => q x && p x) l.
Proof.
  induction l as [|x l IH]; simpl; [reflexivity|].
  destruct (q x); simpl; [destruct (p x)|]; now rewrite IH.
Qed.

Lemma filter_all {A : Type} (p : A -> bool) (l : list A) :
  (forall x, In x l -> p x = true) -> filter p l = l.
Proof.
  induction l as [|x l IH]; intro H; simpl; [reflexivity|].
  rewrite (H x (or_introl eq_refl)). f_equal. apply IH. intros; apply H; now right.
Qed.

(** Object identities in a list of distinct tasks. *)
Section Identity.
Context {ident : Type}.
Implicit Types (tasks : list (Task ident)).

Lemma distinct_filter tasks (keep : Task ident -> bool) :
  NoDup (map oid tasks) -> NoDup (map oid (filter keep tasks)).
Proof.
  induction tasks as [|t tasks IH]; simpl; intro Hnd; [constructor|].
  apply NoDup_cons_iff in Hnd. destruct Hnd as [Hfresh Hnd].
  destruct (keep t); simpl; [|now apply IH].
  apply NoDup_cons; [|now apply IH].
  rewrite in_map_iff. intros [u [Hu Hin]]. apply filter_In in Hin.
  apply Hfresh. rewrite <- Hu. apply in_map. tauto.
Qed.

Lemma distinct_same_oid tasks (t u : Task ident) :
  NoDup (map oid tasks) -> In t tasks -> In u tasks -> oid t = oid u -> t = u.
Proof.
  induction tasks as [|v tasks IH]; simpl; intros Hnd Ht Hu Hoid; [contradiction|].
  apply NoDup_cons_iff in Hnd. destruct Hnd as [Hfresh Hnd].
  destruct Ht as [->|Ht], Hu as [->|Hu]; auto.
  - exfalso. apply Hfresh. rewrite Hoid. now apply in_map.
  - exfalso. apply Hfresh. rewrite <- Hoid. now apply in_map.
Qed.

End Identity.

(** ** get_intervals *)

Section Intervals.
Context {ident : Type}.
Variable set_iter : list Q -> list Q.
Implicit Types (tasks : list (Task ident)).

Lemma Interval_init_Ok tasks start end_ :
  start < end_ ->
  Interval_init start end_ (filter (contained start end_) tasks)
  = Ok (mk_interval tasks start end_).
Proof.
  intro H. unfold Interval_init, mk_interval.
  destruct (Qeq_bool (end_ - start) 0) eqn:E; [|reflexivity].
  qbool. lra.
Qed.

Lemma inner_loop_Ok tasks start (deads : list Q) (intervals : list (Interval ident)) :
  for_each deads (fun end_ intervals =>
      if Qlt_bool start end_ then
        do iv <- Interval_init start end_ (filter (contained start end_) tasks);
        Ok (intervals ++ [iv])
      else Ok intervals) intervals
  = Ok (intervals ++
        flat_map (fun end_ =>
          if Qlt_bool start end_ then [mk_interval tasks start end_] else [])
          deads).
Proof.
  revert intervals. induction deads as [|end_ deads IH]; intro intervals; simpl.
  - now rewrite app_nil_r.
  - destruct (Qlt_bool start end_) eqn:E.
    + qbool. rewrite Interval_init_Ok by assumption. simpl.
      rewrite IH, <- app_assoc. reflexivity.
    + simpl. apply IH.
Qed.

Lemma outer_loop_Ok tasks (releases deads : list Q)
    (intervals : list (Interval ident)) :
  for_each releases (fun start intervals =>
    for_each deads (fun end_ intervals =>
      if Qlt_bool start end_ then
        do iv <- Interval_init start end_ (filter (contained start end_) tasks);
        Ok (intervals ++ [iv])
      else Ok intervals) intervals) intervals
  = Ok (intervals ++ all_intervals releases deads tasks).
Proof.
  unfold all_intervals. revert intervals.
  induction releases as [|start releases IH]; intro intervals.
  - simpl. now rewrite app_nil_r.
  - cbn [for_each flat_map]. rewrite inner_loop_Ok. cbn [bind].
    rewrite IH, <- app_assoc. reflexivity.
Qed.

Lemma get_intervals_Ok tasks :
  get_intervals set_iter tasks
  = Ok (all_intervals (set_iter (map release tasks)) (set_iter (map dead tasks))
          tasks).
Proof.
  unfold get_intervals. cbv zeta. now rewrite outer_loop_Ok.
Qed.

Lemma in_all_intervals tasks releases deads iv :
  In iv (all_intervals releases deads tasks) <->
  exists start end_,
    In start releases /\ In end_ deads /\ start < end_ /\
    iv = mk_interval tasks start end_.
Proof.
  unfold all_intervals. rewrite in_flat_map. split.
  - intros [start [Hs Hin]]. apply in_flat_map in Hin.
    destruct Hin as [end_ [He Hin]].
    destruct (Qlt_bool start end_) eqn:E; [|contradiction].
    destruct Hin as [<-|[]]. qbool. eauto 6.
  - intros [start [end_ [Hs [He [Hlt ->]]]]].
    exists start. split; [assumption|]. apply in_flat_map.
    exists end_. split; [assumption|].
    apply Qlt_bool_iff in Hlt. rewrite Hlt. now left.
Qed.

(** ** max_intensity_interval *)

Lemma max_fold_spec (rest : list (Interval ident)) (iv : Interval ident) :
  let best := fold_left (fun best x =>
                if Qlt_bool (intensity best) (intensity x) then x else best)
                rest iv in
  In best (iv :: rest) /\
  forall x, In x (iv :: rest) -> intensity x <= intensity best.
Proof.
  revert iv. induction rest as [|y rest IH]; intro iv; simpl.
  - split; [now left|]. intros x [<-|[]]. lra.
  - destruct (Qlt_bool (intensity iv) (intensity y)) eqn:E; qbool.
    + destruct (IH y) as [Hin Hmax]. split.
      * right. exact Hin.
      * intros x [<-|Hx]; [|now apply Hmax].
        specialize (Hmax y (or_introl eq_refl)). lra.
    + destruct (IH iv) as [Hin Hmax]. split.
      * destruct Hin as [<-|Hin]; [now left | right; now right].
      * intros x [<-|[<-|Hx]].
        -- apply Hmax. now left.
        -- specialize (Hmax iv (or_introl eq_refl)). lra.
        -- apply Hmax. now right.
Qed.

Lemma max_intensity_interval_Ok (intervals : list (Interval ident)) :
  intervals <> [] ->
  exists best, max_intensity_interval intervals = Ok best /\
    In best intervals /\
    forall x, In x intervals -> intensity x <= intensity best.
Proof.
  destruct intervals as [|iv rest]; [congruence|]. intros _.
  eexists. split; [reflexivity|]. apply max_fold_spec.
Qed.

End Intervals.

(** ** The [for] loop of [calc_scheduling] *)

Section ForLoop.
Context {ident : Type}.
Implicit Types (t x : Task ident) (tasks l : list (Task ident)).

Lemma list_remove_Ok x tasks :
  NoDup (map oid tasks) -> In x tasks ->
  list_remove x tasks = Ok (without [x] tasks).
Proof.
  unfold without. induction tasks as [|t tasks IH]; simpl; intros Hnd Hin.
  - contradiction.
  - inversion Hnd as [|? ? Ht Hnd']; subst.
    destruct (Nat.eqb (oid t) (oid x)) eqn:E; simpl.
    + apply Nat.eqb_eq in E. f_equal. symmetry. apply filter_all.
      intros y Hy. rewrite orb_false_r, negb_true_iff, Nat.eqb_neq.
      intro Heq. apply Ht. rewrite E, <- Heq. now apply in_map.
    + destruct Hin as [->|Hin]; [rewrite Nat.eqb_refl in E; discriminate|].
      rewrite (IH Hnd' Hin). reflexivity.
Qed.

Lemma without_cons x l tasks : without l (without [x] tasks) = without (x :: l) tasks.
Proof.
  unfold without. rewrite filter_filter. apply filter_ext. intro t. simpl.
  rewrite orb_false_r. now rewrite negb_orb.
Qed.

Lemma execute_loop_Ok (max_int : Interval ident) (int_length c_sum : Q) l :
  ~ c_sum == 0 ->
  forall tasks pos scheduling,
    NoDup (map oid tasks) -> NoDup (map oid l) -> incl l tasks ->
    exists pos',
      for_each l (execute_task max_int int_length c_sum) (pos, scheduling, tasks)
      = Ok (pos',
            scheduling ++ emitted (intensity max_int) int_length c_sum pos l,
            without l tasks).
Proof.
  intro Hc. apply Qeq_bool_false in Hc.
  induction l as [|x l IH]; intros tasks pos scheduling Hnd Hl Hincl.
  - exists pos. simpl. rewrite app_nil_r. unfold without. simpl.
    now rewrite filter_all.
  - cbn [for_each execute_task emitted]. rewrite Hc.
    rewrite list_remove_Ok by (auto; apply Hincl; now left).
    cbn [bind]. inversion Hl as [|? ? Hx Hl']; subst.
    destruct (IH (without [x] tasks) (pos + c x / c_sum * int_length)
                (scheduling ++
                 [mkExecution (nr x) (pos + offset x)
                    (pos + offset x + c x / c_sum * int_length)
                    (intensity max_int)])) as [pos' Hfor].
    + now apply distinct_filter.
    + assumption.
    + intros y Hy. apply filter_In. split; [apply Hincl; now right|].
      simpl. rewrite orb_false_r, negb_true_iff, Nat.eqb_neq.
      intro Heq. apply Hx. rewrite <- Heq. now apply in_map.
    + exists pos'. rewrite Hfor, without_cons, <- app_assoc. reflexivity.
Qed.

Lemma without_contained tasks start end_ l :
  NoDup (map oid tasks) ->
  Permutation l (filter (contained start end_) tasks) ->
  without l tasks = filter (fun t => negb (contained start end_ t)) tasks.
Proof.
  intros Hnd Hperm. unfold without. apply filter_ext_in. intros t Ht. f_equal.
  destruct (contained start end_ t) eqn:E.
  - apply existsb_exists. exists t. split; [|apply Nat.eqb_refl].
    apply (Permutation_in _ (Permutation_sym Hperm)). apply filter_In. auto.
  - destruct (existsb _ l) eqn:Ex; [|reflexivity].
    apply existsb_exists in Ex. destruct Ex as [x [Hx Heq]].
    apply Nat.eqb_eq in Heq. apply (Permutation_in _ Hperm) in Hx.
    apply filter_In in Hx. destruct Hx as [Hx Hcx].
    assert (t = x) by (eapply distinct_same_oid; eauto). subst. congruence.
Qed.

End ForLoop.

(** ** One iteration of the [while] loop *)

Section LoopBody.
Context {ident : Type}.
Variable set_iter : list Q -> list Q.
Hypothesis set_ok : set_semantics set_iter.
Implicit Types (t : Task ident) (tasks : list (Task ident)).

Lemma set_iter_in (l : list Q) (x : Q) : In x (set_iter l) -> In x l.
Proof. apply set_ok. Qed.

Lemma set_iter_complete (l : list Q) (x : Q) :
  In x l -> exists y, y == x /\ In y (set_iter l).
Proof.
  intro H. apply set_ok in H. apply InA_alt in H.
  destruct H as [y [Hy Hin]]. exists y. split; [now symmetry | assumption].
Qed.

Lemma contained_proper (s s' e e' : Q) tasks :
  s == s' -> e == e' -> filter (contained s e) tasks = filter (contained s' e') tasks.
Proof.
  intros Hs He. apply filter_ext. intro t. unfold contained.
  rewrite (Qle_bool_proper s s' (release t) (release t)) by (auto; reflexivity).
  rewrite (Qle_bool_proper (dead t) (dead t) e e') by (auto; reflexivity).
  reflexivity.
Qed.

Lemma intensity_mk_interval tasks s e :
  intensity (mk_interval tasks s e)
  == total (filter (contained s e) tasks) / (e - s).
Proof.
  unfold mk_interval. simpl. rewrite tmp_total. now rewrite Qplus_0_l.
Qed.

Lemma Qdiv_pos (a b : Q) : 0 < a -> 0 < b -> 0 < a / b.
Proof.
  intros Ha Hb. apply Qlt_shift_div_l; lra.
Qed.

(** The candidate list is not empty, and its maximum is a critical
    interval that contains a task. *)
Lemma critical_interval_exists tasks :
  tasks <> [] -> Forall valid_task tasks ->
  exists s e,
    max_intensity_interval
      (all_intervals (set_iter (map release tasks)) (set_iter (map dead tasks))
         tasks) = Ok (mk_interval tasks s e) /\
    critical tasks s e /\
    filter (contained s e) tasks <> [].
Proof.
  intros Hne Hvalid.
  assert (Hcand : forall s' e', In s' (map release tasks) ->
            In e' (map dead tasks) -> s' < e' ->
            exists iv, In iv (all_intervals (set_iter (map release tasks))
                                (set_iter (map dead tasks)) tasks) /\
              intensity iv == total (filter (contained s' e') tasks) / (e' - s')).
  { intros s' e' Hs He Hlt.
    destruct (set_iter_complete _ _ Hs) as [s'' [Hs1 Hs2]].
    destruct (set_iter_complete _ _ He) as [e'' [He1 He2]].
    exists (mk_interval tasks s'' e''). split.
    - apply in_all_intervals. exists s'', e''. repeat split; auto. lra.
    - rewrite intensity_mk_interval.
      rewrite (contained_proper s'' s' e'' e') by assumption.
      now rewrite Hs1, He1. }
  destruct tasks as [|t0 tasks0] eqn:Etasks; [congruence|]. rewrite <- Etasks in *.
  assert (Ht0 : In t0 tasks) by (rewrite Etasks; now left).
  assert (Hv0 : valid_task t0) by (rewrite Forall_forall in Hvalid; auto).
  destruct Hv0 as [Hw0 Hc0].
  destruct (Hcand (release t0) (dead t0)) as [iv0 [Hiv0 Hint0]];
    [now apply in_map | now apply in_map | assumption |].
  destruct (max_intensity_interval_Ok
              (all_intervals (set_iter (map release tasks))
                 (set_iter (map dead tasks)) tasks)) as [best [Hmax [Hin Hbest]]].
  { intro Hnil. rewrite Hnil in Hiv0. contradiction. }
  apply in_all_intervals in Hin. destruct Hin as [s [e [Hs [He [Hlt ->]]]]].
  exists s, e. split; [exact Hmax|].
  assert (Hcrit : critical tasks s e).
  { unfold critical. repeat split; try (now apply set_iter_in); try assumption.
    intros s' e' Hs' He' Hlt'.
    destruct (Hcand s' e' Hs' He' Hlt') as [iv [Hiv Hint]].
    rewrite <- Hint, <- intensity_mk_interval. now apply Hbest. }
  split; [exact Hcrit|].
  intro Hnil.
  destruct Hcrit as [_ [_ [_ Hge]]].
  specialize (Hge (release t0) (dead t0) (in_map _ _ _ Ht0) (in_map _ _ _ Ht0) Hw0).
  rewrite Hnil in Hge. simpl in Hge.
  assert (Hpos : 0 < total (filter (contained (release t0) (dead t0)) tasks)).
  { apply total_pos.
    - apply Forall_forall. intros t Ht. apply filter_In in Ht.
      rewrite Forall_forall in Hvalid. now apply Hvalid.
    - intro Hn. assert (Hin : In t0 (filter (contained (release t0) (dead t0)) tasks)).
      { apply filter_In. split; [assumption|]. unfold contained.
        apply andb_true_iff. split; apply Qle_bool_iff; lra. }
      rewrite Hn in Hin. contradiction. }
  assert (H0 : 0 / (e - s) == 0) by (unfold Qdiv; lra).
  pose proof (Qdiv_pos _ (dead t0 - release t0) Hpos ltac:(lra)). lra.
Qed.

Lemma loop_body_Ok tasks scheduling :
  tasks <> [] -> working_set tasks ->
  exists s e tasks',
    critical tasks s e /\
    filter (contained s e) tasks <> [] /\
    Forall2 (fun t t' => cut t s e = Ok t')
      (filter (fun t => negb (contained s e t)) tasks) tasks' /\
    loop_body set_iter tasks scheduling
    = Ok (tasks', scheduling ++ round_executions tasks s e).
Proof.
  intros Hne [Hnd Hvalid].
  destruct (critical_interval_exists tasks Hne Hvalid) as [s [e [Hmax [Hcrit Hin]]]].
  set (inside := filter (contained s e) tasks) in *.
  set (to_execute := sorted dead inside).
  assert (Hperm : Permutation to_execute inside) by apply sorted_perm.
  assert (Hpos : Forall (fun t => 0 < c t) to_execute).
  { apply Forall_forall. intros t Ht. apply (Permutation_in _ Hperm) in Ht.
    apply filter_In in Ht. rewrite Forall_forall in Hvalid. now apply Hvalid. }
  assert (Hsum : ~ fold_left Qplus (map c to_execute) 0 == 0).
  { rewrite sum_total. pose proof (total_pos to_execute Hpos) as Hp.
    assert (0 < total to_execute); [|lra].
    apply Hp. intro Hn. apply Hin. now apply sorted_nil_inv in Hn. }
  destruct (execute_loop_Ok (mk_interval tasks s e) (e - s) _ to_execute Hsum
              tasks s scheduling Hnd) as [pos' Hfor].
  { apply (Permutation_NoDup (Permutation_sym (Permutation_map oid Hperm))).
    now apply distinct_filter. }
  { intros t Ht. apply (Permutation_in _ Hperm) in Ht. now apply filter_In in Ht. }
  rewrite (without_contained tasks s e) in Hfor by assumption.
  destruct (map_result_Forall2 (fun t => cut t s e)
              (filter (fun t => negb (contained s e t)) tasks)) as [tasks' [Hmap Hcut]].
  { apply Forall_forall. intros t Ht. apply filter_In in Ht. destruct Ht as [Ht Hc].
    apply negb_true_iff in Hc. apply cut_total; [assumption|].
    rewrite Forall_forall in Hvalid. destruct (Hvalid t Ht). lra. }
  exists s, e, tasks'. repeat split; try assumption; try apply Hcrit.
  unfold loop_body. rewrite get_intervals_Ok. cbn [bind]. rewrite Hmax.
  cbn [bind i_tasks i_start i_end mk_interval]. fold inside. fold to_execute.
  rewrite Hfor. cbn [bind]. rewrite Hmap. reflexivity.
Qed.

End LoopBody.

(** ** The executions of one round *)

Section Round.
Context {ident : Type}.
Implicit Types (t : Task ident) (tasks l : list (Task ident)).

Lemma emitted_served_from (freq int_length c_sum pos0 : Q) (rest : list (Task ident)) :
  forall done pos,
    pos == pos0 + total done / c_sum * int_length ->
    Forall2 (served pos0 int_length c_sum freq (done ++ rest)) rest
      (emitted freq int_length c_sum pos rest).
Proof.
  induction rest as [|t rest IH]; intros done pos Hpos; simpl; constructor.
  - exists done, rest. simpl. repeat split; try reflexivity.
    rewrite Hpos. reflexivity.
  - specialize (IH (done ++ [t]) (pos + c t / c_sum * int_length)).
    rewrite <- app_assoc in IH. simpl in IH. apply IH.
    rewrite Hpos, total_app. simpl. unfold Qdiv. ring.
Qed.

Lemma emitted_served (freq int_length c_sum pos0 : Q) l :
  Forall2 (served pos0 int_length c_sum freq l) l
    (emitted freq int_length c_sum pos0 l).
Proof.
  apply (emitted_served_from freq int_length c_sum pos0 l []).
  simpl. unfold Qdiv. ring.
Qed.

Lemma StronglySorted_before {A : Type} (R : A -> A -> Prop) (l1 l2 : list A) (x : A) :
  StronglySorted R (l1 ++ x :: l2) -> Forall (fun y => R y x) l1.
Proof.
  induction l1 as [|y l1 IH]; simpl; intro H; [constructor|].
  inversion H as [|? ? Hs Hy]; subst. constructor; [|now apply IH].
  rewrite Forall_forall in Hy. apply Hy. apply in_or_app. right. now left.
Qed.

Lemma Permutation_filter_compat {A : Type} (p : A -> bool) (l l' : list A) :
  Permutation l l' -> Permutation (filter p l) (filter p l').
Proof.
  induction 1 as [|x l l' _ IH|x y l|l l' l'' _ IH1 _ IH2]; simpl.
  - constructor.
  - destruct (p x); [now constructor | assumption].
  - destruct (p x), (p y); try reflexivity. apply perm_swap.
  - now transitivity (filter p l').
Qed.

Lemma total_filter_mono (p q : Task ident -> bool) l :
  (forall t, p t = true -> q t = true) ->
  Forall (fun t => 0 < c t) l ->
  total (filter p l) <= total (filter q l).
Proof.
  intros Hpq. induction 1 as [|t l Ht _ IH]; simpl; [lra|].
  destruct (p t) eqn:Ep.
  - rewrite (Hpq t Ep). simpl. lra.
  - destruct (q t); simpl; lra.
Qed.

(** Work served up to and including [t] fits before the deadline of [t]:
    the tasks served so far all lie in [[s, dead t)], whose intensity is at
    most that of the critical interval. *)
Lemma served_work_bound tasks s e pre t post :
  Forall valid_task tasks -> critical tasks s e ->
  sorted dead (filter (contained s e) tasks) = pre ++ t :: post ->
  total (pre ++ [t]) / total (pre ++ t :: post) * (e - s) <= dead t - s.
Proof.
  intros Hvalid [Hs [He [Hse Hmax]]] Hsort.
  set (inside := filter (contained s e) tasks) in *.
  assert (Hperm : Permutation (pre ++ t :: post) inside)
    by (rewrite <- Hsort; apply sorted_perm).
  assert (Hpos : Forall (fun x => 0 < c x) tasks).
  { apply Forall_forall. intros x Hx. rewrite Forall_forall in Hvalid.
    now apply Hvalid. }
  assert (Hpos' : Forall (fun x => 0 < c x) (pre ++ t :: post)).
  { apply Forall_forall. intros x Hx. apply (Permutation_in _ Hperm) in Hx.
    apply filter_In in Hx. rewrite Forall_forall in Hpos. now apply Hpos. }
  assert (Ht : In t inside).
  { apply (Permutation_in _ Hperm). apply in_or_app. right. now left. }
  apply filter_In in Ht. destruct Ht as [Ht Hct].
  assert (Hvt : valid_task t) by (rewrite Forall_forall in Hvalid; auto).
  destruct Hvt as [Hwt _].
  unfold contained in Hct. qbool.
  assert (Hsd : s < dead t) by lra.
  pose proof (sorted_StronglySorted dead inside) as Hss. rewrite Hsort in Hss.
  apply StronglySorted_before in Hss.
  set (q := @contained ident s (dead t)).
  assert (Hq : forall x, In x (pre ++ [t]) -> q x = true).
  { intros x Hx. apply in_app_or in Hx. unfold q, contained.
    assert (Hxin : In x inside).
    { apply (Permutation_in _ Hperm). apply in_or_app.
      destruct Hx as [Hx|[<-|[]]]; [now left | right; now left]. }
    apply filter_In in Hxin. destruct Hxin as [_ Hcx].
    unfold contained in Hcx. qbool.
    apply andb_true_iff. split; apply Qle_bool_iff; [assumption|].
    destruct Hx as [Hx|[<-|[]]]; [|lra].
    rewrite Forall_forall in Hss. apply (Hss x Hx). }
  assert (Hwork : total (pre ++ [t]) <= total (filter q tasks)).
  { rewrite <- (filter_all q (pre ++ [t]) Hq).
    apply Qle_trans with (total (filter q (pre ++ t :: post))).
    - replace (pre ++ t :: post) with ((pre ++ [t]) ++ post)
        by (rewrite <- app_assoc; reflexivity).
      rewrite (filter_app q (pre ++ [t]) post).
      rewrite (total_app (filter q (pre ++ [t])) (filter q post)).
      assert (0 <= total (filter q post)); [|lra].
      apply total_nonneg. apply Forall_forall. intros x Hx.
      apply filter_In in Hx. rewrite Forall_forall in Hpos'. apply Hpos'.
      apply in_or_app. right. right. tauto.
    - rewrite (total_perm _ _ (Permutation_filter_compat q _ _ Hperm)).
      unfold inside. rewrite filter_filter.
      apply total_filter_mono; [|assumption].
      intros x Hx. apply andb_true_iff in Hx. tauto. }
  assert (Hcrit := Hmax s (dead t) Hs (in_map _ _ _ Ht) Hsd).
  fold q in Hcrit. fold inside in Hcrit.
  rewrite <- (total_perm _ _ Hperm) in Hcrit.
  set (T := total (pre ++ t :: post)) in *.
  assert (HT : 0 < T).
  { apply total_pos; [assumption|]. now destruct pre. }
  set (X := total (pre ++ [t])) in *.
  set (W := total (filter q tasks)) in *.
  assert (HI : 0 < T / (e - s)) by (apply Qdiv_pos; lra).
  assert (HW : W <= T / (e - s) * (dead t - s)).
  { apply (Qmult_le_r _ _ (dead t - s)) in Hcrit; [|lra].
    assert (Heq : W / (dead t - s) * (dead t - s) == W) by (field; lra).
    rewrite Heq in Hcrit. exact Hcrit. }
  assert (Heq : X / T * (e - s) == X / (T / (e - s))) by (field; lra).
  rewrite Heq. apply Qle_shift_div_r; [assumption|]. lra.
Qed.

Lemma round_well_served tasks s e :
  Forall valid_task tasks -> critical tasks s e ->
  Forall2 (well_served s) (sorted dead (filter (contained s e) tasks))
    (round_executions tasks s e).
Proof.
  intros Hvalid Hcrit. unfold round_executions. cbv zeta.
  set (to_execute := sorted dead (filter (contained s e) tasks)).
  eapply Forall2_impl; [|apply emitted_served].
  intros t ex [pre [post [Hsplit [Hnr [Hfreq [Hstart Hend]]]]]].
  assert (Hperm : Permutation to_execute (filter (contained s e) tasks))
    by apply sorted_perm.
  assert (Hpos : Forall (fun x => 0 < c x) to_execute).
  { apply Forall_forall. intros x Hx. apply (Permutation_in _ Hperm) in Hx.
    apply filter_In in Hx. rewrite Forall_forall in Hvalid. now apply Hvalid. }
  assert (HT : 0 < total to_execute).
  { apply total_pos; [assumption|]. rewrite Hsplit. now destruct pre. }
  assert (Hse : 0 < e - s) by (destruct Hcrit as [_ [_ [Hse _]]]; lra).
  pose proof (served_work_bound tasks s e pre t post Hvalid Hcrit Hsplit) as Hwork.
  rewrite <- Hsplit in Hwork.
  assert (Hsum : fold_left Qplus (map c to_execute) 0 == total to_execute)
    by (rewrite sum_total; lra).
  rewrite Hsum in Hstart, Hend.
  assert (Hint : frequency ex == total to_execute / (e - s)).
  { rewrite Hfreq, intensity_mk_interval. now rewrite (total_perm _ _ Hperm). }
  assert (Hct : 0 < c t).
  { rewrite Forall_forall in Hpos. apply Hpos. rewrite Hsplit.
    apply in_or_app. right. now left. }
  assert (Hpre : 0 <= total pre).
  { apply total_nonneg. apply Forall_forall. intros x Hx.
    rewrite Forall_forall in Hpos. apply Hpos. rewrite Hsplit.
    apply in_or_app. now left. }
  assert (Hlen : 0 < c t / total to_execute * (e - s)).
  { apply Qmult_lt_0_compat; [|assumption]. now apply Qdiv_pos. }
  assert (Hgap : 0 <= total pre / total to_execute * (e - s)).
  { apply Qmult_le_0_compat; [|lra]. apply Qle_shift_div_l; [assumption|]. lra. }
  assert (Hupto : total (pre ++ [t]) / total to_execute * (e - s)
                  == total pre / total to_execute * (e - s)
                     + c t / total to_execute * (e - s)).
  { rewrite total_app. simpl. field. lra. }
  unfold well_served. repeat split.
  - exact Hnr.
  - rewrite Hint.
    assert (Hd : e_end ex - e_start ex == c t / total to_execute * (e - s))
      by (rewrite Hend; ring).
    rewrite Hd. field. lra.
  - lra.
  - lra.
  - lra.
Qed.

End Round.

(** ** Invariants of the [while] loop *)

Lemma Forall2_In_r {A B : Type} (R : A -> B -> Prop) (l : list A) (l' : list B) (y : B) :
  Forall2 R l l' -> In y l' -> exists x, In x l /\ R x y.
Proof.
  induction 1 as [|x y' l l' Hxy _ IH]; simpl; [contradiction|].
  intros [<-|Hy]; [eauto|]. destruct (IH Hy) as [x' [Hx' Hr]]. eauto.
Qed.

Lemma Forall2_with_In {A B : Type} (R : A -> B -> Prop) (l : list A) (l' : list B) :
  Forall2 R l l' -> Forall2 (fun x y => In x l /\ R x y) l l'.
Proof.
  induction 1 as [|x y l l' Hxy _ IH]; constructor.
  - split; [now left | assumption].
  - eapply Forall2_impl; [|exact IH]. simpl. intros a b [Ha Hab]. auto.
Qed.

Lemma Forall2_compose {A B C : Type} (R : A -> B -> Prop) (S : B -> C -> Prop)
    (T : A -> C -> Prop) (l1 : list A) (l2 : list B) (l3 : list C) :
  (forall a b c, R a b -> S b c -> T a c) ->
  Forall2 R l1 l2 -> Forall2 S l2 l3 -> Forall2 T l1 l3.
Proof.
  intros H H12. revert l3. induction H12 as [|a b l1 l2 Hab _ IH]; intros l3 H23.
  - inversion H23. constructor.
  - inversion H23 as [|? c ? l3' Hbc H23']; subst. constructor; eauto.
Qed.

Lemma Forall2_perm_r {A B : Type} (R : A -> B -> Prop) (l1 : list A) (l2 l2' : list B) :
  Forall2 R l1 l2 -> Permutation l2 l2' ->
  exists l1', Permutation l1 l1' /\ Forall2 R l1' l2'.
Proof.
  intros HF HP. apply Forall2_flip in HF.
  destruct (Permutation_Forall2 HP HF) as [l1' [HP' HF']].
  exists l1'. split; [assumption|]. now apply Forall2_flip in HF'.
Qed.

Lemma filter_partition_perm {A : Type} (p : A -> bool) (l : list A) :
  Permutation l (filter p l ++ filter (fun x => negb (p x)) l).
Proof.
  induction l as [|x l IH]; simpl; [constructor|].
  destruct (p x); simpl; [now constructor|].
  now apply Permutation_cons_app.
Qed.

Section Invariants.
Context {ident : Type}.
Implicit Types (o t u : Task ident) (tasks : list (Task ident)).

Lemma tracks_refl o : tracks o o.
Proof. unfold tracks. repeat split; lra. Qed.

Lemma tracks_cut o t t' s e : tracks o t -> cut_effect s e t t' -> tracks o t'.
Proof.
  intros [Hnr [Hc [Hd Hr]]] Hcut. destruct Hcut. unfold tracks.
  repeat split; try congruence; lra.
Qed.

Section AfterCut.
Variables (s e : Q) (p : Task ident -> bool) (tasks tasks' : list (Task ident)).
Hypothesis Hse : s < e.
Hypothesis Hws : working_set tasks.
Hypothesis Hcut : Forall2 (fun t t' => cut t s e = Ok t') (filter p tasks) tasks'.

Lemma cut_round_effect :
  Forall2 (fun t t' => In t tasks /\ cut_effect s e t t') (filter p tasks) tasks'.
Proof.
  eapply Forall2_impl; [|apply Forall2_with_In; exact Hcut].
  simpl. intros t t' [Hin Hc]. apply filter_In in Hin. destruct Hin as [Hin _].
  split; [assumption|]. apply cut_Ok_effect; try assumption.
  destruct Hws as [_ Hv]. rewrite Forall_forall in Hv. now apply Hv.
Qed.

Lemma cut_round_working_set : working_set tasks'.
Proof.
  pose proof cut_round_effect as Heff. destruct Hws as [Hnd Hv]. split.
  - assert (Hoid : map oid tasks' = map oid (filter p tasks)).
    { clear Hcut. induction Heff as [|t t' l l' [_ Ht] _ IH]; simpl; [reflexivity|].
      destruct Ht. congruence. }
    rewrite Hoid. now apply distinct_filter.
  - apply Forall_forall. intros t' Ht'.
    destruct (Forall2_In_r _ _ _ _ Heff Ht') as [t [Ht [Hin Hc]]].
    rewrite Forall_forall in Hv. destruct (Hv t Hin) as [_ Hpos].
    destruct Hc. split; [assumption | congruence].
Qed.

Lemma cut_round_timeline m : timeline m tasks -> timeline m tasks'.
Proof.
  pose proof cut_round_effect as Heff. intros [Hm Hmono]. split.
  - apply Forall_forall. intros t' Ht'.
    destruct (Forall2_In_r _ _ _ _ Heff Ht') as [t [_ [Hin Hc]]].
    rewrite Forall_forall in Hm. specialize (Hm t Hin). destruct Hc. lra.
  - intros u' t' Hu' Ht' Hlt.
    destruct (Forall2_In_r _ _ _ _ Heff Hu') as [u [_ [Hu Hcu]]].
    destruct (Forall2_In_r _ _ _ _ Heff Ht') as [t [_ [Ht Hct]]].
    specialize (Hmono u t Hu Ht).
    destruct Hcu as [_ _ _ _ _ _ Hou Hru]. destruct Hct as [_ _ _ _ _ _ Hot Hrt].
    destruct (Qlt_le_dec (release u) (release t)) as [Hut|Hut].
    + specialize (Hmono Hut). intuition lra.
    + exfalso. intuition lra.
Qed.

Lemma cut_round_tracks (waiting : list (Task ident)) :
  Forall2 tracks waiting (filter p tasks) -> Forall2 tracks waiting tasks'.
Proof.
  intro Htr. eapply Forall2_compose; [|exact Htr|exact cut_round_effect].
  simpl. intros o t t' Ho [_ Hc]. eapply tracks_cut; eauto.
Qed.

End AfterCut.

Lemma well_served_scheduled m tasks s e o t ex :
  timeline m tasks -> In s (map release tasks) ->
  In t tasks -> contained s e t = true ->
  tracks o t -> well_served s t ex -> scheduled m o ex.
Proof.
  intros [Hm Hmono] Hs Ht Hc [Hnr [Hw [Hd Hr]]] [Hn [Hwork [Hlen [Hend Hstart]]]].
  unfold scheduled. repeat split; try congruence; try lra.
  apply in_map_iff in Hs. destruct Hs as [u [<- Hu]].
  unfold contained in Hc. qbool.
  rewrite Forall_forall in Hm.
  pose proof (Hm u Hu) as Hmu. pose proof (Hm t Ht) as Hmt.
  destruct (Qlt_le_dec (release u) (release t)) as [Hlt|Hle].
  - specialize (Hmono u t Hu Ht Hlt). lra.
  - lra.
Qed.

End Invariants.

(** ** The [while] loop *)

Section WhileLoop.
Context {ident : Type}.
Variable set_iter : list Q -> list Q.
Implicit Types (tasks : list (Task ident)) (scheduling : list (Execution ident)).

Lemma while_tasks_more_fuel fuel :
  forall fuel' tasks scheduling r,
    (fuel <= fuel')%nat ->
    while_tasks set_iter fuel tasks scheduling = Some r ->
    while_tasks set_iter fuel' tasks scheduling = Some r.
Proof.
  induction fuel as [|fuel IH]; intros fuel' tasks scheduling r Hle Hrun.
  - destruct tasks; [|discriminate]. destruct fuel'; exact Hrun.
  - destruct fuel' as [|fuel']; [lia|].
    destruct tasks as [|t tasks]; [exact Hrun|].
    cbn [while_tasks] in *.
    destruct (loop_body set_iter (t :: tasks) scheduling) as [[tasks' sch']|err];
      [|exact Hrun].
    apply IH; [lia | exact Hrun].
Qed.

Hypothesis set_ok : set_semantics set_iter.

Lemma round_shrinks tasks s e tasks' :
  filter (contained s e) tasks <> [] ->
  Forall2 (fun t t' => cut t s e = Ok t')
    (filter (fun t => negb (contained s e t)) tasks) tasks' ->
  (length tasks' < length tasks)%nat.
Proof.
  intros Hne Hcut. apply Forall2_length in Hcut. rewrite <- Hcut.
  pose proof (filter_length (contained s e) tasks) as Hlen.
  destruct (filter (contained s e) tasks); [congruence|]. simpl in Hlen. lia.
Qed.

Lemma progress_step m tasks0 tasks scheduling s e tasks' :
  progress m tasks0 tasks scheduling -> critical tasks s e ->
  Forall2 (fun t t' => cut t s e = Ok t')
    (filter (fun t => negb (contained s e t)) tasks) tasks' ->
  progress m tasks0 tasks' (scheduling ++ round_executions tasks s e).
Proof.
  intros [Hws [Htl [done [waiting [Hperm [Htr Hdone]]]]]] Hcrit Hcut.
  assert (Hse : s < e) by apply Hcrit.
  split; [eapply cut_round_working_set; eauto|].
  split; [eapply cut_round_timeline; eauto|].
  set (inside := filter (contained s e) tasks).
  set (outside := filter (fun t => negb (contained s e t)) tasks) in *.
  set (to_execute := sorted dead inside).
  assert (Hsplit : Permutation tasks (to_execute ++ outside)).
  { rewrite (filter_partition_perm (contained s e) tasks) at 1.
    apply Permutation_app_tail. symmetry. apply sorted_perm. }
  destruct (Forall2_perm_r _ _ _ _ Htr Hsplit) as [waiting' [Hw HF]].
  apply Forall2_app_inv_r in HF.
  destruct HF as [w_in [w_out [Hin [Hout ->]]]].
  exists (done ++ w_in), w_out. split; [|split].
  - rewrite <- app_assoc, <- Hw. exact Hperm.
  - eapply cut_round_tracks; eauto.
  - apply Forall2_app; [exact Hdone|].
    pose proof (round_well_served tasks s e (proj2 Hws) Hcrit) as Hserved.
    apply Forall2_with_In in Hserved. fold inside in Hserved. fold to_execute in Hserved.
    eapply Forall2_compose; [|exact Hin|exact Hserved].
    simpl. intros o t ex Ho [Ht Hs].
    apply (Permutation_in _ (sorted_perm dead inside)) in Ht.
    apply filter_In in Ht. destruct Ht as [Ht Hc].
    eapply well_served_scheduled; eauto. apply Hcrit.
Qed.

Lemma while_tasks_progress m tasks0 fuel :
  forall tasks scheduling,
    (length tasks <= fuel)%nat ->
    progress m tasks0 tasks scheduling ->
    exists scheduling',
      while_tasks set_iter fuel tasks scheduling
      = Some (Ok (sorted e_start scheduling')) /\
      progress m tasks0 [] scheduling'.
Proof.
  induction fuel as [|fuel IH]; intros tasks scheduling Hlen Hprog.
  - destruct tasks; [|simpl in Hlen; lia]. exists scheduling. auto.
  - destruct tasks as [|t tasks]; [exists scheduling; auto|].
    destruct (loop_body_Ok set_iter set_ok (t :: tasks) scheduling)
      as [s [e [tasks' [Hcrit [Hne [Hcut Hbody]]]]]];
      [discriminate | apply Hprog |].
    cbn [while_tasks]. rewrite Hbody. apply IH.
    + pose proof (round_shrinks _ _ _ _ Hne Hcut). simpl in *. lia.
    + eapply progress_step; eauto.
Qed.

End WhileLoop.

(** ** The caller's task list *)

Section NewTasks.
Context {ident : Type}.
Implicit Types (descr : list (ident * Q * Q * Q)).

Lemma new_tasks_oid descr : forall next,
  map oid (new_tasks next descr) = seq next (length descr).
Proof.
  induction descr as [|[[[n r] d] w] descr IH]; intro next; simpl;
    [reflexivity | now rewrite IH].
Qed.

Lemma new_tasks_offset descr : forall next,
  Forall (fun t => offset t = 0) (new_tasks next descr).
Proof.
  induction descr as [|[[[n r] d] w] descr IH]; intro next; simpl;
    constructor; [reflexivity | apply IH].
Qed.

Lemma new_tasks_length descr next : length (new_tasks next descr) = length descr.
Proof.
  rewrite <- (length_map oid), new_tasks_oid. apply length_seq.
Qed.

Lemma new_tasks_working_set descr :
  Forall valid_task (new_tasks 0 descr) -> working_set (new_tasks 0 descr).
Proof.
  intro Hv. split; [|exact Hv]. rewrite new_tasks_oid. apply seq_NoDup.
Qed.

Lemma new_tasks_timeline descr m :
  Forall (fun t => m <= release t) (new_tasks 0 descr) ->
  timeline m (new_tasks 0 descr).
Proof.
  intro Hm. pose proof (new_tasks_offset descr 0%nat) as Hoff.
  rewrite Forall_forall in *. split.
  - apply Forall_forall. intros t Ht. rewrite (Hoff t Ht).
    specialize (Hm t Ht). lra.
  - intros u t Hu Ht _. rewrite (Hoff u Hu), (Hoff t Ht). lra.
Qed.

Lemma release_lower_bound (tasks : list (Task ident)) :
  exists m, Forall (fun t => m <= release t) tasks.
Proof.
  induction tasks as [|t tasks [m Hm]].
  - exists 0. constructor.
  - destruct (Qlt_le_dec (release t) m) as [Hlt|Hle].
    + exists (release t). constructor; [lra|].
      eapply Forall_impl; [|exact Hm]. simpl. intros; lra.
    + exists m. now constructor.
Qed.

End NewTasks.

(** ** Insertion order is an iteration order of sets *)

Lemma set_first_in (l : list Q) (x : Q) : In x (set_first l) -> In x l.
Proof.
  induction l as [|y l IH]; simpl; [tauto|].
  intros [->|Hx]; [now left|]. apply filter_In in Hx. right. now apply IH.
Qed.

Lemma set_first_complete (l : list Q) (x : Q) : In x l -> InA Qeq x (set_first l).
Proof.
  induction l as [|y l IH]; simpl; [tauto|].
  intros [->|Hx]; [now constructor|].
  destruct (Qeq_bool y x) eqn:E; qbool.
  - constructor. now symmetry.
  - apply InA_cons_tl. apply IH in Hx. apply InA_alt in Hx.
    destruct Hx as [z [Hxz Hz]]. apply InA_alt. exists z. split; [assumption|].
    apply filter_In. split; [assumption|].
    apply negb_true_iff, Qeq_bool_false. intro Hyz. apply E. now rewrite Hxz.
Qed.

Lemma NoDupA_filter (p : Q -> bool) (l : list Q) :
  NoDupA Qeq l -> NoDupA Qeq (filter p l).
Proof.
  induction 1 as [|x l Hx _ IH]; simpl; [constructor|].
  destruct (p x); [|assumption]. constructor; [|assumption].
  intro Hin. apply Hx. apply InA_alt in Hin. destruct Hin as [y [Hy Hin]].
  apply filter_In in Hin. apply InA_alt. exists y. tauto.
Qed.

Lemma set_first_NoDupA (l : list Q) : NoDupA Qeq (set_first l).
Proof.
  induction l as [|x l IH]; simpl; constructor.
  - intro Hin. apply InA_alt in Hin. destruct Hin as [y [Hy Hin]].
    apply filter_In in Hin. destruct Hin as [_ Hne]. qbool. contradiction.
  - now apply NoDupA_filter.
Qed.

Lemma set_first_semantics : set_semantics set_first.
Proof.
  intro l. split; [|split].
  - apply set_first_in.
  - apply set_first_complete.
  - apply set_first_NoDupA.
Qed.

(** ** The schedule of a valid input *)

Section Schedule.
Context {ident : Type}.
Variable set_iter : list Q -> list Q.
Hypothesis set_ok : set_semantics set_iter.
Implicit Types (descr : list (ident * Q * Q * Q)).

Lemma schedule_exists descr m :
  Forall valid_task (new_tasks 0 descr) ->
  Forall (fun t => m <= release t) (new_tasks 0 descr) ->
  exists schedule done,
    (forall fuel, (length descr <= fuel)%nat ->
       calc_scheduling set_iter fuel (new_tasks 0 descr) = Some (Ok schedule)) /\
    Permutation done (new_tasks 0 descr) /\
    Forall2 (scheduled m) done schedule /\
    StronglySorted (key_le e_start) schedule.
Proof.
  intros Hvalid Hm. set (tasks0 := new_tasks 0 descr) in *.
  assert (Hinit : progress m tasks0 tasks0 []).
  { split; [now apply new_tasks_working_set|].
    split; [now apply new_tasks_timeline|].
    exists [], tasks0. split; [reflexivity|]. split; [|constructor].
    clear. induction tasks0; constructor; [apply tracks_refl | assumption]. }
  destruct (while_tasks_progress set_iter set_ok m tasks0 (length descr) tasks0 [])
    as [sch [Hrun [_ [_ [done [waiting [Hperm [Hwait Hdone]]]]]]]];
    [unfold tasks0; rewrite new_tasks_length; lia | exact Hinit |].
  inversion Hwait; subst. rewrite app_nil_r in Hperm.
  destruct (Forall2_perm_r _ _ _ _ Hdone (Permutation_sym (sorted_perm e_start sch)))
    as [done' [Hperm' Hdone']].
  exists (sorted e_start sch), done'. repeat split.
  - intros fuel Hfuel. unfold calc_scheduling.
    eapply while_tasks_more_fuel; [exact Hfuel | exact Hrun].
  - now rewrite <- Hperm'.
  - exact Hdone'.
  - apply sorted_StronglySorted.
Qed.

End Schedule.

(** * The float model *)

(** ** Rounding to the nearest double *)

Lemma round_half_even_exact (m b : Z) :
  (0 < b)%Z -> round_half_even (m * b) b = m.
Proof.
  intro Hb. unfold round_half_even.
  rewrite Z.mod_mul, Z.div_mul by lia.
  replace (2 * 0)%Z with 0%Z by reflexivity.
  destruct (Z.compare_spec 0 b); [lia | reflexivity | lia].
Qed.

Lemma round_half_even_lower (a b : Z) : (a / b <= round_half_even a b)%Z.
Proof.
  unfold round_half_even. cbv zeta.
  destruct (2 * (a mod b) ?= b)%Z; [destruct (Z.even (a / b))|..]; lia.
Qed.

(** The exponent found by [binade] is not above the number. *)
Lemma binade_lower (n d : positive) :
  (0 <= binade n d -> 2 ^ binade n d * Zpos d <= Zpos n)%Z /\
  (binade n d < 0 -> Zpos d <= Zpos n * 2 ^ (- binade n d))%Z.
Proof.
  unfold binade.
  destruct (Z.log2_spec (Zpos n)) as [Hn _]; [lia|].
  destruct (Z.log2_spec (Zpos d)) as [_ Hd]; [lia|].
  pose proof (Z.log2_nonneg (Zpos n)) as HL.
  pose proof (Z.log2_nonneg (Zpos d)) as HM.
  set (L := Z.log2 (Zpos n)) in *. set (M := Z.log2 (Zpos d)) in *.
  rewrite <- Z.add_1_r in Hd.
  destruct (0 <=? L - M)%Z eqn:E0.
  - apply Z.leb_le in E0.
    destruct (2 ^ (L - M) * Zpos d <=? Zpos n)%Z eqn:E1.
    + apply Z.leb_le in E1. split; [intros _; exact E1 | lia].
    + clear E1. split; intro He.
      * assert (Hpow : (2 ^ (L - M - 1) * 2 ^ (M + 1) = 2 ^ L)%Z).
        { rewrite <- Z.pow_add_r by lia. f_equal. lia. }
        assert (0 < 2 ^ (L - M - 1))%Z by (apply Z.pow_pos_nonneg; lia).
        nia.
      * assert (L - M = 0)%Z by lia.
        replace (- (L - M - 1))%Z with 1%Z by lia.
        replace (M + 1)%Z with (L + 1)%Z in Hd by lia.
        rewrite Z.pow_add_r in Hd by lia.
        change (2 ^ 1)%Z with 2%Z in *. lia.
  - apply Z.leb_gt in E0.
    destruct (Zpos d <=? Zpos n * 2 ^ (- (L - M)))%Z eqn:E1.
    + apply Z.leb_le in E1. split; [lia | intros _; exact E1].
    + clear E1. split; [lia | intros _].
      assert (Hpow : (2 ^ L * 2 ^ (- (L - M - 1)) = 2 ^ (M + 1))%Z).
      { rewrite <- Z.pow_add_r by lia. f_equal. lia. }
      assert (0 < 2 ^ (- (L - M - 1)))%Z by (apply Z.pow_pos_nonneg; lia).
      nia.
Qed.

Lemma floor_half (a b : Z) :
  (0 < b <= a)%Z -> (a < 2 * round_half_even a b * b)%Z.
Proof.
  intro H. pose proof (round_half_even_lower a b) as Hm.
  assert (Hq : (0 < a / b)%Z) by (apply Z.div_str_pos; lia).
  pose proof (Z.div_mod a b ltac:(lia)) as Hdiv.
  pose proof (Z.mod_pos_bound a b ltac:(lia)) as Hmod.
  nia.
Qed.

(** Rounding keeps more than half of a positive number. *)
Lemma round53_half (n d : positive) : (Zpos n # d) <= 2 * round53 n d.
Proof.
  unfold round53. destruct (binade_lower n d) as [Hup Hdown].
  set (e := binade n d) in *.
  destruct (0 <=? e - 52)%Z eqn:Ek.
  - apply Z.leb_le in Ek.
    assert (Hk : (0 < 2 ^ (e - 52))%Z) by (apply Z.pow_pos_nonneg; lia).
    assert (Hle : (2 ^ (e - 52) <= 2 ^ e)%Z) by (apply Z.pow_le_mono_r; lia).
    specialize (Hup ltac:(lia)).
    pose proof (floor_half (Zpos n) (Zpos d * 2 ^ (e - 52)) ltac:(nia)) as Hm.
    unfold Qle, Qmult, inject_Z. cbn [Qnum Qden].
    rewrite Pos.mul_1_l, Z.mul_1_r. nia.
  - apply Z.leb_gt in Ek.
    assert (Hk : (0 < 2 ^ (- (e - 52)))%Z) by (apply Z.pow_pos_nonneg; lia).
    assert (Hge : (Zpos d <= Zpos n * 2 ^ (- (e - 52)))%Z).
    { destruct (Z.lt_ge_cases e 0) as [Hneg|Hnn].
      - specialize (Hdown Hneg).
        assert (2 ^ (- e) <= 2 ^ (- (e - 52)))%Z by (apply Z.pow_le_mono_r; lia).
        nia.
      - specialize (Hup Hnn).
        assert (0 < 2 ^ e)%Z by (apply Z.pow_pos_nonneg; lia). nia. }
    pose proof (floor_half (Zpos n * 2 ^ (- (e - 52))) (Zpos d) ltac:(lia)) as Hm.
    rewrite Qred_correct. unfold Qle, Qmult. cbn [Qnum Qden].
    rewrite Pos.mul_1_l, Z2Pos.id by lia. nia.
Qed.

Lemma round53_exact (n d : positive) (z : Z) :
  Zpos n = (z * Zpos d)%Z -> (z < 2 ^ 53)%Z -> round53 n d == inject_Z z.
Proof.
  intros Hn Hz. unfold round53. destruct (binade_lower n d) as [Hup _].
  set (e := binade n d) in *.
  assert (He : (e - 52 <= 0)%Z).
  { destruct (Z.lt_ge_cases e 53) as [|Hbig]; [lia|]. exfalso.
    specialize (Hup ltac:(lia)).
    assert (2 ^ 53 <= 2 ^ e)%Z by (apply Z.pow_le_mono_r; lia).
    rewrite Hn in Hup. nia. }
  destruct (0 <=? e - 52)%Z eqn:Ek.
  - apply Z.leb_le in Ek. replace (e - 52)%Z with 0%Z by lia.
    change (2 ^ 0)%Z with 1%Z. rewrite !Z.mul_1_r, Hn.
    rewrite round_half_even_exact by lia. reflexivity.
  - apply Z.leb_gt in Ek.
    assert (Hk : (0 < 2 ^ (- (e - 52)))%Z) by (apply Z.pow_pos_nonneg; lia).
    rewrite Qred_correct, Hn.
    replace (z * Zpos d * 2 ^ (- (e - 52)))%Z
      with (z * 2 ^ (- (e - 52)) * Zpos d)%Z by ring.
    rewrite round_half_even_exact by lia.
    unfold Qeq. simpl. rewrite Z2Pos.id by lia. ring.
Qed.

Lemma rnd53_rounds_like_double : rounds_like_double rnd53.
Proof.
  split.
  - intros [n d] z Hx Hz. unfold Qeq in Hx. simpl in Hx. rewrite Z.mul_1_r in Hx.
    unfold rnd53. simpl Qnum. simpl Qden. destruct n as [|n|n].
    + reflexivity.
    + rewrite (round53_exact n d z); [|exact Hx | lia].
      unfold Qeq. simpl. lia.
    + rewrite (round53_exact n d (- z)); [| |lia].
      * unfold Qeq. simpl. lia.
      * lia.
  - intros [n d] Hx.
    assert (Hpos : 0 < n # d).
    { apply Qlt_le_trans with min_normal; [reflexivity | exact Hx]. }
    unfold Qlt in Hpos. cbn [Qnum Qden] in Hpos. rewrite Z.mul_1_r in Hpos.
    unfold rnd53. cbn [Qnum Qden].
    destruct n as [|n|n]; [discriminate | apply round53_half | discriminate].
Qed.

(** ** Whole numbers that are doubles *)

Lemma inject_Z_sub (a b : Z) : inject_Z (a - b) == inject_Z a - inject_Z b.
Proof.
  unfold Z.sub. rewrite inject_Z_plus, inject_Z_opp. reflexivity.
Qed.

Lemma small_integer_eq (x y : Q) : x == y -> small_integer x -> small_integer y.
Proof.
  intros Hxy [z [Hz Hb]]. exists z. split; [|exact Hb]. now rewrite <- Hxy.
Qed.

Lemma small_integer_between (x lo hi : Q) (z : Z) :
  x == inject_Z z -> small_integer lo -> small_integer hi ->
  lo <= x -> x <= hi -> small_integer x.
Proof.
  intros Hx [zl [Hl Hbl]] [zh [Hh Hbh]] Hlo Hhi.
  exists z. split; [exact Hx|].
  rewrite Hx, Hl in Hlo. rewrite Hx, Hh in Hhi.
  rewrite <- Zle_Qle in Hlo, Hhi. lia.
Qed.

Section Exactness.
Variable rnd : Q -> Q.
Hypothesis rnd_ok : rounds_like_double rnd.

Lemma rnd_small (x : Q) : small_integer x -> rnd x == x.
Proof.
  intros [z [Hz Hb]]. apply (proj1 rnd_ok x z Hz).
  assert (2 ^ 52 < 2 ^ 53)%Z by reflexivity. lia.
Qed.

(** The length of an interval between two small whole numbers is exact. *)
Lemma rnd_difference (s e : Q) :
  small_integer s -> small_integer e ->
  fl_sub rnd e s == e - s /\ exists z : Z, fl_sub rnd e s == inject_Z z.
Proof.
  intros [zs [Hs Hbs]] [ze [He Hbe]].
  assert (Hz : e - s == inject_Z (ze - zs)).
  { now rewrite He, Hs, inject_Z_sub. }
  assert (Hex : fl_sub rnd e s == e - s).
  { unfold fl_sub. apply (proj1 rnd_ok _ _ Hz).
    assert (2 ^ 53 = 2 ^ 52 + 2 ^ 52)%Z by reflexivity. lia. }
  split; [exact Hex|]. exists (ze - zs)%Z. now rewrite Hex.
Qed.

(** Moving a small whole number back by such a length is exact as long as
    the result stays between two small whole numbers. *)
Lemma rnd_shift (x s e lo hi : Q) :
  small_integer x -> small_integer s -> small_integer e ->
  small_integer lo -> small_integer hi ->
  lo <= x - (e - s) -> x - (e - s) <= hi ->
  fl_sub rnd x (fl_sub rnd e s) == x - (e - s) /\
  small_integer (fl_sub rnd x (fl_sub rnd e s)).
Proof.
  intros [zx [Hx Hbx]] Hs He Hlo Hhi Hge Hle.
  destruct (rnd_difference s e Hs He) as [HD [zd HDz]].
  assert (Hsmall : small_integer (x - fl_sub rnd e s)).
  { apply (small_integer_between _ lo hi (zx - zd)); try assumption.
    - now rewrite Hx, HDz, inject_Z_sub.
    - now rewrite HD.
    - now rewrite HD. }
  assert (Hex : fl_sub rnd x (fl_sub rnd e s) == x - (e - s)).
  { unfold fl_sub at 1. rewrite (rnd_small _ Hsmall). now rewrite HD. }
  split; [exact Hex|].
  apply (small_integer_eq (x - fl_sub rnd e s)); [|exact Hsmall].
  unfold fl_sub at 2. now rewrite (rnd_small _ Hsmall).
Qed.

End Exactness.

(** ** Task.cut on floats *)

Section CutFloat.
Context {ident : Type}.
Variable rnd : Q -> Q.
Implicit Types (t : Task ident).

Ltac cut_fl_cases :=
  unfold cut_fl; cbv zeta;
  repeat match goal with
  | |- context [if ?b then _ else _] => destruct b eqn:?
  end; qbool.

Lemma cut_fl_keeps t s e t' :
  cut_fl rnd t s e = Ok t' -> oid t' = oid t /\ nr t' = nr t /\ c t' = c t.
Proof.
  cut_fl_cases; intro Hcut; inversion Hcut; subst; simpl; auto.
Qed.

(** The only exception of [cut_fl] is that of its last branch, and it is
    raised on tasks inside the interval only. *)
Lemma cut_fl_Raise t s e err :
  cut_fl rnd t s e = Raise err -> err = UncaughtCut /\ contained s e t = true.
Proof.
  cut_fl_cases; intro Hcut; inversion Hcut; subst; (split; [reflexivity|]);
    unfold contained; apply andb_true_iff; split; apply Qle_bool_iff; lra.
Qed.

Lemma cut_fl_inside t s e :
  release t < dead t -> contained s e t = true -> cut_fl rnd t s e = Raise UncaughtCut.
Proof.
  intros Hw Hc. unfold contained in Hc. apply andb_true_iff in Hc.
  destruct Hc as [Hs He]. apply Qle_bool_iff in Hs, He. revert Hw Hs He.
  cut_fl_cases; intros; try reflexivity; exfalso; lra.
Qed.

Hypothesis rnd_ok : rounds_like_double rnd.

(** On small whole numbers [cut_fl] subtracts without rounding: a task
    outside the interval keeps a non-empty window on small whole numbers. *)
Lemma cut_fl_exact_window t s e :
  exact_window t -> small_integer s -> small_integer e -> s < e ->
  release t < dead t -> contained s e t = false ->
  exists t', cut_fl rnd t s e = Ok t' /\
    oid t' = oid t /\ c t' = c t /\ release t' < dead t' /\ exact_window t'.
Proof.
  intros [Hr Hd] Hs He Hse Hw Hc. unfold contained in Hc.
  pose proof (rnd_shift rnd rnd_ok (release t) s e s (release t) Hr Hs He Hs Hr) as Hrel.
  pose proof (rnd_shift rnd rnd_ok (dead t) s e s (dead t) Hd Hs He Hs Hd) as Hdead.
  revert Hc. cut_fl_cases; intro Hc; qbool; try (exfalso; lra);
    (eexists; split; [reflexivity|]; cbn [oid c release dead];
     split; [reflexivity|]; split; [reflexivity|]);
    try (destruct Hrel as [Hrel Hrel']; [lra | lra |]);
    try (destruct Hdead as [Hdead Hdead']; [lra | lra |]);
    (split; [try rewrite Hrel; try rewrite Hdead; lra | split; assumption]).
Qed.

End CutFloat.
(** ** get_intervals on floats *)

Section IntervalsFloat.
Context {ident : Type}.
Variable rnd : Q -> Q.
Variable set_iter : list Q -> list Q.
Implicit Types (tasks : list (Task ident)).

Lemma inner_loop_fl tasks start (deads : list Q) :
  forall intervals : list (Interval ident),
  for_each deads (fun end_ intervals =>
      if Qlt_bool start end_ then
        do iv <- Interval_init_fl rnd start end_ (filter (contained start end_) tasks);
        Ok (intervals ++ [iv])
      else Ok intervals) intervals
  = if forallb (fun end_ =>
         negb (Qlt_bool start end_) || negb (Qeq_bool (fl_sub rnd end_ start) 0))
       deads
    then Ok (intervals ++
             flat_map (fun end_ =>
               if Qlt_bool start end_ then [mk_interval_fl rnd tasks start end_]
               else []) deads)
    else Raise ZeroDivisionError.
Proof.
  induction deads as [|end_ deads IH]; intro intervals.
  - simpl. now rewrite app_nil_r.
  - cbn [for_each forallb flat_map]. unfold Interval_init_fl at 1.
    destruct (Qlt_bool start end_); cbn [negb orb andb bind].
    + destruct (Qeq_bool (fl_sub rnd end_ start) 0); cbn [negb andb bind].
      * reflexivity.
      * fold (mk_interval_fl rnd tasks start end_). rewrite IH.
        now rewrite <- app_assoc.
    + apply IH.
Qed.

Lemma outer_loop_fl tasks (releases deads : list Q) :
  forall intervals : list (Interval ident),
  for_each releases (fun start intervals =>
    for_each deads (fun end_ intervals =>
      if Qlt_bool start end_ then
        do iv <- Interval_init_fl rnd start end_ (filter (contained start end_) tasks);
        Ok (intervals ++ [iv])
      else Ok intervals) intervals) intervals
  = if lengths_nonzero rnd releases deads
    then Ok (intervals ++ all_intervals_fl rnd releases deads tasks)
    else Raise ZeroDivisionError.
Proof.
  unfold lengths_nonzero, all_intervals_fl.
  induction releases as [|start releases IH]; intro intervals.
  - simpl. now rewrite app_nil_r.
  - cbn [for_each forallb flat_map]. rewrite inner_loop_fl.
    destruct (forallb _ deads); cbn [andb bind]; [|reflexivity].
    rewrite IH. now rewrite <- app_assoc.
Qed.

Lemma get_intervals_fl_eq tasks :
  get_intervals_fl rnd set_iter tasks
  = if lengths_nonzero rnd (set_iter (map release tasks)) (set_iter (map dead tasks))
    then Ok (all_intervals_fl rnd (set_iter (map release tasks))
               (set_iter (map dead tasks)) tasks)
    else Raise ZeroDivisionError.
Proof.
  unfold get_intervals_fl. cbv zeta. now rewrite outer_loop_fl.
Qed.

Lemma in_all_intervals_fl tasks releases deads iv :
  In iv (all_intervals_fl rnd releases deads tasks) <->
  exists start end_,
    In start releases /\ In end_ deads /\ start < end_ /\
    iv = mk_interval_fl rnd tasks start end_.
Proof.
  unfold all_intervals_fl. rewrite in_flat_map. split.
  - intros [start [Hs Hin]]. apply in_flat_map in Hin.
    destruct Hin as [end_ [He Hin]].
    destruct (Qlt_bool start end_) eqn:E; [|contradiction].
    destruct Hin as [<-|[]]. qbool. eauto 6.
  - intros [start [end_ [Hs [He [Hlt ->]]]]].
    exists start. split; [assumption|]. apply in_flat_map.
    exists end_. split; [assumption|].
    apply Qlt_bool_iff in Hlt. rewrite Hlt. now left.
Qed.

Lemma lengths_nonzero_true (releases deads : list Q) :
  (forall start end_, In start releases -> In end_ deads -> start < end_ ->
     ~ fl_sub rnd end_ start == 0) ->
  lengths_nonzero rnd releases deads = true.
Proof.
  intro H. unfold lengths_nonzero. apply forallb_forall. intros start Hs.
  apply forallb_forall. intros end_ He.
  destruct (Qlt_bool start end_) eqn:E; [|reflexivity]. qbool. simpl.
  apply negb_true_iff, Qeq_bool_false. now apply H.
Qed.

Lemma max_intensity_interval_In (intervals : list (Interval ident)) best :
  max_intensity_interval intervals = Ok best -> In best intervals.
Proof.
  destruct intervals as [|iv rest]; [discriminate|]. intro H.
  destruct (max_intensity_interval_Ok (iv :: rest)) as [best' [Hb [Hin _]]];
    [discriminate|].
  congruence.
Qed.

Lemma max_intensity_interval_Raise (intervals : list (Interval ident)) err :
  max_intensity_interval intervals = Raise err -> intervals = [] /\ err = ValueError.
Proof.
  destruct intervals; simpl; intro H; inversion H. auto.
Qed.

End IntervalsFloat.

(** ** The [for] loop on floats *)

Section ForLoopFloat.
Context {ident : Type}.
Variable rnd : Q -> Q.
Implicit Types (t x : Task ident) (tasks l : list (Task ident)).

Lemma list_remove_Raise x tasks err :
  list_remove x tasks = Raise err -> err = ValueError.
Proof.
  induction tasks as [|t tasks IH]; simpl.
  - congruence.
  - destruct (Nat.eqb (oid t) (oid x)); [discriminate|].
    destruct (list_remove x tasks); simpl; [discriminate|].
    intro H. apply IH. congruence.
Qed.

Lemma execute_loop_fl_Raise (max_int : Interval ident) (int_length c_sum : Q) l :
  forall st err,
    for_each l (execute_task_fl rnd max_int int_length c_sum) st = Raise err ->
    err <> UncaughtCut.
Proof.
  induction l as [|x l IH]; intros [[pos scheduling] tasks] err; simpl.
  - discriminate.
  - destruct (Qeq_bool c_sum 0); simpl; [congruence|].
    destruct (list_remove x tasks) eqn:E; simpl.
    + apply IH.
    + apply list_remove_Raise in E. congruence.
Qed.

Lemma execute_loop_fl_Ok_inv (max_int : Interval ident) (int_length c_sum : Q) l :
  forall st st',
    for_each l (execute_task_fl rnd max_int int_length c_sum) st = Ok st' ->
    l = [] \/ ~ c_sum == 0.
Proof.
  destruct l as [|x l]; [now left|]. intros [[pos scheduling] tasks] st'. simpl.
  destruct (Qeq_bool c_sum 0) eqn:E; simpl; [discriminate|].
  intros _. right. now apply Qeq_bool_false.
Qed.

Lemma execute_loop_fl_Ok (max_int : Interval ident) (int_length c_sum : Q) l :
  l = [] \/ ~ c_sum == 0 ->
  forall tasks pos scheduling,
    NoDup (map oid tasks) -> NoDup (map oid l) -> incl l tasks ->
    exists pos' new,
      for_each l (execute_task_fl rnd max_int int_length c_sum)
        (pos, scheduling, tasks)
      = Ok (pos', scheduling ++ new, without l tasks) /\
      map e_nr new = map nr l.
Proof.
  induction l as [|x l IH]; intros Hc tasks pos scheduling Hnd Hl Hincl.
  - exists pos, []. simpl. rewrite app_nil_r. unfold without. simpl.
    now rewrite filter_all.
  - destruct Hc as [Hc|Hc]; [discriminate|].
    pose proof Hc as Hc'. apply Qeq_bool_false in Hc'.
    cbn [for_each execute_task_fl]. rewrite Hc'.
    rewrite list_remove_Ok by (auto; apply Hincl; now left).
    cbn [bind]. inversion Hl as [|? ? Hx Hl']; subst.
    edestruct (IH (or_intror Hc) (without [x] tasks)) as [pos' [new [Hfor Hnew]]];
      [now apply distinct_filter | exact Hl' | |].
    + intros y Hy. apply filter_In. split; [apply Hincl; now right|].
      simpl. rewrite orb_false_r, negb_true_iff, Nat.eqb_neq.
      intro Heq. apply Hx. rewrite <- Heq. now apply in_map.
    + eexists. eexists. rewrite Hfor, without_cons, <- app_assoc.
      split; [reflexivity|]. simpl. now rewrite Hnew.
Qed.

End ForLoopFloat.

(** ** One iteration of the [while] loop on floats *)

Lemma map_result_Ok_inv {A B : Type} (f : A -> result B) (l : list A) :
  forall l', map_result f l = Ok l' -> Forall2 (fun x y => f x = Ok y) l l'.
Proof.
  induction l as [|x l IH]; simpl; intros l' H.
  - inversion H. constructor.
  - destruct (f x) as [y|] eqn:Ex; simpl in H; [|discriminate].
    destruct (map_result f l) as [ys|]; simpl in H; [|discriminate].
    inversion H. subst. constructor; [exact Ex | now apply IH].
Qed.

Lemma map_result_Raise_inv {A B : Type} (f : A -> result B) (l : list A) err :
  map_result f l = Raise err -> exists x, In x l /\ f x = Raise err.
Proof.
  induction l as [|x l IH]; simpl; intro H; [discriminate|].
  destruct (f x) as [y|err'] eqn:Ex; simpl in H.
  - destruct (map_result f l) as [ys|err']; simpl in H; [discriminate|].
    destruct IH as [x' [Hin Hx']]; [exact H|]. exists x'. auto.
  - exists x. split; [now left | congruence].
Qed.

Section LoopBodyFloat.
Context {ident : Type}.
Variable rnd : Q -> Q.
Variable set_iter : list Q -> list Q.
Implicit Types (t : Task ident) (tasks : list (Task ident))
  (scheduling : list (Execution ident)).

Lemma cuts_keep (s e : Q) tasks tasks' :
  Forall2 (fun t t' => cut_fl rnd t s e = Ok t') tasks tasks' ->
  map oid tasks' = map oid tasks /\ map nr tasks' = map nr tasks.
Proof.
  induction 1 as [|t t' l l' Hcut _ [IHo IHn]]; [split; reflexivity|].
  destruct (cut_fl_keeps rnd t s e t' Hcut) as [Ho [Hn _]].
  simpl. split; congruence.
Qed.

(** What one iteration does, whatever the rounding: it serves the tasks
    inside some interval [[s, e)], cuts the others, and never raises the
    exception of the last branch of the cut. *)
Lemma loop_body_fl_cases tasks scheduling :
  NoDup (map oid tasks) ->
  match loop_body_fl rnd set_iter tasks scheduling with
  | Ok (tasks', scheduling') =>
      exists s e new,
        Forall2 (fun t t' => cut_fl rnd t s e = Ok t')
          (filter (fun t => negb (contained s e t)) tasks) tasks' /\
        scheduling' = scheduling ++ new /\
        Permutation (map e_nr new) (map nr (filter (contained s e) tasks))
  | Raise err => err <> UncaughtCut
  end.
Proof.
  intro Hnd. unfold loop_body_fl. rewrite get_intervals_fl_eq.
  destruct (lengths_nonzero _ _ _); cbn [bind]; [|discriminate].
  destruct (max_intensity_interval _) as [max_int|err] eqn:Emax; cbn [bind].
  2: { apply max_intensity_interval_Raise in Emax. destruct Emax as [_ ->].
       discriminate. }
  apply max_intensity_interval_In in Emax. apply in_all_intervals_fl in Emax.
  destruct Emax as [s [e [_ [_ [Hse ->]]]]].
  cbn [i_tasks i_start i_end mk_interval_fl].
  set (l := sorted dead (filter (contained s e) tasks)).
  assert (Hperm : Permutation l (filter (contained s e) tasks))
    by apply sorted_perm.
  destruct (for_each l _ _) as [[[pos' scheduling'] tasks']|err] eqn:Efor;
    cbn [bind].
  2: { eapply execute_loop_fl_Raise. exact Efor. }
  pose proof (execute_loop_fl_Ok_inv _ _ _ _ _ _ _ Efor) as Hc.
  destruct (execute_loop_fl_Ok rnd (mk_interval_fl rnd tasks s e) (fl_sub rnd e s)
               _ l Hc tasks s scheduling) as [pos'' [new [Hfor Hnew]]];
    [exact Hnd | | | rewrite Hfor in Efor].
  - apply (Permutation_NoDup (l := map oid (filter (contained s e) tasks))).
    + apply Permutation_map. now symmetry.
    + now apply distinct_filter.
  - intros x Hx. apply (Permutation_in _ Hperm) in Hx.
    apply filter_In in Hx. tauto.
  - inversion Efor; subst. clear Efor.
    rewrite (without_contained tasks s e l Hnd Hperm).
    destruct (map_result _ _) as [tasks''|err] eqn:Ecut; cbn [bind].
    + exists s, e, new. split; [now apply map_result_Ok_inv|].
      split; [reflexivity|]. rewrite Hnew. now apply Permutation_map.
    + apply map_result_Raise_inv in Ecut. destruct Ecut as [x [Hx Hr]].
      apply cut_fl_Raise in Hr. destruct Hr as [_ Hcont].
      apply filter_In in Hx. destruct Hx as [_ Hx]. rewrite Hcont in Hx.
      discriminate.
Qed.

Lemma loop_body_fl_step tasks scheduling tasks' scheduling' :
  NoDup (map oid tasks) ->
  loop_body_fl rnd set_iter tasks scheduling = Ok (tasks', scheduling') ->
  NoDup (map oid tasks') /\
  Permutation (map e_nr scheduling' ++ map nr tasks')
    (map e_nr scheduling ++ map nr tasks).
Proof.
  intros Hnd Hbody. pose proof (loop_body_fl_cases tasks scheduling Hnd) as H.
  rewrite Hbody in H. destruct H as [s [e [new [Hcut [-> Hnew]]]]].
  destruct (cuts_keep _ _ _ _ Hcut) as [Ho Hn]. split.
  - rewrite Ho. now apply distinct_filter.
  - rewrite Hn, map_app, <- app_assoc. apply Permutation_app_head.
    rewrite Hnew, <- map_app. apply Permutation_map. symmetry.
    apply filter_partition_perm.
Qed.

(** ** The float run, whatever the rounding *)

Lemma while_tasks_fl_more_fuel fuel :
  forall fuel' tasks scheduling r,
    (fuel <= fuel')%nat ->
    while_tasks_fl rnd set_iter fuel tasks scheduling = Some r ->
    while_tasks_fl rnd set_iter fuel' tasks scheduling = Some r.
Proof.
  induction fuel as [|fuel IH]; intros fuel' tasks scheduling r Hle Hrun.
  - destruct tasks; [|discriminate]. destruct fuel'; exact Hrun.
  - destruct fuel' as [|fuel']; [lia|].
    destruct tasks as [|t tasks]; [exact Hrun|].
    cbn [while_tasks_fl] in *.
    destruct (loop_body_fl rnd set_iter (t :: tasks) scheduling)
      as [[tasks' sch']|err]; [|exact Hrun].
    apply IH; [lia | exact Hrun].
Qed.

Lemma while_tasks_fl_sound fuel :
  forall tasks scheduling,
    NoDup (map oid tasks) ->
    match while_tasks_fl rnd set_iter fuel tasks scheduling with
    | Some (Ok schedule) =>
        Permutation (map e_nr schedule) (map e_nr scheduling ++ map nr tasks) /\
        StronglySorted (key_le e_start) schedule
    | Some (Raise err) => err <> UncaughtCut
    | None => True
    end.
Proof.
  induction fuel as [|fuel IH]; intros tasks scheduling Hnd;
    destruct tasks as [|t tasks];
    try (cbn [while_tasks_fl]; rewrite app_nil_r; split;
         [apply Permutation_map, sorted_perm | apply sorted_StronglySorted]).
  - exact I.
  - cbn [while_tasks_fl].
    pose proof (loop_body_fl_cases (t :: tasks) scheduling Hnd) as Hcases.
    destruct (loop_body_fl rnd set_iter (t :: tasks) scheduling)
      as [[tasks' scheduling']|err] eqn:Ebody; [|exact Hcases].
    destruct (loop_body_fl_step _ _ _ _ Hnd Ebody) as [Hnd' Hperm].
    specialize (IH tasks' scheduling' Hnd').
    destruct (while_tasks_fl rnd set_iter fuel tasks' scheduling')
      as [[schedule|err]|]; try exact IH.
    destruct IH as [IHp IHs]. split; [|exact IHs].
    now rewrite IHp.
Qed.

End LoopBodyFloat.

(** ** The float run on plain tasks *)

Lemma Forall2_Forall_r {A B : Type} (R : A -> B -> Prop) (P : B -> Prop)
    (l : list A) (l' : list B) :
  Forall2 R l l' -> (forall x y, In x l -> R x y -> P y) -> Forall P l'.
Proof.
  induction 1 as [|x y l l' Hxy _ IH]; intro H; constructor.
  - apply (H x); [now left | exact Hxy].
  - apply IH. intros x' y' Hin. apply H. now right.
Qed.

Lemma min_normal_pos : 0 < min_normal.
Proof. reflexivity. Qed.

(** An intensity of moderate workloads over a length below [2 ^ 53] does
    not underflow: [min_normal * 2 ^ 54 <= workload_floor]. *)
Lemma workload_floor_scale : min_normal * 18014398509481984 <= workload_floor.
Proof. vm_compute. discriminate. Qed.

Lemma small_integer_bounds (x : Q) :
  small_integer x -> - (4503599627370496) <= x /\ x <= 4503599627370496.
Proof.
  intros [z [Hz Hb]]. rewrite Hz.
  change 4503599627370496 with (inject_Z (2 ^ 52)).
  rewrite <- inject_Z_opp, <- !Zle_Qle. lia.
Qed.

Section ExactRun.
Context {ident : Type}.
Variable rnd : Q -> Q.
Variable set_iter : list Q -> list Q.
Hypothesis rnd_ok : rounds_like_double rnd.
Hypothesis set_ok : set_semantics set_iter.
Implicit Types (t : Task ident) (tasks : list (Task ident))
  (scheduling : list (Execution ident)).

Lemma rnd_zero (x : Q) : x == 0 -> rnd x == 0.
Proof.
  intro Hx. transitivity x; [|exact Hx].
  apply (proj1 rnd_ok x 0%Z); [exact Hx | reflexivity].
Qed.

Lemma rnd_half (x : Q) : min_normal <= x -> 0 < rnd x /\ x <= 2 * rnd x.
Proof.
  intro Hx. pose proof (proj2 rnd_ok x Hx). pose proof min_normal_pos.
  split; lra.
Qed.

(** A float sum of moderate workloads keeps at least half of one of them. *)
Lemma tmp_fl_floor (l : list (Task ident)) :
  Forall (fun t => workload_floor <= c t) l ->
  forall a, 0 <= a -> l <> [] \/ workload_floor <= 2 * a ->
  workload_floor
  <= 2 * fold_left (fun acc task => fl_add rnd acc (c task)) l a.
Proof.
  pose proof min_normal_pos as Hu. pose proof workload_floor_scale as Hscale.
  induction 1 as [|x l Hx _ IH]; intros a Ha Hne; simpl.
  - destruct Hne as [Hne|Hne]; [congruence | exact Hne].
  - destruct (rnd_half (a + c x)) as [Hpos Hhalf]; [lra|].
    apply IH; [unfold fl_add; lra | right; unfold fl_add; lra].
Qed.

Lemma c_sum_fl (l : list (Task ident)) :
  forall a, fold_left (fl_add rnd) (map c l) a
            = fold_left (fun acc task => fl_add rnd acc (c task)) l a.
Proof.
  induction l as [|x l IH]; intro a; simpl; [reflexivity | apply IH].
Qed.

Lemma plain_tasks_floor tasks (p : Task ident -> bool) :
  Forall plain_task tasks ->
  Forall (fun t => workload_floor <= c t) (filter p tasks).
Proof.
  intro H. apply Forall_forall. intros t Ht. apply filter_In in Ht.
  rewrite Forall_forall in H. now apply H.
Qed.

Lemma release_small tasks s :
  Forall plain_task tasks -> In s (set_iter (map release tasks)) ->
  small_integer s.
Proof.
  intros Hex Hs. apply (proj1 (set_ok _)) in Hs. apply in_map_iff in Hs.
  destruct Hs as [t [<- Ht]]. rewrite Forall_forall in Hex. now apply Hex.
Qed.

Lemma dead_small tasks e :
  Forall plain_task tasks -> In e (set_iter (map dead tasks)) ->
  small_integer e.
Proof.
  intros Hex He. apply (proj1 (set_ok _)) in He. apply in_map_iff in He.
  destruct He as [t [<- Ht]]. rewrite Forall_forall in Hex. now apply Hex.
Qed.

Lemma intensity_fl_pos tasks s e :
  Forall plain_task tasks -> small_integer s -> small_integer e -> s < e ->
  filter (contained s e) tasks <> [] ->
  0 < intensity (mk_interval_fl rnd tasks s e).
Proof.
  intros Hp Hs He Hse Hne. cbn [intensity mk_interval_fl]. unfold fl_div.
  pose proof (tmp_fl_floor _ (plain_tasks_floor tasks (contained s e) Hp) 0
                ltac:(lra) (or_introl Hne)) as Htmp.
  destruct (rnd_difference rnd rnd_ok s e Hs He) as [HD _].
  destruct (small_integer_bounds s Hs) as [Hs1 _].
  destruct (small_integer_bounds e He) as [_ He2].
  pose proof min_normal_pos as Hu. pose proof workload_floor_scale as Hscale.
  apply rnd_half. apply Qle_shift_div_l; [lra|].
  assert (min_normal * fl_sub rnd e s <= min_normal * 9007199254740992).
  { apply Qmult_le_l; [exact Hu | lra]. }
  lra.
Qed.

Lemma intensity_fl_zero tasks s e :
  filter (contained s e) tasks = [] ->
  intensity (mk_interval_fl rnd tasks s e) == 0.
Proof.
  intro Hnil. cbn [intensity mk_interval_fl]. rewrite Hnil. simpl.
  unfold fl_div. apply rnd_zero. unfold Qdiv. ring.
Qed.

(** While the working list is not empty there are candidate intervals and
    the first one of greatest intensity holds a task. *)
Lemma critical_interval_fl tasks :
  tasks <> [] -> exact_working_set tasks ->
  exists intervals s e,
    get_intervals_fl rnd set_iter tasks = Ok intervals /\ intervals <> [] /\
    max_intensity_interval intervals = Ok (mk_interval_fl rnd tasks s e) /\
    s < e /\ small_integer s /\ small_integer e /\
    filter (contained s e) tasks <> [].
Proof.
  intros Hne [[Hnd Hv] Hex].
  set (releases := set_iter (map release tasks)).
  set (deads := set_iter (map dead tasks)).
  exists (all_intervals_fl rnd releases deads tasks).
  assert (Hget : get_intervals_fl rnd set_iter tasks
                 = Ok (all_intervals_fl rnd releases deads tasks)).
  { rewrite get_intervals_fl_eq. fold releases deads.
    rewrite lengths_nonzero_true; [reflexivity|].
    intros s e Hs He Hse.
    destruct (rnd_difference rnd rnd_ok s e) as [HD _];
      [eapply release_small; eauto | eapply dead_small; eauto |].
    rewrite HD. lra. }
  destruct tasks as [|t tasks']; [congruence|]. set (tasks := t :: tasks') in *.
  assert (Ht : In t tasks) by now left.
  destruct (set_iter_complete set_iter set_ok (map release tasks) (release t))
    as [s0 [Hs0 Hs0in]]; [now apply in_map|].
  destruct (set_iter_complete set_iter set_ok (map dead tasks) (dead t))
    as [e0 [He0 He0in]]; [now apply in_map|].
  assert (Hvt : valid_task t) by (rewrite Forall_forall in Hv; now apply Hv).
  assert (Hse0 : s0 < e0) by (destruct Hvt; lra).
  assert (Hin0 : In (mk_interval_fl rnd tasks s0 e0)
                   (all_intervals_fl rnd releases deads tasks)).
  { apply in_all_intervals_fl. exists s0, e0. auto. }
  assert (Hne0 : filter (contained s0 e0) tasks <> []).
  { intro Hnil. assert (Hf : In t (filter (contained s0 e0) tasks)).
    { apply filter_In. split; [exact Ht|]. unfold contained.
      apply andb_true_iff. split; apply Qle_bool_iff; lra. }
    rewrite Hnil in Hf. contradiction. }
  destruct (max_intensity_interval_Ok (all_intervals_fl rnd releases deads tasks))
    as [best [Hbest [Hin Hmax]]].
  { intro Hnil. rewrite Hnil in Hin0. contradiction. }
  apply in_all_intervals_fl in Hin. destruct Hin as [s [e [Hs [He [Hse ->]]]]].
  exists s, e. split; [exact Hget|]. split.
  { intro Hnil. rewrite Hnil in Hin0. contradiction. }
  split; [exact Hbest|]. split; [exact Hse|].
  assert (Hss : small_integer s) by (eapply release_small; eauto).
  assert (Hes : small_integer e) by (eapply dead_small; eauto).
  split; [exact Hss|]. split; [exact Hes|].
  intro Hnil. apply intensity_fl_zero in Hnil.
  specialize (Hmax _ Hin0).
  assert (0 < intensity (mk_interval_fl rnd tasks s0 e0)).
  { apply intensity_fl_pos; try assumption.
    - eapply release_small; eauto.
    - eapply dead_small; eauto. }
  lra.
Qed.

(** One iteration returns a strictly shorter working list that satisfies
    the invariant again. *)
Lemma loop_body_fl_Ok tasks scheduling :
  tasks <> [] -> exact_working_set tasks ->
  exists tasks' scheduling',
    loop_body_fl rnd set_iter tasks scheduling = Ok (tasks', scheduling') /\
    (length tasks' < length tasks)%nat /\ exact_working_set tasks'.
Proof.
  intros Hne Hws.
  destruct (critical_interval_fl tasks Hne Hws)
    as [intervals [s [e [Hget [_ [Hmax [Hse [Hs [He Hin]]]]]]]]].
  destruct Hws as [[Hnd Hv] Hex].
  unfold loop_body_fl. rewrite Hget. cbn [bind]. rewrite Hmax. cbn [bind].
  cbn [i_tasks i_start i_end mk_interval_fl].
  set (l := sorted dead (filter (contained s e) tasks)).
  assert (Hperm : Permutation l (filter (contained s e) tasks))
    by apply sorted_perm.
  assert (Hc : 0 < fold_left (fl_add rnd) (map c l) 0).
  { rewrite c_sum_fl.
    assert (Hfloor : workload_floor
              <= 2 * fold_left (fun acc task => fl_add rnd acc (c task)) l 0).
    { apply tmp_fl_floor; [|lra|left].
      - apply (Permutation_Forall (Permutation_sym Hperm)).
        now apply plain_tasks_floor.
      - intro Hnil. apply Hin. apply Permutation_nil. rewrite <- Hnil.
        now symmetry. }
    pose proof min_normal_pos. pose proof workload_floor_scale. lra. }
  destruct (execute_loop_fl_Ok rnd (mk_interval_fl rnd tasks s e) (fl_sub rnd e s)
              (fold_left (fl_add rnd) (map c l) 0) l) with
    (tasks := tasks) (pos := s) (scheduling := scheduling)
    as [pos' [new [Hfor _]]].
  { right. lra. }
  { exact Hnd. }
  { apply (Permutation_NoDup (l := map oid (filter (contained s e) tasks))).
    - apply Permutation_map. now symmetry.
    - now apply distinct_filter. }
  { intros x Hx. apply (Permutation_in _ Hperm) in Hx.
    apply filter_In in Hx. tauto. }
  rewrite Hfor. cbn [bind]. rewrite (without_contained tasks s e l Hnd Hperm).
  set (outside := filter (fun t => negb (contained s e t)) tasks).
  assert (Hout : forall t, In t outside ->
            plain_task t /\ valid_task t /\ contained s e t = false).
  { intros t Ht. apply filter_In in Ht. destruct Ht as [Ht Hc'].
    rewrite Forall_forall in Hv, Hex. apply negb_true_iff in Hc'. auto. }
  destruct (map_result_Forall2 (fun task => cut_fl rnd task s e) outside)
    as [tasks' [Hcut HF]].
  { apply Forall_forall. intros t Ht.
    destruct (Hout t Ht) as [[Hw _] [[Hrd _] Hc']].
    destruct (cut_fl_exact_window rnd rnd_ok t s e) as [t' [Ht' _]]; eauto. }
  rewrite Hcut. cbn [bind]. exists tasks'. eexists. split; [reflexivity|].
  split; [|split; [split|]].
  - apply Forall2_length in HF. rewrite <- HF. unfold outside.
    pose proof (filter_length (contained s e) tasks) as Hlen.
    destruct (filter (contained s e) tasks); [congruence|]. simpl in Hlen. lia.
  - destruct (cuts_keep rnd s e outside tasks' HF) as [Ho _]. rewrite Ho.
    now apply distinct_filter.
  - eapply Forall2_Forall_r; [exact HF|]. cbv beta. intros t t' Ht Hcut'.
    destruct (Hout t Ht) as [[Hw _] [[Hrd Hwork] Hc']].
    destruct (cut_fl_exact_window rnd rnd_ok t s e) as [t'' [Ht'' [_ [Hct [Hrd' _]]]]];
      eauto.
    assert (t'' = t') by congruence. subst t''. split; [exact Hrd'|].
    now rewrite Hct.
  - eapply Forall2_Forall_r; [exact HF|]. cbv beta. intros t t' Ht Hcut'.
    destruct (Hout t Ht) as [[Hw Hmod] [[Hrd Hwork] Hc']].
    destruct (cut_fl_exact_window rnd rnd_ok t s e) as [t'' [Ht'' [_ [Hct [_ Hw']]]]];
      eauto.
    assert (t'' = t') by congruence. subst t''. split; [exact Hw'|].
    unfold moderate_workload. now rewrite Hct.
Qed.

Lemma while_tasks_fl_total fuel :
  forall tasks scheduling,
    (length tasks <= fuel)%nat -> exact_working_set tasks ->
    exists schedule,
      while_tasks_fl rnd set_iter fuel tasks scheduling = Some (Ok schedule).
Proof.
  induction fuel as [|fuel IH]; intros tasks scheduling Hlen Hws.
  - destruct tasks; [|simpl in Hlen; lia]. eexists. reflexivity.
  - destruct tasks as [|t tasks]; [eexists; reflexivity|].
    destruct (loop_body_fl_Ok (t :: tasks) scheduling)
      as [tasks' [scheduling' [Hbody [Hshort Hws']]]];
      [discriminate | exact Hws |].
    cbn [while_tasks_fl]. rewrite Hbody. apply IH; [|exact Hws'].
    simpl in *. lia.
Qed.

(** For a valid input of plain tasks the float run returns a schedule
    within as many iterations as there are tasks. *)
Lemma float_schedule_exists (descr : list (ident * Q * Q * Q)) :
  Forall valid_task (new_tasks 0 descr) ->
  Forall plain_task (new_tasks 0 descr) ->
  exists schedule,
    forall fuel, (length descr <= fuel)%nat ->
      calc_scheduling_fl rnd set_iter fuel (new_tasks 0 descr) = Some (Ok schedule).
Proof.
  intros Hv Hex.
  destruct (while_tasks_fl_total (length descr) (new_tasks 0 descr) [])
    as [schedule Hrun].
  - rewrite new_tasks_length. lia.
  - split; [now apply new_tasks_working_set | exact Hex].
  - exists schedule. intros fuel Hfuel. unfold calc_scheduling_fl.
    eapply while_tasks_fl_more_fuel; [exact Hfuel | exact Hrun].
Qed.

End ExactRun.

(** In exact arithmetic nothing is rounded: the exact model is the float
    model with the identity for [rnd]. *)
Lemma unrounded_run {ident : Type} (set_iter : list Q -> list Q) (fuel : nat)
    (tasks : list (Task ident)) :
  calc_scheduling_fl (fun x => x) set_iter fuel tasks
  = calc_scheduling set_iter fuel tasks.
Proof. reflexivity. Qed.

Lemma unrounded_cut {ident : Type} (t : Task ident) (s e : Q) :
  cut_fl (fun x => x) t s e = cut t s e.
Proof. reflexivity. Qed.
(** * Properties of the scheduler *)

(** The result of a run does not depend on the fuel that was left over. *)
Lemma schedule_unique {ident : Type} (set_iter : list Q -> list Q)
    (tasks : list (Task ident)) (fuel fuel' : nat)
    (r r' : result (list (Execution ident))) :
  calc_scheduling set_iter fuel tasks = Some r ->
  calc_scheduling set_iter fuel' tasks = Some r' -> r = r'.
Proof.
  unfold calc_scheduling. intros H H'.
  apply (while_tasks_more_fuel set_iter fuel (Nat.max fuel fuel'))
    in H; [|apply Nat.le_max_l].
  apply (while_tasks_more_fuel set_iter fuel' (Nat.max fuel fuel'))
    in H'; [|apply Nat.le_max_r].
  congruence.
Qed.

Section Claims.
Context {ident : Type}.
Variable set_iter : list Q -> list Q.
Hypothesis set_ok : set_semantics set_iter.
Implicit Types (descr : list (ident * Q * Q * Q)) (t : Task ident).

(** C4 (amended): for a task with [release <= dead] that is not contained
    in the interval [[cstart, cend)], [cstart < cend], exactly one of the
    five cases of the cutting table applies and [cut] returns the task
    updated as that case states; in particular a task overlapping the end
    of the interval gets [distance] added to its offset, its release set to
    [cstart] and its deadline decreased by [distance], workload unchanged. *)
Theorem cut_follows_table_when_not_contained t (cstart cend : Q) :
  cstart < cend -> release t <= dead t -> contained cstart cend t = false ->
  cut_follows_table t cstart cend /\
  (release t < cend -> cend < dead t -> cstart <= release t ->
   cut t cstart cend
   = Ok (mkTask (oid t) (nr t) cstart (dead t - (cend - cstart)) (c t)
           (offset t + (cend - cstart)))).
Proof.
  intros Hse Hrd Hc. split; [now apply cut_follows_table_outside|].
  intros H1 H2 H3.
  destruct (cut_follows_table_outside t cstart cend Hse Hrd Hc)
    as [k [Hk [_ Hcut]]].
  destruct k; simpl in Hk; try (exfalso; lra). exact Hcut.
Qed.

(** C10: on the empty task list the loop body is never entered and the
    result is the empty schedule. *)
Theorem calc_scheduling_empty (fuel : nat) :
  calc_scheduling set_iter fuel (@nil (Task ident)) = Some (Ok []).
Proof. destruct fuel; reflexivity. Qed.

(** C2: in exact rational arithmetic, whenever a run on a valid input
    returns a schedule, its executions pair off with the input tasks so
    that each execution carries its task's identifier and its duration
    times its frequency equals the task's workload; and on a valid input
    of plain tasks (release times and deadlines whole numbers below
    [2 ^ 52] in magnitude, workloads between [2 ^ -500] and [2 ^ 500]:
    where double arithmetic decides as exact arithmetic does) the run does
    return a schedule. *)
Theorem work_conservation descr :
  Forall valid_task (new_tasks 0 descr) ->
  (forall fuel schedule,
     calc_scheduling set_iter fuel (new_tasks 0 descr) = Some (Ok schedule) ->
     exists done,
       Permutation done (new_tasks 0 descr) /\
       Forall2 (fun task ex =>
                  e_nr ex = nr task /\
                  (e_end ex - e_start ex) * frequency ex == c task)
         done schedule) /\
  (Forall plain_task (new_tasks 0 descr) ->
   exists schedule,
     forall fuel, (length descr <= fuel)%nat ->
       calc_scheduling set_iter fuel (new_tasks 0 descr) = Some (Ok schedule)).
Proof.
  intro Hvalid. destruct (release_lower_bound (new_tasks 0 descr)) as [m Hm].
  destruct (schedule_exists set_iter set_ok descr m Hvalid Hm)
    as [schedule0 [done [Hrun [Hperm [Hdone _]]]]].
  split.
  - intros fuel schedule Hret.
    assert (Heq : Ok schedule = Ok schedule0).
    { eapply schedule_unique; [exact Hret | apply (Hrun (length descr)); lia]. }
    inversion Heq; subst schedule0.
    exists done. split; [exact Hperm|].
    eapply Forall2_impl; [|exact Hdone]. simpl. unfold scheduled. tauto.
  - intros _. exists schedule0. exact Hrun.
Qed.


End Claims.

(** ** Properties of the float run *)

Section FloatClaims.
Context {ident : Type}.
Variable rnd : Q -> Q.
Variable set_iter : list Q -> list Q.
Implicit Types (descr : list (ident * Q * Q * Q)) (t : Task ident).

Lemma new_tasks_distinct descr : NoDup (map oid (new_tasks 0 descr)).
Proof. rewrite new_tasks_oid. apply seq_NoDup. Qed.

(** C9 (amended): a cut of a task with [release < dead] by an interval
    with [start < end] whose subtractions are exact (the length of the
    interval, and release and deadline moved back by it) never yields an
    empty window: whenever the cut returns a task, that task still has
    [release < dead] strictly.  The subtractions are exact when release,
    deadline and the ends of the interval are whole numbers below [2 ^ 52]
    in magnitude, and the task returned is again on such numbers.  The cut
    does return a task unless the task lies inside the interval.  With the
    identity for [rnd] this is [cut] in exact arithmetic. *)
Theorem cut_preserves_window t (s e : Q) :
  release t < dead t -> s < e ->
  (fl_sub rnd e s == e - s ->
   fl_sub rnd (release t) (fl_sub rnd e s) == release t - (e - s) ->
   fl_sub rnd (dead t) (fl_sub rnd e s) == dead t - (e - s) ->
   forall t', cut_fl rnd t s e = Ok t' -> release t' < dead t') /\
  (rounds_like_double rnd ->
   exact_window t -> small_integer s -> small_integer e ->
   forall t', cut_fl rnd t s e = Ok t' ->
     release t' < dead t' /\ exact_window t') /\
  (contained s e t = false -> exists t', cut_fl rnd t s e = Ok t').
Proof.
  intros Hw Hse. split; [|split].
  - intros HD Hrel Hdead t'. unfold cut_fl. cbv zeta.
    repeat match goal with
    | |- context [if ?b then _ else _] => destruct b eqn:?
    end; qbool; intro Hcut; inversion Hcut; subst; cbn [release dead];
      try rewrite Hrel; try rewrite Hdead; lra.
  - intros Hrnd Hex Hs He t' Hcut.
    destruct (contained s e t) eqn:Hc.
    + rewrite (cut_fl_inside rnd t s e Hw Hc) in Hcut. discriminate.
    + destruct (cut_fl_exact_window rnd Hrnd t s e Hex Hs He Hse Hw Hc)
        as [t'' [Hcut' [_ [_ [Hw' Hex']]]]].
      assert (t'' = t') by congruence. subst t''. now split.
  - intro Hc. destruct (cut_fl rnd t s e) as [t'|err] eqn:E; [now exists t'|].
    apply cut_fl_Raise in E. destruct E as [_ E]. congruence.
Qed.

(** C5: whatever the rounding, the last branch of the cut is taken exactly
    for a task contained in the interval, and no run takes it: whatever the
    fuel, the run does not end with the exception of that branch; and on a
    valid input of plain tasks the run returns a schedule. *)
Theorem cut_fall_through_unreachable descr :
  (forall t (s e : Q), release t < dead t ->
     (cut_fl rnd t s e = Raise UncaughtCut <-> contained s e t = true)) /\
  (forall fuel,
     calc_scheduling_fl rnd set_iter fuel (new_tasks 0 descr)
     <> Some (Raise UncaughtCut)) /\
  (rounds_like_double rnd -> set_semantics set_iter ->
   Forall valid_task (new_tasks 0 descr) ->
   Forall plain_task (new_tasks 0 descr) ->
   exists schedule,
     forall fuel, (length descr <= fuel)%nat ->
       calc_scheduling_fl rnd set_iter fuel (new_tasks 0 descr)
       = Some (Ok schedule)).
Proof.
  split; [|split].
  - intros t s e Hw. split.
    + intro Hcut. now apply cut_fl_Raise in Hcut.
    + now apply cut_fl_inside.
  - intros fuel Hrun. unfold calc_scheduling_fl in Hrun.
    pose proof (while_tasks_fl_sound rnd set_iter fuel (new_tasks 0 descr) []
                  (new_tasks_distinct descr)) as H.
    rewrite Hrun in H. now apply H.
  - intros Hrnd Hset Hvalid Hexact. now apply float_schedule_exists.
Qed.

(** C6 (amended): for a valid input of plain tasks (release times and
    deadlines whole numbers below [2 ^ 52] in magnitude, workloads between
    [2 ^ -500] and [2 ^ 500]) the float run terminates: while the working
    list is not empty, [get_intervals] returns a non-empty candidate list,
    the interval of greatest intensity contains a task, and the iteration
    leaves a strictly shorter working list that again satisfies the loop
    invariant; hence the run returns a schedule within as many iterations
    as there are tasks. *)
Theorem calc_scheduling_terminates descr :
  rounds_like_double rnd -> set_semantics set_iter ->
  Forall valid_task (new_tasks 0 descr) ->
  Forall plain_task (new_tasks 0 descr) ->
  (forall tasks : list (Task ident),
     tasks <> [] -> exact_working_set tasks ->
     exists intervals max_int,
       get_intervals_fl rnd set_iter tasks = Ok intervals /\ intervals <> [] /\
       max_intensity_interval intervals = Ok max_int /\
       i_tasks max_int <> [] /\
       forall scheduling, exists tasks' scheduling',
         loop_body_fl rnd set_iter tasks scheduling = Ok (tasks', scheduling') /\
         (length tasks' < length tasks)%nat /\ exact_working_set tasks') /\
  exact_working_set (new_tasks 0 descr) /\
  exists schedule,
    forall fuel, (length descr <= fuel)%nat ->
      calc_scheduling_fl rnd set_iter fuel (new_tasks 0 descr) = Some (Ok schedule).
Proof.
  intros Hrnd Hset Hvalid Hexact. split; [|split].
  - intros tasks Hne Hws.
    destruct (critical_interval_fl rnd set_iter Hrnd Hset tasks Hne Hws)
      as [intervals [s [e [Hget [Hcand [Hmax [_ [_ [_ Hin]]]]]]]]].
    exists intervals, (mk_interval_fl rnd tasks s e).
    split; [exact Hget|]. split; [exact Hcand|]. split; [exact Hmax|].
    split; [exact Hin|].
    intro scheduling. now apply loop_body_fl_Ok.
  - split; [now apply new_tasks_working_set | exact Hexact].
  - now apply float_schedule_exists.
Qed.

(** C7 (amended): whatever the rounding, every schedule that a run
    returns holds exactly one execution per input task: the identifiers of
    the executions are, with multiplicity, the identifiers of the input
    tasks; and on a valid input of plain tasks (release times and deadlines
    whole numbers below [2 ^ 52] in magnitude, workloads between
    [2 ^ -500] and [2 ^ 500]) the run returns a schedule. *)
Theorem one_execution_per_task descr :
  (forall fuel schedule,
     calc_scheduling_fl rnd set_iter fuel (new_tasks 0 descr) = Some (Ok schedule) ->
     length schedule = length descr /\
     Permutation (map e_nr schedule) (map nr (new_tasks 0 descr))) /\
  (rounds_like_double rnd -> set_semantics set_iter ->
   Forall valid_task (new_tasks 0 descr) ->
   Forall plain_task (new_tasks 0 descr) ->
   exists schedule,
     forall fuel, (length descr <= fuel)%nat ->
       calc_scheduling_fl rnd set_iter fuel (new_tasks 0 descr)
       = Some (Ok schedule)).
Proof.
  split.
  - intros fuel schedule Hrun. unfold calc_scheduling_fl in Hrun.
    pose proof (while_tasks_fl_sound rnd set_iter fuel (new_tasks 0 descr) []
                  (new_tasks_distinct descr)) as H.
    rewrite Hrun in H. destruct H as [Hperm _]. simpl in Hperm.
    split; [|exact Hperm].
    rewrite <- (length_map e_nr), (Permutation_length Hperm), length_map.
    apply new_tasks_length.
  - intros Hrnd Hset Hvalid Hexact. now apply float_schedule_exists.
Qed.

(** C8: whatever the rounding, every schedule that a run returns is in
    ascending order of the executions' start; and on a valid input of plain
    tasks the run returns a schedule. *)
Theorem schedule_sorted_by_start descr :
  (forall fuel schedule,
     calc_scheduling_fl rnd set_iter fuel (new_tasks 0 descr) = Some (Ok schedule) ->
     StronglySorted (fun a b => e_start a <= e_start b) schedule) /\
  (rounds_like_double rnd -> set_semantics set_iter ->
   Forall valid_task (new_tasks 0 descr) ->
   Forall plain_task (new_tasks 0 descr) ->
   exists schedule,
     forall fuel, (length descr <= fuel)%nat ->
       calc_scheduling_fl rnd set_iter fuel (new_tasks 0 descr)
       = Some (Ok schedule)).
Proof.
  split.
  - intros fuel schedule Hrun. unfold calc_scheduling_fl in Hrun.
    pose proof (while_tasks_fl_sound rnd set_iter fuel (new_tasks 0 descr) []
                  (new_tasks_distinct descr)) as H.
    rewrite Hrun in H. apply H.
  - intros Hrnd Hset Hvalid Hexact. now apply float_schedule_exists.
Qed.

End FloatClaims.

(** ** Inputs that the data model excludes *)

Section SingleTask.
Context {ident : Type}.
Variable set_iter : list Q -> list Q.
Hypothesis set_ok : set_semantics set_iter.

Lemma set_iter_singleton (x : Q) : set_iter [x] = [x].
Proof.
  destruct (set_ok [x]) as [Hin [Hall Hnd]].
  destruct (set_iter [x]) as [|y l].
  - specialize (Hall x (or_introl eq_refl)). inversion Hall.
  - assert (y = x) by (destruct (Hin y (or_introl eq_refl)) as [H|[]]; auto).
    subst y. destruct l as [|z l]; [reflexivity|].
    assert (z = x).
    { destruct (Hin z (or_intror (or_introl eq_refl))) as [H|[]]; auto. }
    subst z. inversion Hnd as [|? ? Hx _]; subst.
    exfalso. apply Hx. now constructor.
Qed.

Lemma single_task_intervals (n : ident) (r d w : Q) :
  get_intervals set_iter [Task_init 0 n r d w]
  = Ok (if Qlt_bool r d then [mk_interval [Task_init 0 n r d w] r d] else []).
Proof.
  rewrite get_intervals_Ok. cbn [map release dead Task_init].
  rewrite !set_iter_singleton. unfold all_intervals. cbn [flat_map].
  rewrite !app_nil_r. reflexivity.
Qed.

(** C3 (amended): [calc_scheduling] has no validation step and no
    [InvalidTask] error; what an invalid task does is decided inside the
    loop.  For a list of one task: with [release >= dead] there is no
    candidate interval and [max] raises [ValueError]; with [release < dead]
    and workload zero the division by [c_sum] raises [ZeroDivisionError];
    with [release < dead] and any other workload, negative ones included,
    the run returns one execution over [[release, dead)] at frequency
    [c / (dead - release)]. *)
Theorem single_task_outcomes (n : ident) (r d w : Q) (fuel : nat) :
  (1 <= fuel)%nat ->
  let run := calc_scheduling set_iter fuel [Task_init 0 n r d w] in
  (d <= r -> run = Some (Raise ValueError)) /\
  (r < d -> w == 0 -> run = Some (Raise ZeroDivisionError)) /\
  (r < d -> ~ w == 0 ->
   exists ex, run = Some (Ok [ex]) /\
     e_nr ex = n /\ e_start ex == r /\ e_end ex == d /\
     frequency ex == w / (d - r)).
Proof.
  intros Hfuel run. subst run. destruct fuel as [|fuel]; [lia|].
  unfold calc_scheduling. cbn [while_tasks]. unfold loop_body.
  rewrite single_task_intervals.
  split; [|split].
  - intro Hdr. apply Qlt_bool_false in Hdr. rewrite Hdr. reflexivity.
  - intros Hrd Hw. pose proof Hrd as Hlt. apply Qlt_bool_iff in Hlt. rewrite Hlt.
    cbn [bind max_intensity_interval fold_left i_tasks mk_interval filter].
    assert (Hc : contained r d (Task_init 0 n r d w) = true).
    { unfold contained. cbn [release dead Task_init].
      apply andb_true_iff. split; apply Qle_bool_iff; lra. }
    rewrite Hc. cbn [sorted fold_right insert_by map for_each execute_task
                       c Task_init fold_left].
    assert (Hz : Qeq_bool (0 + w) 0 = true) by (apply Qeq_bool_iff; lra).
    rewrite Hz. reflexivity.
  - intros Hrd Hw. pose proof Hrd as Hlt. apply Qlt_bool_iff in Hlt. rewrite Hlt.
    cbn [bind max_intensity_interval fold_left i_tasks mk_interval filter].
    assert (Hc : contained r d (Task_init 0 n r d w) = true).
    { unfold contained. cbn [release dead Task_init].
      apply andb_true_iff. split; apply Qle_bool_iff; lra. }
    rewrite Hc. cbn [sorted fold_right insert_by map for_each execute_task
                       c Task_init fold_left].
    assert (Hz : Qeq_bool (0 + w) 0 = false) by (apply Qeq_bool_false; lra).
    rewrite Hz.
    cbn [list_remove oid Nat.eqb bind map_result app i_start i_end intensity
         nr offset].
    destruct fuel; cbn [while_tasks sorted fold_right insert_by];
      (eexists; split; [reflexivity|]);
      cbn [e_nr e_start e_end frequency i_start i_end intensity mk_interval
           offset nr Task_init filter];
      rewrite ?Hc; cbn [fold_left c Task_init];
      (repeat split; [lra | field; lra | field; lra]).
Qed.

End SingleTask.

(** * The theorems on sample inputs *)

Ltac valid_input := repeat constructor.

Lemma main_tasks_valid : Forall valid_task (new_tasks 0 main_tasks).
Proof. valid_input. Defined.

Lemma two_tasks_valid : Forall valid_task (new_tasks 0 two_tasks).
Proof. valid_input. Defined.

Ltac plain_input :=
  repeat constructor;
  match goal with
  | |- small_integer ?q =>
      let z := eval vm_compute in (Qnum q) in
      exists z; split; reflexivity
  | |- _ <= _ => vm_compute; discriminate
  end.

Lemma main_tasks_plain : Forall plain_task (new_tasks 0 main_tasks).
Proof. plain_input. Defined.

Lemma two_tasks_plain : Forall plain_task (new_tasks 0 two_tasks).
Proof. plain_input. Defined.

Lemma tail_task_exact : exact_window tail_task.
Proof. plain_input. Defined.

Lemma small_5 : small_integer 5.
Proof. plain_input. Defined.

Lemma small_10 : small_integer 10.
Proof. plain_input. Defined.

Lemma cut_preserves_window_witness :
  release tail_task < dead tail_task /\ 5 < 10 /\
  fl_sub rnd53 10 5 == 10 - 5 /\
  fl_sub rnd53 (release tail_task) (fl_sub rnd53 10 5)
  == release tail_task - (10 - 5) /\
  fl_sub rnd53 (dead tail_task) (fl_sub rnd53 10 5)
  == dead tail_task - (10 - 5) /\
  rounds_like_double rnd53 /\ exact_window tail_task /\
  small_integer 5 /\ small_integer 10 /\
  (forall t', cut_fl rnd53 tail_task 5 10 = Ok t' ->
     release t' < dead t' /\ exact_window t') /\
  (contained 5 10 tail_task = false ->
   exists t', cut_fl rnd53 tail_task 5 10 = Ok t').
Proof.
  assert (H1 : release tail_task < dead tail_task) by reflexivity.
  assert (H2 : 5 < 10) by reflexivity.
  assert (H3 : fl_sub rnd53 10 5 == 10 - 5) by (vm_compute; reflexivity).
  assert (H4 : fl_sub rnd53 (release tail_task) (fl_sub rnd53 10 5)
               == release tail_task - (10 - 5)) by (vm_compute; reflexivity).
  assert (H5 : fl_sub rnd53 (dead tail_task) (fl_sub rnd53 10 5)
               == dead tail_task - (10 - 5)) by (vm_compute; reflexivity).
  pose proof (cut_preserves_window rnd53 tail_task 5 10 H1 H2)
    as [_ [Hexact Hreturns]].
  repeat (split; [assumption|]).
  split; [exact rnd53_rounds_like_double|]. split; [exact tail_task_exact|].
  split; [exact small_5|]. split; [exact small_10|].
  split; [|exact Hreturns].
  exact (Hexact rnd53_rounds_like_double tail_task_exact small_5 small_10).
Defined.

(** C9, as stated, fails on floats: the task [(B, 1e16, 1e16 + 2)] cut by
    [[0.0, 1.0)] lies after the interval, both ends are moved back by 1 and
    both results round to [1e16]. *)
Lemma cut_collapses_window :
  release wide_task < dead wide_task /\ 0 < 1 /\
  exists t', cut_fl rnd53 wide_task 0 1 = Ok t' /\ release t' == dead t'.
Proof.
  split; [reflexivity|]. split; [reflexivity|].
  exists (mkTask 0 "B"%string 10000000000000000 10000000000000000 1 1).
  split; [vm_compute; reflexivity | reflexivity].
Qed.

Lemma cut_follows_table_witness :
  5 < 10 /\ release tail_task <= dead tail_task /\
  contained 5 10 tail_task = false /\
  cut_follows_table tail_task 5 10 /\
  (release tail_task < 10 -> 10 < dead tail_task -> 5 <= release tail_task ->
   cut tail_task 5 10
   = Ok (mkTask (oid tail_task) (nr tail_task) 5 (dead tail_task - (10 - 5))
           (c tail_task) (offset tail_task + (10 - 5)))).
Proof.
  assert (H1 : 5 < 10) by reflexivity.
  assert (H2 : release tail_task <= dead tail_task) by discriminate.
  assert (H3 : contained 5 10 tail_task = false) by reflexivity.
  split; [exact H1|]. split; [exact H2|]. split; [exact H3|].
  exact (cut_follows_table_when_not_contained tail_task 5 10 H1 H2 H3).
Defined.

(** C4, as stated, fails for a task inside the interval: none of the five
    cases applies and [cut] raises. *)
Lemma cut_table_not_exhaustive :
  release inside_task < dead inside_task /\ 0 < 10 /\
  cut inside_task 0 10 = Raise UncaughtCut /\
  ~ cut_follows_table inside_task 0 10.
Proof.
  split; [reflexivity|]. split; [reflexivity|]. split; [reflexivity|].
  intros [k [_ [_ Hcut]]].
  assert (Hraise : cut inside_task 0 10 = Raise UncaughtCut) by reflexivity.
  rewrite Hraise in Hcut. discriminate.
Qed.

(** Without [release <= dead] the relations of the table overlap: for
    [inverted_task] and the interval [[2, 5)] both "entirely after" and
    "entirely before" hold, and [cut] takes the first. *)
Lemma cut_table_overlap_inverted_window :
  table_relation EntirelyAfter inverted_task 2 5 /\
  table_relation EntirelyBefore inverted_task 2 5 /\
  cut inverted_task 2 5 = Ok (table_action EntirelyAfter inverted_task 2 5).
Proof.
  split; [discriminate|]. split; [discriminate | reflexivity].
Qed.

Lemma schedule_sorted_by_start_witness :
  (forall fuel schedule,
     calc_scheduling_fl rnd53 set_first fuel (new_tasks 0 main_tasks)
     = Some (Ok schedule) ->
     StronglySorted (fun a b => e_start a <= e_start b) schedule) /\
  rounds_like_double rnd53 /\ set_semantics set_first /\
  Forall valid_task (new_tasks 0 main_tasks) /\
  Forall plain_task (new_tasks 0 main_tasks) /\
  exists schedule,
    forall fuel, (length main_tasks <= fuel)%nat ->
      calc_scheduling_fl rnd53 set_first fuel (new_tasks 0 main_tasks)
      = Some (Ok schedule).
Proof.
  pose proof (schedule_sorted_by_start rnd53 set_first main_tasks) as [Hsound Hrun].
  split; [exact Hsound|].
  split; [exact rnd53_rounds_like_double|]. split; [exact set_first_semantics|].
  split; [exact main_tasks_valid|]. split; [exact main_tasks_plain|].
  exact (Hrun rnd53_rounds_like_double set_first_semantics main_tasks_valid
           main_tasks_plain).
Defined.

Lemma one_execution_per_task_witness :
  (forall fuel schedule,
     calc_scheduling_fl rnd53 set_first fuel (new_tasks 0 main_tasks)
     = Some (Ok schedule) ->
     length schedule = length main_tasks /\
     Permutation (map e_nr schedule) (map nr (new_tasks 0 main_tasks))) /\
  rounds_like_double rnd53 /\ set_semantics set_first /\
  Forall valid_task (new_tasks 0 main_tasks) /\
  Forall plain_task (new_tasks 0 main_tasks) /\
  exists schedule,
    forall fuel, (length main_tasks <= fuel)%nat ->
      calc_scheduling_fl rnd53 set_first fuel (new_tasks 0 main_tasks)
      = Some (Ok schedule).
Proof.
  pose proof (one_execution_per_task rnd53 set_first main_tasks) as [Hsound Hrun].
  split; [exact Hsound|].
  split; [exact rnd53_rounds_like_double|]. split; [exact set_first_semantics|].
  split; [exact main_tasks_valid|]. split; [exact main_tasks_plain|].
  exact (Hrun rnd53_rounds_like_double set_first_semantics main_tasks_valid
           main_tasks_plain).
Defined.

Lemma work_conservation_witness :
  Forall valid_task (new_tasks 0 main_tasks) /\
  (forall fuel schedule,
     calc_scheduling set_first fuel (new_tasks 0 main_tasks) = Some (Ok schedule) ->
     exists done,
       Permutation done (new_tasks 0 main_tasks) /\
       Forall2 (fun task ex =>
                  e_nr ex = nr task /\
                  (e_end ex - e_start ex) * frequency ex == c task)
         done schedule) /\
  Forall plain_task (new_tasks 0 main_tasks) /\
  exists schedule,
    forall fuel, (length main_tasks <= fuel)%nat ->
      calc_scheduling set_first fuel (new_tasks 0 main_tasks) = Some (Ok schedule).
Proof.
  pose proof (work_conservation set_first set_first_semantics main_tasks
                main_tasks_valid) as [Hsound Hrun].
  split; [exact main_tasks_valid|]. split; [exact Hsound|].
  split; [exact main_tasks_plain|]. exact (Hrun main_tasks_plain).
Defined.

Lemma two_tasks_released : Forall (fun task => 0 <= release task) (new_tasks 0 two_tasks).
Proof. repeat constructor; discriminate. Defined.



Lemma cut_fall_through_unreachable_witness :
  (forall (t : Task string) (s e : Q), release t < dead t ->
     (cut_fl rnd53 t s e = Raise UncaughtCut <-> contained s e t = true)) /\
  (forall fuel,
     calc_scheduling_fl rnd53 set_first fuel (new_tasks 0 main_tasks)
     <> Some (Raise UncaughtCut)) /\
  rounds_like_double rnd53 /\ set_semantics set_first /\
  Forall valid_task (new_tasks 0 main_tasks) /\
  Forall plain_task (new_tasks 0 main_tasks) /\
  exists schedule,
    forall fuel, (length main_tasks <= fuel)%nat ->
      calc_scheduling_fl rnd53 set_first fuel (new_tasks 0 main_tasks)
      = Some (Ok schedule).
Proof.
  pose proof (cut_fall_through_unreachable rnd53 set_first main_tasks)
    as [Hbranch [Hnever Hrun]].
  split; [exact Hbranch|]. split; [exact Hnever|].
  split; [exact rnd53_rounds_like_double|]. split; [exact set_first_semantics|].
  split; [exact main_tasks_valid|]. split; [exact main_tasks_plain|].
  exact (Hrun rnd53_rounds_like_double set_first_semantics main_tasks_valid
           main_tasks_plain).
Defined.

Lemma calc_scheduling_terminates_witness :
  rounds_like_double rnd53 /\ set_semantics set_first /\
  Forall valid_task (new_tasks 0 main_tasks) /\
  Forall plain_task (new_tasks 0 main_tasks) /\
  exact_working_set (new_tasks 0 main_tasks) /\
  exists schedule,
    forall fuel, (length main_tasks <= fuel)%nat ->
      calc_scheduling_fl rnd53 set_first fuel (new_tasks 0 main_tasks)
      = Some (Ok schedule).
Proof.
  split; [exact rnd53_rounds_like_double|]. split; [exact set_first_semantics|].
  split; [exact main_tasks_valid|]. split; [exact main_tasks_plain|].
  exact (proj2 (calc_scheduling_terminates rnd53 set_first main_tasks
                  rnd53_rounds_like_double set_first_semantics
                  main_tasks_valid main_tasks_plain)).
Defined.

Lemma wide_tasks_valid : Forall valid_task (new_tasks 0 wide_tasks).
Proof. valid_input. Defined.

(** C6, as stated, fails on floats: on the valid input
    [[B(1e16, 1e16 + 2, 1.0); A(0.0, 1.0, 7.0)]] the first iteration serves
    A on [[0, 1)] and cuts B, whose release and deadline both round to
    [1e16]; in the second iteration the working list holds B, no release
    is smaller than a deadline, [get_intervals] returns the empty list and
    [max] raises [ValueError]. *)
Lemma float_run_raises :
  Forall valid_task (new_tasks 0 wide_tasks) /\
  (exists B',
     loop_body_fl rnd53 set_first (new_tasks 0 wide_tasks) []
     = Ok ([B'], [mkExecution "A"%string 0 1 7]) /\
     release B' == dead B' /\
     get_intervals_fl rnd53 set_first [B'] = Ok []) /\
  forall fuel, (2 <= fuel)%nat ->
    calc_scheduling_fl rnd53 set_first fuel (new_tasks 0 wide_tasks)
    = Some (Raise ValueError).
Proof.
  split; [exact wide_tasks_valid|]. split.
  - exists (mkTask 0 "B"%string 10000000000000000 10000000000000000 1 1).
    split; [vm_compute; reflexivity|]. split; reflexivity.
  - intros fuel Hfuel. unfold calc_scheduling_fl.
    apply (while_tasks_fl_more_fuel rnd53 set_first 2); [exact Hfuel|].
    vm_compute. reflexivity.
Qed.

(** C7, as stated, fails on floats: on the same valid input no run returns
    a schedule, whatever the fuel, so that B is not scheduled at all. *)
Lemma float_run_schedules_nothing :
  Forall valid_task (new_tasks 0 wide_tasks) /\
  forall fuel schedule,
    calc_scheduling_fl rnd53 set_first fuel (new_tasks 0 wide_tasks)
    <> Some (Ok schedule).
Proof.
  split; [exact wide_tasks_valid|]. intros fuel schedule Hrun.
  unfold calc_scheduling_fl in Hrun.
  apply (while_tasks_fl_more_fuel rnd53 set_first fuel (Nat.max fuel 2))
    in Hrun; [|apply Nat.le_max_l].
  assert (Hraise : while_tasks_fl rnd53 set_first 2 (new_tasks 0 wide_tasks) []
                   = Some (Raise ValueError)) by (vm_compute; reflexivity).
  apply (while_tasks_fl_more_fuel rnd53 set_first 2 (Nat.max fuel 2))
    in Hraise; [|apply Nat.le_max_r].
  congruence.
Qed.

Lemma single_task_outcomes_witness :
  (1 <= 1)%nat /\
  exists ex,
    calc_scheduling set_first 1 (new_tasks 0 negative_task) = Some (Ok [ex]) /\
    e_nr ex = "A"%string /\ e_start ex == 0 /\ e_end ex == 10 /\
    frequency ex == -5 / (10 - 0).
Proof.
  split; [exact (le_n 1)|].
  apply (single_task_outcomes set_first set_first_semantics "A"%string 0 10 (-5) 1
           (le_n 1)).
  - reflexivity.
  - discriminate.
Defined.

(** C3, as stated, fails on [negative_task]: the task has a negative
    workload, and the run returns a schedule with an execution for it. *)
Lemma invalid_task_not_rejected :
  Exists invalid_task (new_tasks 0 negative_task) /\
  exists ex,
    calc_scheduling set_first 1 (new_tasks 0 negative_task) = Some (Ok [ex]) /\
    e_nr ex = "A"%string /\ frequency ex < 0.
Proof.
  split.
  - constructor. right. discriminate.
  - eexists. split; [vm_compute; reflexivity|]. split; reflexivity.
Qed.

(** The same failure for every iteration order of the sets: among the four
    candidate intervals of [two_tasks] only [[0, 10)] is critical. *)
Lemma two_tasks_critical (s e : Q) :
  critical (new_tasks 0 two_tasks) s e -> s = 0 /\ e = 10.
Proof.
  intros [Hs [He [_ Hmax]]].
  assert (H0 : In 0 (map release (new_tasks 0 two_tasks))) by (now left).
  assert (H10 : In 10 (map dead (new_tasks 0 two_tasks))) by (now left).
  specialize (Hmax 0 10 H0 H10 eq_refl). apply Qle_bool_iff in Hmax.
  simpl in Hs, He.
  destruct Hs as [<-|[<-|[]]]; destruct He as [<-|[<-|[]]];
    solve [split; reflexivity | vm_compute in Hmax; discriminate Hmax].
Qed.

Lemma execution_before_release_any_order (set_iter : list Q -> list Q) :
  set_semantics set_iter -> ~ within_original_windows set_iter two_tasks.
Proof.
  intros set_ok [schedule [done [Hrun [Hperm Hall]]]].
  destruct (loop_body_Ok set_iter set_ok (new_tasks 0 two_tasks) [])
    as [s [e [tasks' [Hcrit [_ [Hcut Hbody]]]]]];
    [discriminate | apply new_tasks_working_set, two_tasks_valid |].
  destruct (two_tasks_critical s e Hcrit) as [-> ->].
  assert (Hnone : filter (fun t => negb (contained 0 10 t)) (new_tasks 0 two_tasks) = [])
    by reflexivity.
  rewrite Hnone in Hcut. inversion Hcut; subst.
  unfold calc_scheduling in Hrun.
  change (new_tasks 0 two_tasks) with
    (Task_init 0 "A"%string 0 10 5 :: new_tasks 1 [("B"%string, 5, 8, 1)]) in Hrun at 1.
  cbn [length two_tasks while_tasks] in Hrun.
  change (Task_init 0 "A"%string 0 10 5 :: new_tasks 1 [("B"%string, 5, 8, 1)])
    with (new_tasks 0 two_tasks) in Hrun.
  rewrite Hbody in Hrun. vm_compute in Hrun. inversion Hrun; subst; clear Hrun.
  inversion Hall as [|o1 ex1 done' sch' [Hnr [Hrel _]] _]; subst.
  assert (Hin : In o1 (new_tasks 0 two_tasks)).
  { apply (Permutation_in _ Hperm). now left. }
  simpl in Hin. destruct Hin as [<-|[<-|[]]].
  - discriminate Hnr.
  - apply Qle_bool_iff in Hrel. discriminate Hrel.
Qed.

(** ** Runs on sample inputs *)

(** One task [(A, 0, 10, 5)] runs over its whole window at speed 1/2. *)
Example single_task_run :
  exists ex,
    calc_scheduling set_first 1 (new_tasks 0 [("A"%string, 0, 10, 5)])
    = Some (Ok [ex]) /\
    is_execution ex "A" 0 10 (1 # 2).
Proof.
  eexists. split; [vm_compute; reflexivity|]. repeat split.
Qed.

(** Two tasks sharing [[0, 10)] split it in halves, in list order, at
    speed 1. *)
Example shared_window_run :
  exists ex1 ex2,
    calc_scheduling set_first 2 (new_tasks 0 shared_window)
    = Some (Ok [ex1; ex2]) /\
    is_execution ex1 "A" 0 5 1 /\ is_execution ex2 "B" 5 10 1.
Proof.
  do 2 eexists. split; [vm_compute; reflexivity|]. repeat split.
Qed.

(** The task list of [main]: three rounds, on the critical intervals
    [[14, 20)], then [[12, 14)], then [[0, 12)] of the compressed timeline. *)
Example main_run :
  exists e1 e2 e3 e4 e5 e6 e7 e8,
    calc_scheduling set_first 8 (new_tasks 0 main_tasks)
    = Some (Ok [e1; e2; e3; e4; e5; e6; e7; e8]) /\
    is_execution e1 "t8" 0 (3 # 2) (4 # 3) /\
    is_execution e2 "t2" (3 # 2) (15 # 4) (4 # 3) /\
    is_execution e3 "t4" (15 # 4) (21 # 4) (4 # 3) /\
    is_execution e4 "t1" (21 # 4) 9 (4 # 3) /\
    is_execution e5 "t5" 9 12 (4 # 3) /\
    is_execution e6 "t3" 12 14 2 /\
    is_execution e7 "t7" 14 (31 # 2) (8 # 3) /\
    is_execution e8 "t6" (31 # 2) 20 (8 # 3).
Proof.
  do 8 eexists. split; [vm_compute; reflexivity|]. repeat split.
Qed.

(** * Further properties of the code *)

(** ** get_intervals and max_intensity_interval *)

Section Candidates.
Context {ident : Type}.
Variable set_iter : list Q -> list Q.
Hypothesis set_ok : set_semantics set_iter.
Implicit Types (tasks : list (Task ident)).

(** X1: [get_intervals] never raises (the division of [Interval.__init__]
    is guarded by [start < end]).  Every interval it returns runs from a
    release time to a later deadline of the list, holds exactly the tasks
    of the list inside it, and its intensity times its length is their
    total workload; and every release that precedes a deadline gives a
    candidate. *)
Theorem get_intervals_candidates tasks :
  exists intervals,
    get_intervals set_iter tasks = Ok intervals /\
    (forall iv, In iv intervals ->
       In (i_start iv) (map release tasks) /\
       In (i_end iv) (map dead tasks) /\
       i_start iv < i_end iv /\
       i_tasks iv = filter (contained (i_start iv) (i_end iv)) tasks /\
       intensity iv * (i_end iv - i_start iv) == total (i_tasks iv)) /\
    (forall t u, In t tasks -> In u tasks -> release t < dead u ->
       exists iv, In iv intervals /\
         i_start iv == release t /\ i_end iv == dead u).
Proof.
  eexists. split; [apply get_intervals_Ok|]. split.
  - intros iv Hiv. apply in_all_intervals in Hiv.
    destruct Hiv as [s [e [Hs [He [Hlt ->]]]]].
    apply (set_iter_in set_iter set_ok) in Hs, He.
    repeat split; try assumption.
    rewrite intensity_mk_interval. cbn [i_tasks i_start i_end mk_interval].
    field. lra.
  - intros t u Ht Hu Hlt.
    destruct (set_iter_complete set_iter set_ok (map release tasks) (release t))
      as [s [Hs Hsin]]; [now apply in_map|].
    destruct (set_iter_complete set_iter set_ok (map dead tasks) (dead u))
      as [e [He Hein]]; [now apply in_map|].
    exists (mk_interval tasks s e). split; [|split; assumption].
    apply in_all_intervals. exists s, e. repeat split; try assumption. lra.
Qed.

End Candidates.

Section FirstMaximum.
Context {ident : Type}.
Implicit Types (iv best : Interval ident) (intervals : list (Interval ident)).

Lemma max_fold_first (rest : list (Interval ident)) :
  forall before best after,
    Forall (fun x => intensity x < intensity best) before ->
    Forall (fun x => intensity x <= intensity best) after ->
    exists before' after',
      before ++ best :: after ++ rest
      = before' ++
        fold_left (fun best x =>
                     if Qlt_bool (intensity best) (intensity x) then x else best)
          rest best :: after' /\
      Forall (fun x => intensity x <
                       intensity (fold_left (fun best x =>
                         if Qlt_bool (intensity best) (intensity x) then x else best)
                         rest best)) before' /\
      Forall (fun x => intensity x <=
                       intensity (fold_left (fun best x =>
                         if Qlt_bool (intensity best) (intensity x) then x else best)
                         rest best)) after'.
Proof.
  induction rest as [|y rest IH]; intros before best after Hb Ha.
  - exists before, after. rewrite app_nil_r. auto.
  - cbn [fold_left]. destruct (Qlt_bool (intensity best) (intensity y)) eqn:E; qbool.
    + destruct (IH (before ++ best :: after) y []) as [b' [a' [Heq H]]].
      * apply Forall_app. split.
        -- eapply Forall_impl; [|exact Hb]. simpl. intros; lra.
        -- constructor; [assumption|].
           eapply Forall_impl; [|exact Ha]. simpl. intros; lra.
      * constructor.
      * exists b', a'. split; [|exact H].
        rewrite <- Heq, <- app_assoc. reflexivity.
    + destruct (IH before best (after ++ [y])) as [b' [a' [Heq H]]].
      * assumption.
      * apply Forall_app. split; [assumption|]. constructor; [assumption|constructor].
      * exists b', a'. split; [|exact H].
        rewrite <- Heq, <- app_assoc. reflexivity.
Qed.

(** X2: [max_intensity_interval] raises [ValueError] on the empty list;
    otherwise it returns the first interval of greatest intensity: every
    interval before it in the list has a strictly smaller intensity, every
    interval after it has at most its intensity. *)
Theorem max_intensity_interval_first intervals :
  match intervals with
  | [] => max_intensity_interval intervals = Raise ValueError
  | _ :: _ =>
      exists before best after,
        max_intensity_interval intervals = Ok best /\
        intervals = before ++ best :: after /\
        Forall (fun x => intensity x < intensity best) before /\
        Forall (fun x => intensity x <= intensity best) after
  end.
Proof.
  destruct intervals as [|iv rest]; [reflexivity|].
  destruct (max_fold_first rest [] iv []) as [b' [a' [Heq H]]];
    [constructor | constructor |].
  exists b'. eexists. exists a'. split; [reflexivity|]. split; [exact Heq | exact H].
Qed.

End FirstMaximum.

(** ** Task.cut as a compression of the timeline *)

Section CutCompress.
Context {ident : Type}.
Implicit Types (t : Task ident) (s e : Q).

Ltac cut_branches :=
  unfold cut;
  repeat match goal with
  | |- context [if ?b then _ else _] => destruct b eqn:?
  end; qbool.

Lemma cut_ends_compressed t s e t' :
  release t < dead t -> s < e -> cut t s e = Ok t' ->
  release t' == compress s e (release t) /\
  dead t' == compress s e (dead t).
Proof.
  intros Hw Hse. unfold compress.
  destruct (Qle_bool e (release t)) eqn:E1;
    destruct (Qle_bool e (dead t)) eqn:E2;
    destruct (Qle_bool s (release t)) eqn:E3;
    destruct (Qle_bool s (dead t)) eqn:E4; qbool; try (exfalso; lra);
    cut_branches; intro Hcut; try (exfalso; lra); try discriminate;
    inversion Hcut; subst; simpl; split; lra.
Qed.

(** X3: a successful cut of a task with [release < dead] moves both ends
    of its window through the compression of the timeline, and adds the
    length of the interval to the offset exactly when the release is not
    before the interval. *)
Theorem cut_compresses_window t s e t' :
  release t < dead t -> s < e -> cut t s e = Ok t' ->
  release t' == compress s e (release t) /\
  dead t' == compress s e (dead t) /\
  offset t' == offset t + (if Qle_bool s (release t) then e - s else 0).
Proof.
  intros Hw Hse Hcut.
  destruct (cut_ends_compressed t s e t' Hw Hse Hcut) as [Hr Hd].
  split; [exact Hr|]. split; [exact Hd|].
  destruct (cut_Ok_effect t s e t' Hse Hw Hcut) as [_ _ _ _ _ _ Hoff _].
  destruct (Qle_bool s (release t)) eqn:E; qbool;
    destruct Hoff as [[H1 H2]|[H1 H2]]; lra.
Qed.


End CutCompress.

(** ** Rounds of the loop *)

Section Rounds.
Context {ident : Type}.
Variable set_iter : list Q -> list Q.
Hypothesis set_ok : set_semantics set_iter.
Implicit Types (t : Task ident) (tasks : list (Task ident)).

Lemma no_candidates tasks :
  (forall t u, In t tasks -> In u tasks -> dead u <= release t) ->
  all_intervals (set_iter (map release tasks)) (set_iter (map dead tasks)) tasks
  = [].
Proof.
  intro Hno.
  destruct (all_intervals (set_iter (map release tasks))
              (set_iter (map dead tasks)) tasks) as [|iv ivs] eqn:E; [reflexivity|].
  assert (Hin : In iv (iv :: ivs)) by (now left). rewrite <- E in Hin.
  apply in_all_intervals in Hin. destruct Hin as [s [e [Hs [He [Hlt _]]]]].
  apply (set_iter_in set_iter set_ok) in Hs, He.
  apply in_map_iff in Hs, He. destruct Hs as [t [<- Ht]], He as [u [<- Hu]].
  specialize (Hno t u Ht Hu). lra.
Qed.

(** X5: when the task list is not empty and no release time precedes any
    deadline, there is no candidate interval and the first iteration raises
    [ValueError] out of [max]; nothing is scheduled. *)
Theorem no_candidate_interval_raises tasks (fuel : nat) :
  tasks <> [] -> (1 <= fuel)%nat ->
  (forall t u, In t tasks -> In u tasks -> dead u <= release t) ->
  get_intervals set_iter tasks = Ok [] /\
  calc_scheduling set_iter fuel tasks = Some (Raise ValueError).
Proof.
  intros Hne Hfuel Hno.
  assert (Hget : get_intervals set_iter tasks = Ok []).
  { rewrite get_intervals_Ok. now rewrite no_candidates. }
  split; [exact Hget|].
  destruct fuel as [|fuel]; [lia|]. destruct tasks as [|t tasks]; [congruence|].
  unfold calc_scheduling. cbn [while_tasks]. unfold loop_body.
  rewrite Hget. reflexivity.
Qed.

Lemma busy_time_emitted (freq int_length c_sum : Q) (l : list (Task ident)) :
  forall pos,
    busy_time (emitted freq int_length c_sum pos l)
    == total l / c_sum * int_length.
Proof.
  induction l as [|t l IH]; intro pos; simpl.
  - unfold Qdiv. ring.
  - rewrite IH. unfold Qdiv. ring.
Qed.

Lemma emitted_frequency (freq int_length c_sum : Q) (l : list (Task ident)) :
  forall pos,
    Forall (fun ex => frequency ex = freq) (emitted freq int_length c_sum pos l) /\
    map e_nr (emitted freq int_length c_sum pos l) = map nr l.
Proof.
  induction l as [|t l IH]; intro pos; simpl; [split; constructor|].
  destruct (IH (pos + c t / c_sum * int_length)) as [Hf Hn].
  split; [constructor; [reflexivity | exact Hf] | now rewrite Hn].
Qed.

Lemma loop_body_at tasks scheduling s e :
  working_set tasks ->
  max_intensity_interval
    (all_intervals (set_iter (map release tasks)) (set_iter (map dead tasks))
       tasks) = Ok (mk_interval tasks s e) ->
  filter (contained s e) tasks <> [] ->
  exists tasks',
    loop_body set_iter tasks scheduling
    = Ok (tasks', scheduling ++ round_executions tasks s e) /\
    Forall2 (fun t t' => cut t s e = Ok t')
      (filter (fun t => negb (contained s e t)) tasks) tasks'.
Proof.
  intros [Hnd Hvalid] Hmax Hin.
  set (inside := filter (contained s e) tasks) in *.
  set (to_execute := sorted dead inside).
  assert (Hperm : Permutation to_execute inside) by apply sorted_perm.
  assert (Hsum : ~ fold_left Qplus (map c to_execute) 0 == 0).
  { rewrite sum_total.
    assert (0 < total to_execute); [|lra].
    apply total_pos.
    - apply Forall_forall. intros t Ht. apply (Permutation_in _ Hperm) in Ht.
      apply filter_In in Ht. rewrite Forall_forall in Hvalid. now apply Hvalid.
    - intro Hn. apply Hin. now apply sorted_nil_inv in Hn. }
  destruct (execute_loop_Ok (mk_interval tasks s e) (e - s) _ to_execute Hsum
              tasks s scheduling Hnd) as [pos' Hfor].
  { apply (Permutation_NoDup (Permutation_sym (Permutation_map oid Hperm))).
    now apply distinct_filter. }
  { intros t Ht. apply (Permutation_in _ Hperm) in Ht. now apply filter_In in Ht. }
  rewrite (without_contained tasks s e) in Hfor by assumption.
  destruct (map_result_Forall2 (fun t => cut t s e)
              (filter (fun t => negb (contained s e t)) tasks)) as [tasks' [Hmap Hcut]].
  { apply Forall_forall. intros t Ht. apply filter_In in Ht. destruct Ht as [Ht Hc].
    apply negb_true_iff in Hc. apply cut_total; [assumption|].
    rewrite Forall_forall in Hvalid. destruct (Hvalid t Ht). lra. }
  exists tasks'. split; [|exact Hcut].
  unfold loop_body. rewrite get_intervals_Ok. cbn [bind]. rewrite Hmax.
  cbn [bind i_tasks i_start i_end mk_interval]. fold inside. fold to_execute.
  rewrite Hfor. cbn [bind]. rewrite Hmap. reflexivity.
Qed.


End Rounds.

(** ** Properties of each task's execution, through the loop *)

Lemma Forall2_both {A B : Type} (R : A -> B -> Prop) (P : A -> Prop) (Q : B -> Prop)
    (l : list A) (l' : list B) :
  Forall2 R l l' -> Forall P l -> Forall Q l' ->
  Forall2 (fun x y => R x y /\ P x /\ Q y) l l'.
Proof.
  induction 1 as [|x y l l' Hxy _ IH]; intros HP HQ; constructor.
  - inversion HP; inversion HQ; subst. auto.
  - inversion HP; inversion HQ; subst. auto.
Qed.

Section Pairing.
Context {ident : Type}.
Variable set_iter : list Q -> list Q.
Hypothesis set_ok : set_semantics set_iter.
Variable R : Task ident -> Task ident -> Prop.
Variable G : Task ident -> Execution ident -> Prop.
Implicit Types (tasks : list (Task ident)).

Hypothesis R_cut : forall o t t' s e,
  R o t -> cut_effect s e t t' -> R o t'.
Hypothesis R_round : forall tasks s e,
  working_set tasks -> critical tasks s e ->
  Forall2 (fun t ex => forall o, R o t -> G o ex)
    (sorted dead (filter (contained s e) tasks)) (round_executions tasks s e).

Lemma paired_step tasks0 tasks scheduling s e tasks' :
  paired R G tasks0 tasks scheduling -> critical tasks s e ->
  Forall2 (fun t t' => cut t s e = Ok t')
    (filter (fun t => negb (contained s e t)) tasks) tasks' ->
  paired R G tasks0 tasks' (scheduling ++ round_executions tasks s e).
Proof.
  intros [Hws [done [waiting [Hperm [Htr Hdone]]]]] Hcrit Hcut.
  assert (Hse : s < e) by apply Hcrit.
  split; [eapply cut_round_working_set; eauto|].
  set (inside := filter (contained s e) tasks).
  set (outside := filter (fun t => negb (contained s e t)) tasks) in *.
  assert (Hsplit : Permutation tasks (sorted dead inside ++ outside)).
  { rewrite (filter_partition_perm (contained s e) tasks) at 1.
    apply Permutation_app_tail. symmetry. apply sorted_perm. }
  destruct (Forall2_perm_r _ _ _ _ Htr Hsplit) as [waiting' [Hw HF]].
  apply Forall2_app_inv_r in HF.
  destruct HF as [w_in [w_out [Hin [Hout ->]]]].
  exists (done ++ w_in), w_out. split; [|split].
  - rewrite <- app_assoc, <- Hw. exact Hperm.
  - eapply Forall2_compose; [|exact Hout|].
    2: exact (cut_round_effect s e _ tasks tasks' Hse Hws Hcut).
    simpl. intros o t t' Ho [_ Hc]. eapply R_cut; eauto.
  - apply Forall2_app; [exact Hdone|].
    eapply Forall2_compose; [|exact Hin|exact (R_round tasks s e Hws Hcrit)].
    simpl. intros o t ex Ho Hg. now apply Hg.
Qed.

Lemma while_tasks_paired tasks0 fuel :
  forall tasks scheduling,
    (length tasks <= fuel)%nat ->
    paired R G tasks0 tasks scheduling ->
    exists scheduling',
      while_tasks set_iter fuel tasks scheduling
      = Some (Ok (sorted e_start scheduling')) /\
      paired R G tasks0 [] scheduling'.
Proof.
  induction fuel as [|fuel IH]; intros tasks scheduling Hlen Hp.
  - destruct tasks; [|simpl in Hlen; lia]. exists scheduling. auto.
  - destruct tasks as [|t tasks]; [exists scheduling; auto|].
    destruct (loop_body_Ok set_iter set_ok (t :: tasks) scheduling)
      as [s [e [tasks' [Hcrit [Hne [Hcut Hbody]]]]]];
      [discriminate | apply Hp |].
    cbn [while_tasks]. rewrite Hbody. apply IH.
    + pose proof (round_shrinks _ _ _ _ Hne Hcut). simpl in *. lia.
    + eapply paired_step; eauto.
Qed.

Lemma schedule_paired tasks0 :
  working_set tasks0 -> Forall (fun o => R o o) tasks0 ->
  exists schedule done,
    (forall fuel, (length tasks0 <= fuel)%nat ->
       calc_scheduling set_iter fuel tasks0 = Some (Ok schedule)) /\
    Permutation done tasks0 /\
    Forall2 G done schedule.
Proof.
  intros Hws Hrefl.
  assert (Hinit : paired R G tasks0 tasks0 []).
  { split; [assumption|]. exists [], tasks0. split; [reflexivity|].
    split; [|constructor].
    clear -Hrefl. induction Hrefl; constructor; assumption. }
  destruct (while_tasks_paired tasks0 (length tasks0) tasks0 [] (le_n _) Hinit)
    as [sch [Hrun [_ [done [waiting [Hperm [Hwait Hdone]]]]]]].
  inversion Hwait; subst. rewrite app_nil_r in Hperm.
  destruct (Forall2_perm_r _ _ _ _ Hdone (Permutation_sym (sorted_perm e_start sch)))
    as [done' [Hperm' Hdone']].
  exists (sorted e_start sch), done'. repeat split.
  - intros fuel Hfuel. unfold calc_scheduling.
    eapply while_tasks_more_fuel; [exact Hfuel | exact Hrun].
  - now rewrite <- Hperm'.
  - exact Hdone'.
Qed.

End Pairing.

Section Density.
Context {ident : Type}.
Variable set_iter : list Q -> list Q.
Hypothesis set_ok : set_semantics set_iter.
Implicit Types (t o : Task ident) (tasks : list (Task ident)).

Lemma workload_le_total t tasks :
  Forall (fun x => 0 < c x) tasks -> In t tasks -> c t <= total tasks.
Proof.
  induction 1 as [|x l Hx Hl IH]; simpl; [contradiction|].
  intros [->|Hin].
  - apply total_nonneg in Hl. lra.
  - specialize (IH Hin). lra.
Qed.

(** The critical intensity is at least the density of every task. *)
Lemma critical_density tasks s e t :
  Forall valid_task tasks -> critical tasks s e -> In t tasks ->
  c t <= total (filter (contained s e) tasks) / (e - s) * (dead t - release t).
Proof.
  intros Hvalid [_ [_ [Hse Hmax]]] Ht.
  assert (Hvt : valid_task t) by (rewrite Forall_forall in Hvalid; auto).
  destruct Hvt as [Hw Hc].
  specialize (Hmax (release t) (dead t) (in_map _ _ _ Ht) (in_map _ _ _ Ht) Hw).
  assert (Hown : c t <= total (filter (contained (release t) (dead t)) tasks)).
  { apply workload_le_total.
    - apply Forall_forall. intros x Hx. apply filter_In in Hx.
      rewrite Forall_forall in Hvalid. now apply Hvalid.
    - apply filter_In. split; [assumption|]. unfold contained.
      apply andb_true_iff. split; apply Qle_bool_iff; lra. }
  apply (Qmult_le_r _ _ (dead t - release t)) in Hmax; [|lra].
  assert (Heq : total (filter (contained (release t) (dead t)) tasks)
                / (dead t - release t) * (dead t - release t)
                == total (filter (contained (release t) (dead t)) tasks))
    by (field; lra).
  rewrite Heq in Hmax. lra.
Qed.

Lemma round_fast_enough tasks s e :
  working_set tasks -> critical tasks s e ->
  Forall2 (fun t ex => forall o, window_within o t -> fast_enough o ex)
    (sorted dead (filter (contained s e) tasks)) (round_executions tasks s e).
Proof.
  intros [Hnd Hvalid] Hcrit.
  set (to_execute := sorted dead (filter (contained s e) tasks)).
  assert (Hperm : Permutation to_execute (filter (contained s e) tasks))
    by apply sorted_perm.
  assert (Hse : s < e) by apply Hcrit.
  pose proof (round_well_served tasks s e Hvalid Hcrit) as Hserved.
  fold to_execute in Hserved.
  assert (Hdens : Forall (fun t => In t tasks /\
            c t <= total (filter (contained s e) tasks) / (e - s)
                   * (dead t - release t)) to_execute).
  { apply Forall_forall. intros t Ht. apply (Permutation_in _ Hperm) in Ht.
    apply filter_In in Ht. destruct Ht as [Ht _]. split; [assumption|].
    now apply critical_density. }
  assert (Hfreq : Forall (fun ex => frequency ex
                    == total (filter (contained s e) tasks) / (e - s))
                    (round_executions tasks s e)).
  { unfold round_executions. cbv zeta.
    destruct (emitted_frequency (intensity (mk_interval tasks s e)) (e - s)
                (fold_left Qplus (map c to_execute) 0) to_execute s) as [Hf _].
    eapply Forall_impl; [|exact Hf]. simpl. intros ex ->.
    apply intensity_mk_interval. }
  eapply Forall2_impl; [|exact (Forall2_both _ _ _ _ _ Hserved Hdens Hfreq)].
  simpl. intros t ex [[Hnr [Hwork [Hlen _]]] [[Ht Hd] Hf]] o [[Hwo Hco] [Hn [Hc Hwin]]].
  rewrite <- Hf in Hd.
  assert (Hct : 0 < c t) by (rewrite Hc; exact Hco).
  assert (Hpos : 0 < frequency ex).
  { destruct (Qlt_le_dec 0 (frequency ex)) as [H|H]; [assumption|].
    exfalso.
    assert ((e_end ex - e_start ex) * frequency ex <= 0); [|lra].
    rewrite <- (Qmult_0_l (frequency ex)).
    setoid_replace ((e_end ex - e_start ex) * frequency ex)
      with (- ((e_end ex - e_start ex) * - frequency ex)) by ring.
    assert (0 <= (e_end ex - e_start ex) * - frequency ex);
      [apply Qmult_le_0_compat; lra | lra]. }
  assert (Hbound : c t <= frequency ex * (dead o - release o)).
  { apply Qle_trans with (frequency ex * (dead t - release t)); [assumption|].
    rewrite !(Qmult_comm (frequency ex)). apply Qmult_le_compat_r; lra. }
  unfold fast_enough. repeat split.
  - congruence.
  - exact Hpos.
  - apply Qle_shift_div_r; [lra|]. rewrite <- Hc. exact Hbound.
  - apply (Qmult_le_r _ _ (frequency ex)); [assumption|].
    rewrite Hwork. rewrite Qmult_comm. exact Hbound.
Qed.


End Density.

(** ** Tasks that share one window *)

Lemma sorted_of_sorted {A : Type} (key : A -> Q) (l : list A) :
  StronglySorted (key_le key) l -> sorted key l = l.
Proof.
  induction 1 as [|x l Hs IH Hx]; simpl; [reflexivity|].
  rewrite IH. destruct l as [|y l]; [reflexivity|]. simpl.
  inversion Hx as [|? ? Hxy _]; subst. unfold key_le in Hxy.
  apply Qlt_bool_false in Hxy. now rewrite Hxy.
Qed.

Lemma same_key_sorted {A : Type} (key : A -> Q) (k : Q) (l : list A) :
  Forall (fun x => key x == k) l -> StronglySorted (key_le key) l.
Proof.
  induction 1 as [|x l Hx Hl IH]; constructor; [assumption|].
  eapply Forall_impl; [|exact Hl]. simpl. intros y Hy. unfold key_le. lra.
Qed.

Lemma filter_none {A : Type} (p : A -> bool) (l : list A) :
  (forall x, In x l -> p x = false) -> filter p l = [].
Proof.
  induction l as [|x l IH]; intro H; simpl; [reflexivity|].
  rewrite (H x (or_introl eq_refl)). apply IH. intros; apply H; now right.
Qed.

Section SharedWindow.
Context {ident : Type}.
Variable set_iter : list Q -> list Q.
Hypothesis set_ok : set_semantics set_iter.
Implicit Types (t : Task ident) (tasks : list (Task ident)).

Lemma while_tasks_done (fuel : nat) (scheduling : list (Execution ident)) :
  while_tasks set_iter fuel [] scheduling = Some (Ok (sorted e_start scheduling)).
Proof. destruct fuel; reflexivity. Qed.

Lemma while_tasks_step (fuel : nat) tasks scheduling tasks' scheduling' :
  tasks <> [] ->
  loop_body set_iter tasks scheduling = Ok (tasks', scheduling') ->
  while_tasks set_iter (S fuel) tasks scheduling
  = while_tasks set_iter fuel tasks' scheduling'.
Proof.
  intros Hne Hbody. destruct tasks as [|t rest]; [congruence|].
  cbn [while_tasks]. now rewrite Hbody.
Qed.

Lemma set_iter_same (l : list Q) (x : Q) :
  l <> [] -> Forall (fun y => y == x) l ->
  exists y, set_iter l = [y] /\ y == x.
Proof.
  intros Hne Hall. destruct (set_ok l) as [Hin [Hcompl Hnd]].
  rewrite Forall_forall in Hall.
  destruct (set_iter l) as [|y rest].
  - destruct l as [|z l]; [congruence|].
    specialize (Hcompl z (or_introl eq_refl)). inversion Hcompl.
  - exists y. assert (Hy : y == x) by (apply Hall, Hin; now left).
    split; [|exact Hy]. destruct rest as [|z rest]; [reflexivity|].
    exfalso. assert (Hz : z == x) by (apply Hall, Hin; right; now left).
    inversion Hnd as [|? ? Hfresh _]; subst. apply Hfresh.
    constructor. now rewrite Hy, Hz.
Qed.

Lemma tiles_from (a a' b : Q) (l : list (Execution ident)) :
  a == a' -> tiles a b l -> tiles a' b l.
Proof.
  intro Ha. destruct l as [|ex l]; simpl.
  - intro H. now rewrite <- Ha.
  - intros [H1 H2]. split; [now rewrite <- Ha | assumption].
Qed.

Lemma emitted_tiles (freq int_length c_sum : Q) (l : list (Task ident)) :
  Forall (fun t => offset t = 0) l ->
  forall pos b,
    b == pos + total l / c_sum * int_length ->
    tiles pos b (emitted freq int_length c_sum pos l).
Proof.
  induction 1 as [|t l Ht _ IH]; intros pos b Hb; simpl.
  - rewrite Hb. simpl. unfold Qdiv. ring.
  - rewrite Ht. split; [ring|].
    apply (tiles_from (pos + c t / c_sum * int_length)); [ring|].
    apply IH. rewrite Hb. simpl. unfold Qdiv. ring.
Qed.

Lemma emitted_ascending (freq int_length c_sum : Q) (l : list (Task ident)) :
  Forall (fun t => offset t = 0 /\ 0 <= c t / c_sum * int_length) l ->
  forall pos,
    StronglySorted (key_le e_start) (emitted freq int_length c_sum pos l) /\
    Forall (fun ex => pos <= e_start ex) (emitted freq int_length c_sum pos l).
Proof.
  induction 1 as [|t l [Ht Hlen] _ IH]; intro pos; simpl.
  - split; constructor.
  - destruct (IH (pos + c t / c_sum * int_length)) as [Hs Hge].
    rewrite Ht. split.
    + constructor; [exact Hs|].
      eapply Forall_impl; [|exact Hge]. simpl. intros ex Hex.
      unfold key_le. simpl. lra.
    + constructor; [simpl; lra|].
      eapply Forall_impl; [|exact Hge]. simpl. intros ex Hex. lra.
Qed.

Lemma emitted_shares (freq int_length c_sum : Q) (l : list (Task ident)) :
  forall pos,
    Forall2 (fun t ex =>
               e_end ex - e_start ex == c t / c_sum * int_length /\
               frequency ex = freq)
      l (emitted freq int_length c_sum pos l).
Proof.
  induction l as [|t l IH]; intro pos; simpl; constructor.
  - simpl. split; [ring | reflexivity].
  - apply IH.
Qed.


End SharedWindow.

(** ** Invariants of the working list and the executions so far *)

Section LoopInvariant.
Context {ident : Type}.
Variable set_iter : list Q -> list Q.
Hypothesis set_ok : set_semantics set_iter.
Variable P : list (Task ident) -> list (Execution ident) -> Prop.
Implicit Types (tasks : list (Task ident)).

Hypothesis P_round : forall tasks scheduling s e tasks',
  working_set tasks -> P tasks scheduling -> critical tasks s e ->
  filter (contained s e) tasks <> [] ->
  Forall2 (fun t t' => cut t s e = Ok t')
    (filter (fun t => negb (contained s e t)) tasks) tasks' ->
  P tasks' (scheduling ++ round_executions tasks s e).

Lemma while_tasks_invariant fuel :
  forall tasks scheduling,
    (length tasks <= fuel)%nat -> working_set tasks -> P tasks scheduling ->
    exists scheduling',
      while_tasks set_iter fuel tasks scheduling
      = Some (Ok (sorted e_start scheduling')) /\
      P [] scheduling'.
Proof.
  induction fuel as [|fuel IH]; intros tasks scheduling Hlen Hws Hp.
  - destruct tasks; [|simpl in Hlen; lia]. exists scheduling. auto.
  - destruct tasks as [|t tasks]; [exists scheduling; auto|].
    destruct (loop_body_Ok set_iter set_ok (t :: tasks) scheduling)
      as [s [e [tasks' [Hcrit [Hne [Hcut Hbody]]]]]];
      [discriminate | exact Hws |].
    cbn [while_tasks]. rewrite Hbody. apply IH.
    + pose proof (round_shrinks _ _ _ _ Hne Hcut). simpl in *. lia.
    + eapply cut_round_working_set; eauto. apply Hcrit.
    + eapply P_round; eauto.
Qed.

End LoopInvariant.

Section BusyTime.
Context {ident : Type}.
Variable set_iter : list Q -> list Q.
Hypothesis set_ok : set_semantics set_iter.
Implicit Types (t : Task ident) (tasks : list (Task ident)).

Lemma busy_time_app (l l' : list (Execution ident)) :
  busy_time (l ++ l') == busy_time l + busy_time l'.
Proof.
  induction l as [|ex l IH]; simpl; [lra|]. rewrite IH. lra.
Qed.

Lemma busy_time_perm (l l' : list (Execution ident)) :
  Permutation l l' -> busy_time l == busy_time l'.
Proof.
  induction 1; simpl; lra.
Qed.

Lemma round_busy_time tasks s e :
  Forall valid_task tasks -> s < e -> filter (contained s e) tasks <> [] ->
  busy_time (round_executions tasks s e) == e - s.
Proof.
  intros Hvalid Hse Hin. unfold round_executions. cbv zeta.
  set (to_execute := sorted dead (filter (contained s e) tasks)).
  rewrite busy_time_emitted, sum_total.
  assert (0 < total to_execute); [|field; lra].
  apply total_pos.
  - apply Forall_forall. intros t Ht.
    apply (Permutation_in _ (sorted_perm dead _)) in Ht.
    apply filter_In in Ht. rewrite Forall_forall in Hvalid. now apply Hvalid.
  - intro Hn. apply Hin. now apply sorted_nil_inv in Hn.
Qed.


End BusyTime.

(** ** The greatest intensity never grows *)

Lemma least_key {A : Type} (key : A -> Q) (l : list A) :
  l <> [] -> exists m, In m l /\ forall x, In x l -> key m <= key x.
Proof.
  induction l as [|y l IH]; [congruence|]. intros _.
  destruct l as [|z l].
  - exists y. split; [now left|]. intros x [<-|[]]. lra.
  - destruct IH as [m [Hm Hmin]]; [discriminate|].
    destruct (Qlt_le_dec (key y) (key m)) as [Hlt|Hle].
    + exists y. split; [now left|]. intros x [<-|Hx]; [lra|].
      specialize (Hmin x Hx). lra.
    + exists m. split; [now right|]. intros x [<-|Hx]; [lra | now apply Hmin].
Qed.

Section Peak.
Context {ident : Type}.
Implicit Types (t : Task ident) (tasks : list (Task ident)).

Lemma total_filter_sub (p q : Task ident -> bool) tasks :
  (forall t, In t tasks -> p t = true -> q t = true) ->
  Forall (fun t => 0 < c t) tasks ->
  total (filter p tasks) <= total (filter q tasks).
Proof.
  induction tasks as [|t tasks IH]; intros Hpq Hpos; simpl; [lra|].
  inversion Hpos as [|? ? Ht Hpos']; subst.
  assert (IH' : total (filter p tasks) <= total (filter q tasks)).
  { apply IH; [|assumption]. intros x Hx. apply Hpq. now right. }
  destruct (p t) eqn:Ep.
  - rewrite (Hpq t (or_introl eq_refl) Ep). simpl. lra.
  - destruct (q t); simpl; lra.
Qed.

Lemma total_filter_disjoint (p1 p2 p3 : Task ident -> bool) tasks :
  (forall t, In t tasks -> p1 t = true -> p3 t = true) ->
  (forall t, In t tasks -> p2 t = true -> p3 t = true) ->
  (forall t, In t tasks -> p1 t = true -> p2 t = false) ->
  Forall (fun t => 0 < c t) tasks ->
  total (filter p1 tasks) + total (filter p2 tasks) <= total (filter p3 tasks).
Proof.
  induction tasks as [|t tasks IH]; intros H13 H23 H12 Hpos; simpl; [lra|].
  inversion Hpos as [|? ? Ht Hpos']; subst.
  assert (IH' : total (filter p1 tasks) + total (filter p2 tasks)
                <= total (filter p3 tasks)).
  { apply IH; try assumption; intros x Hx; [apply H13|apply H23|apply H12];
      now right. }
  pose proof (H13 t (or_introl eq_refl)) as A13.
  pose proof (H23 t (or_introl eq_refl)) as A23.
  pose proof (H12 t (or_introl eq_refl)) as A12.
  destruct (p1 t) eqn:E1.
  - rewrite (A13 eq_refl), (A12 eq_refl). simpl. lra.
  - destruct (p2 t) eqn:E2.
    + rewrite (A23 eq_refl). simpl. lra.
    + destruct (p3 t); simpl; lra.
Qed.

Lemma scale_le (g x y : Q) : 0 <= g -> x <= y -> g * x <= g * y.
Proof.
  intros Hg Hxy. rewrite !(Qmult_comm g). now apply Qmult_le_compat_r.
Qed.

Lemma intensity_bound_product (g : Q) tasks (a b : Q) :
  intensity_bound g tasks ->
  In a (map release tasks) -> In b (map dead tasks) -> a < b ->
  total (filter (contained a b) tasks) <= g * (b - a).
Proof.
  intros Hg Ha Hb Hab. specialize (Hg a b Ha Hb Hab).
  apply (Qmult_le_r _ _ (b - a)) in Hg; [|lra].
  assert (Heq : total (filter (contained a b) tasks) / (b - a) * (b - a)
                == total (filter (contained a b) tasks)) by (field; lra).
  rewrite Heq in Hg. exact Hg.
Qed.

(** The workload of the cut tasks inside [[a, b)] is the workload of the
    tasks that land there. *)
Lemma total_after_cut (s e a b : Q) (outside tasks' : list (Task ident)) :
  s < e -> Forall valid_task outside ->
  Forall2 (fun t t' => cut t s e = Ok t') outside tasks' ->
  total (filter (contained a b) tasks')
  == total (filter (lands_in s e a b) outside).
Proof.
  intros Hse Hvalid Hcut. induction Hcut as [|t t' l l' Ht _ IH]; [reflexivity|].
  inversion Hvalid as [|? ? [Hw _] Hvalid']; subst.
  specialize (IH Hvalid').
  destruct (cut_ends_compressed t s e t' Hw Hse Ht) as [Hr Hd].
  assert (Hc : c t' = c t).
  { now destruct (cut_Ok_effect t s e t' Hse Hw Ht). }
  assert (Hsame : contained a b t' = lands_in s e a b t).
  { unfold contained, lands_in.
    rewrite (Qle_bool_proper a a (release t') (compress s e (release t)))
      by (auto; reflexivity).
    rewrite (Qle_bool_proper (dead t') (compress s e (dead t)) b b)
      by (auto; reflexivity).
    reflexivity. }
  simpl. rewrite Hsame. destruct (lands_in s e a b t); simpl; [|exact IH].
  rewrite Hc, IH. reflexivity.
Qed.

End Peak.

Section PeakRound.
Context {ident : Type}.
Implicit Types (t : Task ident) (tasks : list (Task ident)).

(** The setting of one round: [g] is the intensity of the critical
    interval [[s, e)], and [moved] are tasks outside of it that lie between
    [lo'] and [hi']. *)
Variables (tasks : list (Task ident)) (s e g : Q) (p : Task ident -> bool).
Hypothesis Hvalid : Forall valid_task tasks.
Hypothesis Hbound : intensity_bound g tasks.
Hypothesis Hse : s < e.
Hypothesis Hinside : total (filter (contained s e) tasks) == g * (e - s).

Local Notation "'moved'" := (moved_tasks s e p tasks).

Lemma moved_positive : Forall (fun t : Task ident => 0 < c t) tasks.
Proof.
  eapply Forall_impl; [|exact Hvalid]. simpl. intros t Ht. apply Ht.
Qed.

Lemma moved_within (lo hi : Q) :
  (forall t, In t moved -> lo <= release t /\ dead t <= hi) ->
  In lo (map release tasks) -> In hi (map dead tasks) -> lo < hi ->
  total moved <= g * (hi - lo).
Proof.
  intros Hin Hlo Hhi Hlt.
  apply Qle_trans with (total (filter (contained lo hi) tasks)).
  - apply total_filter_sub; [|apply moved_positive].
    intros t Ht Hp.
    destruct (Hin t) as [H1 H2]; [apply filter_In; auto|].
    unfold contained. apply andb_true_iff. split; now apply Qle_bool_iff.
  - now apply intensity_bound_product.
Qed.

Lemma moved_around (lo hi : Q) :
  (forall t, In t moved -> lo <= release t /\ dead t <= hi) ->
  In lo (map release tasks) -> In hi (map dead tasks) ->
  lo <= s -> e <= hi ->
  total moved <= g * (hi - lo - (e - s)).
Proof.
  intros Hin Hlo Hhi Hls Heh.
  assert (Hsum : total moved + total (filter (contained s e) tasks)
                 <= total (filter (contained lo hi) tasks)).
  { apply total_filter_disjoint; [| | |apply moved_positive].
    - intros t Ht Hp.
      destruct (Hin t) as [H1 H2]; [apply filter_In; auto|].
      unfold contained. apply andb_true_iff. split; now apply Qle_bool_iff.
    - intros t Ht Hc. unfold contained in *. qbool.
      apply andb_true_iff. split; apply Qle_bool_iff; lra.
    - intros t Ht Hp. apply andb_true_iff in Hp. destruct Hp as [Hp _].
      now apply negb_true_iff in Hp. }
  pose proof (intensity_bound_product g tasks lo hi Hbound Hlo Hhi ltac:(lra)) as Hh.
  rewrite Hinside in Hsum. lra.
Qed.

(** The tasks outside the critical interval that land between two times
    carry at most [g] times the distance between the images of their
    earliest release and their latest deadline. *)
Lemma moved_work_bound (ta tb : Task ident) :
  In s (map release tasks) -> In e (map dead tasks) ->
  In ta moved -> In tb moved ->
  (forall t, In t moved -> release ta <= release t) ->
  (forall t, In t moved -> dead t <= dead tb) ->
  total moved
  <= g * (compress s e (dead tb) - compress s e (release ta)).
Proof.
  intros Hs He Hta Htb Hmin Hmax.
  assert (Hin : forall t, In t moved -> release ta <= release t /\ dead t <= dead tb)
    by (intros t Ht; split; [now apply Hmin | now apply Hmax]).
  assert (HTa : In ta tasks) by (apply filter_In in Hta; tauto).
  assert (HTb : In tb tasks) by (apply filter_In in Htb; tauto).
  assert (Hra : In (release ta) (map release tasks)) by (now apply in_map).
  assert (Hdb : In (dead tb) (map dead tasks)) by (now apply in_map).
  assert (Hab : release ta < dead tb).
  { pose proof (Hmin tb Htb). rewrite Forall_forall in Hvalid.
    destruct (Hvalid tb HTb). lra. }
  unfold compress.
  destruct (Qle_bool e (release ta)) eqn:E1; qbool.
  { (* entirely after the interval *)
    assert (E2 : Qle_bool e (dead tb) = true) by (apply Qle_bool_iff; lra).
    rewrite E2. pose proof (moved_within _ _ Hin Hra Hdb Hab). lra. }
  destruct (Qle_bool s (dead tb)) eqn:E3; qbool.
  2:{ (* entirely before the interval *)
      assert (E4 : Qle_bool e (dead tb) = false) by (apply Qle_bool_false; lra).
      assert (E5 : Qle_bool s (release ta) = false) by (apply Qle_bool_false; lra).
      rewrite E4, E5. pose proof (moved_within _ _ Hin Hra Hdb Hab). lra. }
  destruct (Qle_bool s (release ta)) eqn:E5;
    destruct (Qle_bool e (dead tb)) eqn:E4; qbool.
  - assert (H := moved_around s (dead tb)). 
    assert (total moved <= g * (dead tb - s - (e - s))); [|lra].
    apply H; try assumption; try lra.
    intros t Ht. destruct (Hin t Ht). split; lra.
  - assert (H := moved_around s e).
    assert (total moved <= g * (e - s - (e - s))); [|lra].
    apply H; try assumption; try lra.
    intros t Ht. destruct (Hin t Ht). split; lra.
  - assert (H := moved_around (release ta) (dead tb)).
    assert (total moved <= g * (dead tb - release ta - (e - s))); [|lra].
    apply H; try assumption; lra.
  - assert (H := moved_around (release ta) e).
    assert (total moved <= g * (e - release ta - (e - s))); [|lra].
    apply H; try assumption; try lra.
    intros t Ht. destruct (Hin t Ht). split; lra.
Qed.

End PeakRound.

Section PeakFrequency.
Context {ident : Type}.
Variable set_iter : list Q -> list Q.
Hypothesis set_ok : set_semantics set_iter.
Implicit Types (t : Task ident) (tasks : list (Task ident)).

(** After a round, no candidate interval of the remaining tasks is more
    intense than the critical interval of the round. *)
Lemma intensity_bound_after_round tasks s e tasks' :
  working_set tasks -> critical tasks s e ->
  Forall2 (fun t t' => cut t s e = Ok t')
    (filter (fun t => negb (contained s e t)) tasks) tasks' ->
  intensity_bound (total (filter (contained s e) tasks) / (e - s)) tasks'.
Proof.
  intros [Hnd Hvalid] [Hs [He [Hse Hmax]]] Hcut a' b' _ _ Hab'.
  set (g := total (filter (contained s e) tasks) / (e - s)) in *.
  assert (Hpos : Forall (fun t : Task ident => 0 < c t) tasks).
  { eapply Forall_impl; [|exact Hvalid]. simpl. intros t Ht. apply Ht. }
  assert (Hg : 0 <= g).
  { unfold g. apply Qle_shift_div_l; [lra|].
    assert (0 <= total (filter (contained s e) tasks)); [|lra].
    apply total_nonneg. apply Forall_forall. intros t Ht.
    apply filter_In in Ht. rewrite Forall_forall in Hpos. now apply Hpos. }
  assert (Hinside : total (filter (contained s e) tasks) == g * (e - s))
    by (unfold g; field; lra).
  assert (Hout : Forall valid_task (filter (fun t => negb (contained s e t)) tasks)).
  { apply Forall_forall. intros t Ht. apply filter_In in Ht.
    rewrite Forall_forall in Hvalid. now apply Hvalid. }
  apply Qle_shift_div_r; [lra|].
  rewrite (total_after_cut s e a' b' _ _ Hse Hout Hcut), filter_filter.
  set (moved := filter (fun t => negb (contained s e t) && lands_in s e a' b' t)
                  tasks).
  destruct moved as [|t0 rest] eqn:Emoved.
  - simpl. apply Qmult_le_0_compat; lra.
  - rewrite <- Emoved.
    assert (Hne : moved <> []) by (rewrite Emoved; discriminate).
    destruct (least_key release moved Hne) as [ta [Hta Hmin]].
    destruct (least_key (fun t => - dead t) moved Hne) as [tb [Htb Hlast]].
    assert (Hwork : total moved
              <= g * (compress s e (dead tb) - compress s e (release ta))).
    { apply (moved_work_bound tasks s e g (lands_in s e a' b') Hvalid Hmax Hse
               Hinside ta tb Hs He Hta Htb Hmin).
      intros t Ht. specialize (Hlast t Ht). simpl in Hlast. lra. }
    assert (Hla : lands_in s e a' b' ta = true).
    { apply filter_In in Hta. destruct Hta as [_ H].
      apply andb_true_iff in H. tauto. }
    assert (Hlb : lands_in s e a' b' tb = true).
    { apply filter_In in Htb. destruct Htb as [_ H].
      apply andb_true_iff in H. tauto. }
    unfold lands_in in Hla, Hlb. qbool.
    apply Qle_trans with (g * (compress s e (dead tb) - compress s e (release ta)));
      [exact Hwork|].
    apply scale_le; [exact Hg | lra].
Qed.


End PeakFrequency.

Section PeakAttained.
Context {ident : Type}.
Variable set_iter : list Q -> list Q.
Hypothesis set_ok : set_semantics set_iter.
Implicit Types (t : Task ident) (tasks : list (Task ident)).

Lemma round_executions_frequency tasks s e :
  filter (contained s e) tasks <> [] ->
  round_executions tasks s e <> [] /\
  Forall (fun ex => frequency ex
                    == total (filter (contained s e) tasks) / (e - s))
    (round_executions tasks s e).
Proof.
  intro Hne. unfold round_executions. cbv zeta.
  set (to_execute := sorted dead (filter (contained s e) tasks)).
  destruct (emitted_frequency (intensity (mk_interval tasks s e)) (e - s)
              (fold_left Qplus (map c to_execute) 0) to_execute s) as [Hf Hn].
  split.
  - intro Hnil. rewrite Hnil in Hn. symmetry in Hn. apply map_eq_nil in Hn.
    apply sorted_nil_inv in Hn. contradiction.
  - eapply Forall_impl; [|exact Hf]. intros ex Hex. cbv beta in Hex.
    rewrite Hex. apply intensity_mk_interval.
Qed.

(** X11: for a valid input of plain tasks the greatest intensity of the
    input is reached: when [[s, e)] is a candidate interval of greatest
    intensity, some execution of the schedule runs at that intensity. *)
Theorem peak_frequency_attained (descr : list (ident * Q * Q * Q)) (s e : Q) :
  Forall valid_task (new_tasks 0 descr) ->
  Forall plain_task (new_tasks 0 descr) ->
  critical (new_tasks 0 descr) s e ->
  exists schedule,
    (forall fuel, (length descr <= fuel)%nat ->
       calc_scheduling set_iter fuel (new_tasks 0 descr) = Some (Ok schedule)) /\
    Exists (fun ex => frequency ex
                      == total (filter (contained s e) (new_tasks 0 descr))
                         / (e - s)) schedule.
Proof.
  intros Hvalid _ Hcrit.
  set (tasks0 := new_tasks 0 descr) in *.
  set (g := total (filter (contained s e) tasks0) / (e - s)).
  set (P := fun (tasks : list (Task ident)) (sch : list (Execution ident)) =>
              (sch = [] /\ tasks = tasks0) \/
              Exists (fun ex => frequency ex == g) sch).
  destruct (while_tasks_invariant set_iter set_ok P) with
    (fuel := length descr) (tasks := tasks0)
    (scheduling := @nil (Execution ident)) as [sch [Hrun Hp]].
  - intros tasks sch s' e' tasks' Hws Hp Hcrit' Hne Hcut.
    right. apply Exists_app. destruct Hp as [[-> ->]|Hex]; [right | now left].
    destruct (round_executions_frequency tasks0 s' e' Hne) as [Hnn Hf].
    assert (Hsame : total (filter (contained s' e') tasks0) / (e' - s') == g).
    { destruct Hcrit as [Hs [He [Hse Hmax]]].
      destruct Hcrit' as [Hs' [He' [Hse' Hmax']]].
      pose proof (Hmax s' e' Hs' He' Hse'). pose proof (Hmax' s e Hs He Hse).
      unfold g. lra. }
    destruct (round_executions tasks0 s' e') as [|ex rest]; [congruence|].
    inversion Hf; subst. left. lra.
  - unfold tasks0. rewrite new_tasks_length. lia.
  - now apply new_tasks_working_set.
  - left. auto.
  - exists (sorted e_start sch). split.
    + intros fuel Hfuel. unfold calc_scheduling.
      eapply while_tasks_more_fuel; [exact Hfuel | exact Hrun].
    + destruct Hp as [[_ Hnil]|Hex].
      * exfalso. destruct Hcrit as [Hs _]. rewrite <- Hnil in Hs. contradiction.
      * apply Exists_exists in Hex. destruct Hex as [ex [Hin Hfreq]].
        apply Exists_exists. exists ex. split; [|exact Hfreq].
        apply (Permutation_in _ (Permutation_sym (sorted_perm e_start sch))).
        exact Hin.
Qed.

Lemma set_iter_length (l : list Q) : (length (set_iter l) <= length l)%nat.
Proof.
  destruct (set_ok l) as [Hin [_ Hnd]].
  apply NoDup_incl_length; [|exact Hin].
  clear Hin. induction Hnd as [|x l' Hx _ IH]; constructor; [|exact IH].
  intro Hxin. apply Hx. apply InA_alt. exists x. split; [reflexivity | exact Hxin].
Qed.

Lemma all_intervals_length (releases deads : list Q) tasks :
  (length (all_intervals releases deads tasks)
   <= length releases * length deads)%nat.
Proof.
  unfold all_intervals. induction releases as [|start releases IH]; simpl; [lia|].
  rewrite length_app.
  assert (Hrow : (length (flat_map (fun end_ =>
                    if Qlt_bool start end_ then [mk_interval tasks start end_] else [])
                    deads) <= length deads)%nat).
  { clear. induction deads as [|end_ deads IH]; simpl; [lia|].
    rewrite length_app. destruct (Qlt_bool start end_); simpl; lia. }
  lia.
Qed.

(** X12: [get_intervals] returns at most one interval for each pair of a
    task's release time and a task's deadline: for [n] tasks, at most
    [n * n] candidates. *)
Theorem get_intervals_count tasks :
  exists intervals,
    get_intervals set_iter tasks = Ok intervals /\
    (length intervals <= length tasks * length tasks)%nat.
Proof.
  eexists. split; [apply get_intervals_Ok|].
  pose proof (all_intervals_length (set_iter (map release tasks))
                (set_iter (map dead tasks)) tasks) as Hlen.
  pose proof (set_iter_length (map release tasks)) as Hr.
  pose proof (set_iter_length (map dead tasks)) as Hd.
  rewrite length_map in Hr, Hd. nia.
Qed.

End PeakAttained.

(** * The further properties on sample inputs *)

Lemma main_tasks_working_set : working_set (new_tasks 0 main_tasks).
Proof. exact (new_tasks_working_set main_tasks main_tasks_valid). Defined.

Lemma main_tasks_span :
  Forall (fun task => 0 <= release task /\ dead task <= 20) (new_tasks 0 main_tasks).
Proof. repeat constructor; discriminate. Defined.

Lemma shared_window_valid : Forall valid_task (new_tasks 0 shared_window).
Proof. valid_input. Defined.

Lemma shared_window_same : same_window 0 10 (new_tasks 0 shared_window).
Proof. repeat constructor. Defined.

Lemma two_tasks_peak (a b : Q) :
  In a (map release (new_tasks 0 two_tasks)) ->
  In b (map dead (new_tasks 0 two_tasks)) -> a < b ->
  total (filter (contained a b) (new_tasks 0 two_tasks)) / (b - a) <= 3 # 5.
Proof.
  intros Ha Hb _. simpl in Ha, Hb.
  destruct Ha as [<-|[<-|[]]]; destruct Hb as [<-|[<-|[]]];
    apply Qle_bool_iff; reflexivity.
Defined.

Lemma two_tasks_critical_interval : critical (new_tasks 0 two_tasks) 0 10.
Proof.
  split; [now left|]. split; [now left|]. split; [reflexivity|].
  intros a b Ha Hb _. simpl in Ha, Hb.
  destruct Ha as [<-|[<-|[]]]; destruct Hb as [<-|[<-|[]]];
    apply Qle_bool_iff; reflexivity.
Defined.

Lemma get_intervals_candidates_witness :
  set_semantics set_first /\
  exists intervals,
    get_intervals set_first (new_tasks 0 main_tasks) = Ok intervals /\
    (forall iv, In iv intervals ->
       In (i_start iv) (map release (new_tasks 0 main_tasks)) /\
       In (i_end iv) (map dead (new_tasks 0 main_tasks)) /\
       i_start iv < i_end iv /\
       i_tasks iv
       = filter (contained (i_start iv) (i_end iv)) (new_tasks 0 main_tasks) /\
       intensity iv * (i_end iv - i_start iv) == total (i_tasks iv)) /\
    (forall t u, In t (new_tasks 0 main_tasks) -> In u (new_tasks 0 main_tasks) ->
       release t < dead u ->
       exists iv, In iv intervals /\
         i_start iv == release t /\ i_end iv == dead u).
Proof.
  split; [exact set_first_semantics|].
  exact (get_intervals_candidates set_first set_first_semantics
           (new_tasks 0 main_tasks)).
Defined.

Lemma cut_compresses_window_witness :
  release tail_task < dead tail_task /\ 5 < 10 /\
  cut tail_task 5 10 = Ok tail_task_cut /\
  release tail_task_cut == compress 5 10 (release tail_task) /\
  dead tail_task_cut == compress 5 10 (dead tail_task) /\
  offset tail_task_cut
  == offset tail_task + (if Qle_bool 5 (release tail_task) then 10 - 5 else 0).
Proof.
  assert (H1 : release tail_task < dead tail_task) by reflexivity.
  assert (H2 : 5 < 10) by reflexivity.
  assert (H3 : cut tail_task 5 10 = Ok tail_task_cut) by reflexivity.
  split; [exact H1|]. split; [exact H2|]. split; [exact H3|].
  exact (cut_compresses_window tail_task 5 10 tail_task_cut H1 H2 H3).
Defined.


Lemma no_window_tasks_pairs (t u : Task string) :
  In t no_window_tasks -> In u no_window_tasks -> dead u <= release t.
Proof.
  intros Ht Hu. simpl in Ht, Hu.
  destruct Ht as [<-|[<-|[]]]; destruct Hu as [<-|[<-|[]]]; discriminate.
Defined.

Lemma no_candidate_interval_raises_witness :
  no_window_tasks <> [] /\ (1 <= 1)%nat /\
  get_intervals set_first no_window_tasks = Ok [] /\
  calc_scheduling set_first 1 no_window_tasks = Some (Raise ValueError).
Proof.
  assert (H1 : no_window_tasks <> []) by discriminate.
  split; [exact H1|]. split; [exact (le_n 1)|].
  exact (no_candidate_interval_raises set_first set_first_semantics
           no_window_tasks 1 H1 (le_n 1) no_window_tasks_pairs).
Defined.






Lemma peak_frequency_attained_witness :
  Forall valid_task (new_tasks 0 two_tasks) /\
  Forall plain_task (new_tasks 0 two_tasks) /\
  critical (new_tasks 0 two_tasks) 0 10 /\
  exists schedule,
    (forall fuel, (length two_tasks <= fuel)%nat ->
       calc_scheduling set_first fuel (new_tasks 0 two_tasks)
       = Some (Ok schedule)) /\
    Exists (fun ex => frequency ex
                      == total (filter (contained 0 10) (new_tasks 0 two_tasks))
                         / (10 - 0)) schedule.
Proof.
  split; [exact two_tasks_valid|]. split; [exact two_tasks_plain|].
  split; [exact two_tasks_critical_interval|].
  exact (peak_frequency_attained set_first set_first_semantics two_tasks 0 10
           two_tasks_valid two_tasks_plain two_tasks_critical_interval).
Defined.

Lemma get_intervals_count_witness :
  set_semantics set_first /\
  exists intervals,
    get_intervals set_first (new_tasks 0 main_tasks) = Ok intervals /\
    (length intervals
     <= length (new_tasks 0 main_tasks) * length (new_tasks 0 main_tasks))%nat.
Proof.
  split; [exact set_first_semantics|].
  exact (get_intervals_count set_first set_first_semantics (new_tasks 0 main_tasks)).
Defined.
